(** * Chapter detection core of the audiobook splitter (src/main.py)

    A shallow embedding of the temporal reasoning layer of [main.py]:
    the phrase grammar, the recognition-result parser, the silence index
    and gate, the candidate filter and the segment builder, with the
    naming of the exported tracks and the chapter list of [--m4b-only],
    followed by the properties that the specification states about them
    and by further properties of the code.

    Modelling conventions.
    - A Python [float] is the rational it stands for ([Q]); comparisons
      and [max] are exact, as they are on floats.  An arithmetic operation
      gives the exact result rounded to the nearest binary64 number, ties
      to even ([fl], [fsub], [fmul]), and a decimal literal such as [0.2]
      is the binary64 number nearest to it.  Times are finite and far from
      the overflow threshold, so infinities and NaN are outside the model.
    - Python [int] chapter numbers are never negative in this program
      (they come from [range(1, max+1)], from the grammar table or from
      [int] of a digit string), so they are binary naturals ([N]).
    - Python [str] is a byte string ([string]); the Russian literals are
      their UTF-8 bytes.  The order of strings is the order of their bytes.
      Case, digits and white space are those of ASCII and of the Cyrillic
      letters U+0400 to U+045F: on a text over this repertoire
      ([repertoire]) the string methods of the model are those of Python.
    - Python [int] milliseconds are integers ([Z]).
    - A Python [dict] is a [gmap], a [set] a [gset]; assignment to a key
      overwrites.
    - An exception is a value of the small error monad [py]; unbounded
      recursion is fuel exhaustion: a function that may recurse without
      bound takes a [fuel] and raises [RecursionError] when it runs out. *)

From Stdlib Require Import QArith Qround Qpower ZArith NArith Lia Lqa Bool.
From Stdlib Require Import Ascii String DecimalString DecimalN DecimalFacts.
From stdpp Require Import gmap strings list sorting.

Local Open Scope string_scope.
Local Open Scope N_scope.

(** ** Exceptions *)

(** The two exceptions this code can raise on its own. *)
Inductive exn : Set := RecursionError | ValueError.

(** A computation that returns or raises. *)
Inductive py (A : Type) : Type :=
| Ok (a : A)
| Raise (e : exn).
Arguments Ok {A} a.
Arguments Raise {A} e.

#[global] Instance py_ret : MRet py := fun A a => Ok a.

#[global] Instance py_bind : MBind py := fun A B k m =>
  match m with
  | Ok a => k a
  | Raise e => Raise e
  end.

(** ** Phrase generators (EN/RU) *)

(** Python's [str(n)] for a non-negative integer. *)
Definition str (n : N) : string := NilZero.string_of_uint (N.to_uint n).

(** [lst[i]] for an index that the guards of the caller keep in range. *)
Definition index (l : list string) (i : N) : string := nth (N.to_nat i) l "".

Definition en_units : list string :=
  [""; "one"; "two"; "three"; "four"; "five"; "six"; "seven"; "eight"; "nine"].
Definition en_teens : list string :=
  ["ten"; "eleven"; "twelve"; "thirteen"; "fourteen"; "fifteen"; "sixteen";
   "seventeen"; "eighteen"; "nineteen"].
Definition en_tens : list string :=
  [""; ""; "twenty"; "thirty"; "forty"; "fifty"; "sixty"; "seventy"; "eighty";
   "ninety"].

(** The first four branches of [english_cardinal], those taken when
    [n < 100]; none of them recurses. *)
Definition english_cardinal_small (n : N) : string :=
  if n =? 0 then "zero"
  else if n <? 10 then index en_units n
  else if (10 <=? n) && (n <? 20) then index en_teens (n - 10)
  else
    let t := n / 10 in
    let u := n mod 10 in
    if u =? 0 then index en_tens t
    else index en_tens t +:+ " " +:+ index en_units u.

(** [english_cardinal].  Its only recursive call is on [n % 100], which is
    below 100 and so lands in the branches of [english_cardinal_small]. *)
Definition english_cardinal (n : N) : string :=
  if n <? 100 then english_cardinal_small n
  else if n <? 1000 then
    let h := n / 100 in
    let rem := n mod 100 in
    if rem =? 0 then index en_units h +:+ " hundred"
    else index en_units h +:+ " hundred " +:+ english_cardinal_small rem
  else str n.

Definition en_base : gmap N string :=
  list_to_map
    [(1, "first"); (2, "second"); (3, "third"); (4, "fourth"); (5, "fifth");
     (6, "sixth"); (7, "seventh"); (8, "eighth"); (9, "ninth"); (10, "tenth");
     (11, "eleventh"); (12, "twelfth"); (13, "thirteenth"); (14, "fourteenth");
     (15, "fifteenth"); (16, "sixteenth"); (17, "seventeenth");
     (18, "eighteenth"); (19, "nineteenth"); (20, "twentieth");
     (30, "thirtieth"); (40, "fortieth"); (50, "fiftieth"); (60, "sixtieth");
     (70, "seventieth"); (80, "eightieth"); (90, "ninetieth");
     (100, "hundredth")].

(** [k in d] *)
Definition has_key (d : gmap N string) (k : N) : bool :=
  match d !! k with Some _ => true | None => false end.

(** Truth value of a [str | None]. *)
Definition truthy (o : option string) : bool :=
  match o with
  | Some s => negb (String.eqb s "")
  | None => false
  end.

(** [a or b] on [str | None] against [str]. *)
Definition or_else (o : option string) (d : string) : string :=
  match o with
  | Some s => if String.eqb s "" then d else s
  | None => d
  end.

(** The part of [english_ordinal_basic] from [if n < 1000:] on; [rec] is
    the recursive call, made on [rem] only when that line is reached. *)
Definition english_ordinal_hundreds
    (rec : N -> py (option string)) (n : N) : py (option string) :=
  if n <? 1000 then
    let h := (n / 100) * 100 in
    let rem := n mod 100 in
    if (rem =? 0) && has_key en_base h then Ok (en_base !! h)
    else if negb (h =? 0) then
      tail ← rec rem;
      Ok (Some (english_cardinal h +:+ " " +:+ or_else tail (english_cardinal rem)))
    else Ok None
  else Ok None.

(** [english_ordinal_basic].  [fuel] bounds the depth of the recursion, as
    the interpreter's stack does. *)
Fixpoint english_ordinal_basic (fuel : nat) (n : N) : py (option string) :=
  match fuel with
  | O => Raise RecursionError
  | S fuel =>
    match en_base !! n with
    | Some s => Ok (Some s)
    | None =>
      if n <? 100 then
        let t := (n / 10) * 10 in
        let u := n mod 10 in
        tail ← english_ordinal_basic fuel u;
        if has_key en_base t && truthy tail
        then Ok (Some (english_cardinal t +:+ " " +:+ or_else tail ""))
        else english_ordinal_hundreds (english_ordinal_basic fuel) n
      else english_ordinal_hundreds (english_ordinal_basic fuel) n
    end
  end.

Definition ru_units : list string :=
  [""; "один"; "два"; "три"; "четыре"; "пять"; "шесть"; "семь"; "восемь";
   "девять"].
Definition ru_teens : list string :=
  ["десять"; "одиннадцать"; "двенадцать"; "тринадцать"; "четырнадцать";
   "пятнадцать"; "шестнадцать"; "семнадцать"; "восемнадцать";
   "девятнадцать"].
Definition ru_tens : list string :=
  [""; "десять"; "двадцать"; "тридцать"; "сорок"; "пятьдесят"; "шестьдесят";
   "семьдесят"; "восемьдесят"; "девяносто"].
Definition ru_hundreds : list string :=
  [""; "сто"; "двести"; "триста"; "четыреста"; "пятьсот"; "шестьсот";
   "семьсот"; "восемьсот"; "девятьсот"].

(** The white space of ASCII, which is the white space that [str.strip()]
    removes from a text over the repertoire: tab to carriage return, the
    four separators 0x1c to 0x1f and the space. *)
Definition is_space (c : ascii) : bool :=
  let k := N_of_ascii c in
  (k =? 32) || ((9 <=? k) && (k <=? 13)) || ((28 <=? k) && (k <=? 31)).

Fixpoint lstrip (s : string) : string :=
  match s with
  | String c s' => if is_space c then lstrip s' else s
  | EmptyString => EmptyString
  end.

Fixpoint rstrip (s : string) : string :=
  match s with
  | String c s' =>
    match rstrip s' with
    | EmptyString => if is_space c then EmptyString else String c EmptyString
    | r => String c r
    end
  | EmptyString => EmptyString
  end.

Definition strip (s : string) : string := rstrip (lstrip s).

Definition russian_cardinal_small (n : N) : string :=
  if n =? 0 then "ноль"
  else if n <? 10 then index ru_units n
  else if (10 <=? n) && (n <? 20) then index ru_teens (n - 10)
  else
    let t := n / 10 in
    let u := n mod 10 in
    if u =? 0 then index ru_tens t
    else strip (index ru_tens t +:+ " " +:+ index ru_units u).

(** [russian_cardinal]; as in [english_cardinal] the recursive call is on
    [n % 100]. *)
Definition russian_cardinal (n : N) : string :=
  if n <? 100 then russian_cardinal_small n
  else if n <? 1000 then
    let h := n / 100 in
    let rem := n mod 100 in
    if rem =? 0 then index ru_hundreds h
    else strip (index ru_hundreds h +:+ " " +:+ russian_cardinal_small rem)
  else str n.

Definition ru_base : gmap N string :=
  list_to_map
    [(1, "первая"); (2, "вторая"); (3, "третья"); (4, "четвертая");
     (5, "пятая"); (6, "шестая"); (7, "седьмая"); (8, "восьмая");
     (9, "девятая"); (10, "десятая")].

Definition russian_ordinal_basic (n : N) : option string := ru_base !! n.

(** [range(1, max_chapters + 1)] *)
Definition chapter_range (max_chapters : Z) : list N :=
  map N.of_nat (seq 1 (Z.to_nat max_chapters)).

(** The grammar under construction: [phrases] and [spoken_to_int]. *)
Definition grammar : Type := list string * gmap string N.

(** One iteration of either loop of [build_phrase_map]; an exception of
    [ordinal] is not caught and aborts the build. *)
Definition phrase_step (cardinal : N -> string)
    (ordinal : N -> py (option string)) (trigger : string)
    (include_ordinals : bool) (g : grammar) (n : N) : py grammar :=
  let spoken := cardinal n in
  let phrases := (g.1 ++ [trigger +:+ " " +:+ spoken])%list in
  let spoken_to_int := <[spoken := n]> g.2 in
  if include_ordinals then
    ordw ← ordinal n;
    if truthy ordw
    then Ok ((phrases ++ [trigger +:+ " " +:+ or_else ordw ""])%list,
             <[or_else ordw "" := n]> spoken_to_int)
    else Ok (phrases, spoken_to_int)
  else Ok (phrases, spoken_to_int).

(** A [for] loop whose body may raise. *)
Fixpoint for_each {S A : Type} (body : S -> A -> py S) (l : list A)
    (s : S) : py S :=
  match l with
  | [] => Ok s
  | x :: l' => s' ← body s x; for_each body l' s'
  end.

Definition build_phrase_map (fuel : nat) (language trigger : string)
    (max_chapters : Z) (include_ordinals : bool) : py grammar :=
  g ← (if String.eqb language "ru"
       then for_each (phrase_step russian_cardinal
                        (fun n => Ok (russian_ordinal_basic n))
                        trigger include_ordinals)
              (chapter_range max_chapters) ([], ∅)
       else for_each (phrase_step english_cardinal
                        (english_ordinal_basic fuel)
                        trigger include_ordinals)
              (chapter_range max_chapters) ([], ∅));
  Ok ((g.1 ++ [trigger])%list, g.2).

Local Close Scope N_scope.
Local Open Scope list_scope.
Local Open Scope Q_scope.

(** ** Times, comparisons and sorting *)

Definition Qleb (a b : Q) : bool := Qle_bool a b.
Definition Qltb (a b : Q) : bool := negb (Qle_bool b a).

(** Python's [max(a, b)]: [a] unless [b] is strictly greater. *)
Definition py_max (a b : Q) : Q := if Qltb a b then b else a.

(** [round(x)] to an [int]: to the nearest integer, a tie to the even
    one. *)
Definition py_round (x : Q) : Z :=
  let f := Qfloor x in
  let twice := 2 * (x - inject_Z f) in
  if Qltb twice 1 then f
  else if Qltb 1 twice then (f + 1)%Z
  else if Z.even f then f else (f + 1)%Z.

(** ** Float arithmetic *)

(** The exponent [e] of a positive [x]: [2^e <= x < 2^(e+1)].  The
    integer logarithms of numerator and denominator give it within
    one. *)
Definition binade (x : Q) : Z :=
  let e := (Z.log2 (Qnum x) - Z.log2 (Z.pos (Qden x)))%Z in
  if Qltb x (2 ^ e) then (e - 1)%Z else e.

(** The exponent of the last place of the binary64 numbers around a
    positive [x]: 53 significant bits, and the spacing [2^-1074] of the
    subnormal numbers at the bottom. *)
Definition quantum (x : Q) : Z := Z.max (binade x - 52) (-1074).

(** [x] rounded to the nearest multiple of [2^q], a tie to the even
    one. *)
Definition round_at (q : Z) (x : Q) : Q :=
  inject_Z (py_round (x / 2 ^ q)) * 2 ^ q.

(** The binary64 number nearest to [x], a tie to the even one: what a
    float operation with the exact result [x] returns, and what a decimal
    literal [x] denotes. *)
Definition fl (x : Q) : Q :=
  if Qltb 0 x then round_at (quantum x) x
  else if Qltb x 0 then - round_at (quantum (- x)) (- x)
  else 0.

(** [x - y] and [x * y] on floats. *)
Definition fsub (x y : Q) : Q := fl (x - y).
Definition fmul (x y : Q) : Q := fl (x * y).

(** [sorted(l, key=key)]: the stable sort, here by straight insertion.  An
    element is put before the first one whose key is not smaller, so equal
    keys keep their order. *)
Section Sorting.
Context {A : Type} (key : A -> Q).

Fixpoint insert_by (x : A) (l : list A) : list A :=
  match l with
  | [] => [x]
  | y :: l' =>
    if Qleb (key x) (key y) then x :: y :: l' else y :: insert_by x l'
  end.

Fixpoint sorted_by (l : list A) : list A :=
  match l with
  | [] => []
  | x :: l' => insert_by x (sorted_by l')
  end.

(** Ascending keys, as a test. *)
Fixpoint is_sorted_by (l : list A) : bool :=
  match l with
  | [] => true
  | x :: l' =>
    match l' with
    | [] => true
    | y :: _ => Qleb (key x) (key y) && is_sorted_by l'
    end
  end.
End Sorting.

(** ** Silence detection & gating *)

Definition interval : Type := Q * Q.

(** The last two statements of [detect_silences]: normalise and sort the
    intervals read from the detector's log. *)
Definition normalize_silences (found : list interval) : list interval :=
  sorted_by fst (map (fun se => (py_max 0 se.1, py_max se.1 se.2)) found).

Definition build_silence_index (silences : list interval)
    : list Q * list Q :=
  (map fst silences, map snd silences).

(** [bisect.bisect_right(a, x)] and [bisect.bisect_left(a, x)] of the
    standard library: the loop [while lo < hi] halves [hi - lo], so
    [length a] rounds are more than it can use. *)
Fixpoint bisect_right_loop (rounds : nat) (a : list Q) (x : Q)
    (lo hi : nat) : nat :=
  match rounds with
  | O => lo
  | S rounds =>
    if (lo <? hi)%nat then
      let mid := ((lo + hi) / 2)%nat in
      if Qltb x (nth mid a 0) then bisect_right_loop rounds a x lo mid
      else bisect_right_loop rounds a x (mid + 1)%nat hi
    else lo
  end.

Definition bisect_right (a : list Q) (x : Q) : nat :=
  bisect_right_loop (length a) a x 0 (length a).

Fixpoint bisect_left_loop (rounds : nat) (a : list Q) (x : Q)
    (lo hi : nat) : nat :=
  match rounds with
  | O => lo
  | S rounds =>
    if (lo <? hi)%nat then
      let mid := ((lo + hi) / 2)%nat in
      if Qltb (nth mid a 0) x then bisect_left_loop rounds a x (mid + 1)%nat hi
      else bisect_left_loop rounds a x lo mid
    else lo
  end.

Definition bisect_left (a : list Q) (x : Q) : nat :=
  bisect_left_loop (length a) a x 0 (length a).

(** [a[idx] if 0 <= idx < len(a) else None] *)
Definition item_or_none (a : list Q) (idx : Z) : option Q :=
  if ((0 <=? idx) && (idx <? Z.of_nat (length a)))%Z
  then a !! Z.to_nat idx else None.

Definition nearest_silence_bounds (t_start t_end : Q)
    (silences : list interval) (starts ends : list Q)
    : option Q * option Q :=
  let idx_end := (Z.of_nat (bisect_right ends t_start) - 1)%Z in
  let prev_end := item_or_none ends idx_end in
  let idx_start := Z.of_nat (bisect_left starts t_end) in
  let next_start := item_or_none starts idx_start in
  (prev_end, next_start).

Definition passes_silence_gate (t_start t_end : Q)
    (silences : list interval) (starts ends : list Q) (pre_win post_win : Q)
    : bool :=
  let '(prev_end, next_start) :=
    nearest_silence_bounds t_start t_end silences starts ends in
  let pre_ok :=
    match prev_end with
    | Some pe => Qleb (fsub t_start pe) pre_win
    | None => false
    end in
  let post_ok :=
    match next_start with
    | Some ns => Qleb (fsub ns t_end) post_win
    | None => false
    end in
  pre_ok && post_ok.

(** The linear scans that the specification compares [nearest_bounds]
    with: the greatest end not after [t_start], the smallest start not
    before [t_end]. *)
Definition scan_prev_end (ends : list Q) (t_start : Q) : option Q :=
  fold_left
    (fun best e =>
       if Qleb e t_start then
         match best with
         | Some b => if Qleb b e then Some e else best
         | None => Some e
         end
       else best)
    ends None.

Definition scan_next_start (starts : list Q) (t_end : Q) : option Q :=
  fold_left
    (fun best s =>
       if Qleb t_end s then
         match best with
         | Some b => if Qltb s b then Some s else best
         | None => Some s
         end
       else best)
    starts None.

Definition brute_force_bounds (t_start t_end : Q)
    (silences : list interval) : option Q * option Q :=
  (scan_prev_end (map snd silences) t_start,
   scan_next_start (map fst silences) t_end).

(** ** Command-line arguments read by the core *)

Record args : Type := Args {
  conf_min : Q;
  sequential_chapters : bool;
  min_chapter_gap : Q;
  min_chapter_duration : Q;
  silence_pre : Q;
  silence_post : Q
}.

(** The defaults of the argument parser. *)
Definition default_args : args :=
  {| conf_min := fl 0.35; sequential_chapters := false;
     min_chapter_gap := 90; min_chapter_duration := 120;
     silence_pre := fl 0.6; silence_post := fl 0.8 |}.

(** ** Recognition results and [parse_phrase] *)

(** A word object of the recognizer; a field is [None] when its key is
    absent, which is what [w.get(key, default)] tests. *)
Record word : Type := Word {
  w_start : option Q;
  w_end : option Q;
  w_conf : option Q
}.

(** A result object: its [text] and its [result] list, either possibly
    absent. *)
Record res_obj : Type := ResObj {
  r_text : option string;
  r_result : option (list word)
}.

Inductive kind : Set := chapter | back.

(** The small letter of an ASCII capital; any other byte stays. *)
Definition lower_char (c : ascii) : ascii :=
  let k := N_of_ascii c in
  if ((65 <=? k) && (k <=? 90))%N then ascii_of_N (k + 32) else c.

(** The lead bytes of the Cyrillic letters U+0400 to U+047F in UTF-8. *)
Definition lead_d0 : ascii := ascii_of_N 208.
Definition lead_d1 : ascii := ascii_of_N 209.

(** The small letter of a Cyrillic capital, as two bytes: U+0400 to
    U+040F (D0 80-8F) go to U+0450 to U+045F (D1 90-9F), U+0410 to U+041F
    (D0 90-9F) to U+0430 to U+043F (D0 B0-BF), and U+0420 to U+042F
    (D0 A0-AF) to U+0440 to U+044F (D1 80-8F). *)
Definition lower_cyrillic (c c' : ascii) : option (ascii * ascii) :=
  let k := N_of_ascii c' in
  if Ascii.eqb c lead_d0 then
    if ((128 <=? k) && (k <=? 143))%N then Some (lead_d1, ascii_of_N (k + 16))
    else if ((144 <=? k) && (k <=? 159))%N
    then Some (lead_d0, ascii_of_N (k + 32))
    else if ((160 <=? k) && (k <=? 175))%N
    then Some (lead_d1, ascii_of_N (k - 32))
    else None
  else None.

(** [s.lower()] on the repertoire: an ASCII capital and a Cyrillic
    capital become their small letters; any other byte stays. *)
Fixpoint lower (s : string) : string :=
  match s with
  | String c s' =>
    match s' with
    | String c' s'' =>
      match lower_cyrillic c c' with
      | Some (d, d') => String d (String d' (lower s''))
      | None => String (lower_char c) (lower s')
      end
    | EmptyString => String (lower_char c) EmptyString
    end
  | EmptyString => EmptyString
  end.

Definition is_digit (c : ascii) : bool :=
  let k := N_of_ascii c in ((48 <=? k) && (k <=? 57))%N.

Fixpoint all_digits (s : string) : bool :=
  match s with
  | String c s' => is_digit c && all_digits s'
  | EmptyString => true
  end.

(** [s.isdigit()] on the repertoire, whose digits are 0 to 9. *)
Definition isdigit (s : string) : bool :=
  negb (String.eqb s "") && all_digits s.

(** The most digits that [int] converts:
    [sys.get_int_max_str_digits()]. *)
Definition int_max_str_digits : nat := 4300.

(** [int(s)]: raises [ValueError] when [s] is no decimal numeral, and
    when it has more digits than the interpreter converts. *)
Definition int_of_str (s : string) : py N :=
  if (int_max_str_digits <? String.length s)%nat then Raise ValueError
  else
    match NilEmpty.uint_of_string s with
    | Some d => if String.eqb s "" then Raise ValueError else Ok (N.of_uint d)
    | None => Raise ValueError
    end.

(** [s[k:]] *)
Fixpoint drop_chars (k : nat) (s : string) : string :=
  match k, s with
  | S k', String _ s' => drop_chars k' s'
  | _, _ => s
  end.

(** [all(w.get("conf", 1.0) >= conf_min for w in words)] *)
Definition conf_all (floor : Q) (words : list word) : bool :=
  forallb (fun w => Qleb floor (default 1 (w_conf w))) words.

(** [max((w.get("end", 0.0) for w in words), default=None)] *)
Definition max_end (words : list word) : option Q :=
  match words with
  | [] => None
  | w :: ws =>
    Some (fold_left (fun best w' => py_max best (default 0 (w_end w')))
            ws (default 0 (w_end w)))
  end.

(** What [parse_phrase] returns:
    [(kind, t_start, t_end, chapter_n, conf_ok)]. *)
Definition parsed : Type :=
  option kind * option Q * option Q * option N * bool.

Definition nothing (conf_ok : bool) : parsed :=
  (None, None, None, None, conf_ok).

Section Parser.
Variable a : args.
Variable trigger : string.
Variable back_trigger : option string.
Variable spoken_to_int : gmap string N.

Definition parse_phrase (r : res_obj) : py parsed :=
  let text := lower (strip (default "" (r_text r))) in
  let words := default [] (r_result r) in
  if String.eqb text "" || (match words with [] => true | _ => false end)
  then Ok (nothing true)
  else
    let conf_ok := conf_all (conf_min a) words in
    let t_start := match words with w :: _ => w_start w | [] => None end in
    let t_end := max_end words in
    match conf_ok, t_start, t_end with
    | true, Some ts, Some te =>
      if match back_trigger with
         | Some b => negb (String.eqb b "") && String.eqb text b
         | None => false
         end
      then Ok (Some back, Some ts, Some te, None, conf_ok)
      else if String.eqb text trigger then Ok (nothing conf_ok)
      else if String.prefix (trigger +:+ " ") text then
        let tail := strip (drop_chars (String.length trigger + 1) text) in
        n ← match spoken_to_int !! tail with
            | Some n => Ok (Some n)
            | None =>
              if isdigit tail then k ← int_of_str tail; Ok (Some k)
              else Ok None
            end;
        match n with
        | Some k =>
          if negb (k =? 0)%N
          then Ok (Some chapter, Some ts, Some te, Some k, conf_ok)
          else Ok (nothing conf_ok)
        | None => Ok (nothing conf_ok)
        end
      else Ok (nothing conf_ok)
    | _, _, _ => Ok (nothing conf_ok)
    end.
End Parser.

(** An entry of [raw_candidates]: [(kind, ts, te, n_or_None)]. *)
Record candidate : Type := Candidate {
  c_kind : kind;
  c_ts : Q;
  c_te : Q;
  c_n : option N
}.

(** [if kind and ok: raw_candidates.append((kind, ts, te, n))] *)
Definition append_parsed (raw_candidates : list candidate) (p : parsed)
    : list candidate :=
  match p with
  | (Some k, Some ts, Some te, n, true) =>
    raw_candidates ++ [Candidate k ts te n]
  | _ => raw_candidates
  end.

Definition kind_eqb (k1 k2 : kind) : bool :=
  match k1, k2 with
  | chapter, chapter | back, back => true
  | _, _ => false
  end.

(** ** Gating, spacing and numbering of the chapter candidates *)

(** A kept chapter: [(ts, te, n)]. *)
Definition mark : Type := Q * Q * option N.

Definition m_ts (m : mark) : Q := m.1.1.
Definition m_n (m : mark) : option N := m.2.

(** The initial [last_keep_t]. *)
Definition last_keep_init : Q := - (10 ^ 12).

Section Filter.
Variable a : args.
Variable silences : list interval.

Let s_starts : list Q := (build_silence_index silences).1.
Let s_ends : list Q := (build_silence_index silences).2.

Definition gate (ts te : Q) : bool :=
  passes_silence_gate ts te silences s_starts s_ends
    (silence_pre a) (silence_post a).

Definition chapter_candidates (raw_candidates : list candidate)
    : list candidate :=
  sorted_by c_ts
    (filter (fun c => kind_eqb (c_kind c) chapter = true) raw_candidates).

(** The body of the loop over [chapter_candidates]; the state is
    [(chapters, last_keep_t)]. *)
Definition keep_step (st : list mark * Q) (c : candidate)
    : list mark * Q :=
  let '(chapters, last_keep_t) := st in
  if (0 <? length silences)%nat && negb (gate (c_ts c) (c_te c)) then st
  else
    let gap := fsub (c_ts c) last_keep_t in
    if Qltb gap (min_chapter_gap a) then st
    else (chapters ++ [(c_ts c, c_te c, c_n c)], c_ts c).

Definition keep_loop (cands : list candidate) : list mark * Q :=
  fold_left keep_step cands ([], last_keep_init).

(** First occurrence per chapter number; the state is
    [(marks, seen_nums)]. *)
Definition first_occurrences (chapters : list mark) : list mark :=
  (fold_left
     (fun (st : list mark * gset (option N)) m =>
        if decide (m_n m ∈ st.2) then st
        else (st.1 ++ [m], st.2 ∪ {[m_n m]}))
     chapters ([], ∅)).1.

(** The sequential filter; the state is
    [(sequential_marks, expected_chapter)]. *)
Definition sequential_filter (marks : list mark) : list mark :=
  (fold_left
     (fun (st : list mark * N) m =>
        if decide (m_n m = Some st.2) then (st.1 ++ [m], (st.2 + 1)%N)
        else st)
     (sorted_by m_ts marks) ([], 1%N)).1.

Definition chapters_of (raw_candidates : list candidate) : list mark :=
  (keep_loop (chapter_candidates raw_candidates)).1.

(** [marks] as it stands when the segments are built. *)
Definition final_marks (raw_candidates : list candidate) : list mark :=
  let chapters := chapters_of raw_candidates in
  let marks :=
    if sequential_chapters a then sorted_by m_ts chapters
    else sorted_by m_ts (first_occurrences chapters) in
  if sequential_chapters a then sequential_filter marks else marks.

(** [back_start]: the first back candidate, in time order, that passes
    the silence gate. *)
Definition find_back_start (raw_candidates : list candidate) : option Q :=
  c_ts <$>
    head (filter (fun c => gate (c_ts c) (c_te c) = true)
            (sorted_by c_ts
               (filter (fun c => kind_eqb (c_kind c) back = true)
                  raw_candidates))).
End Filter.

(** ** Segments *)

Record segment : Type := Segment {
  seg_start : Q;
  seg_end : Q;
  seg_label : string
}.

Definition duration (s : segment) : Q := fsub (seg_end s) (seg_start s).

(** [str] of a chapter number as it sits in a mark. *)
Definition str_number (n : option N) : string :=
  match n with
  | Some k => str k
  | None => "None"
  end.

(** [lab.startswith("chapter_")] *)
Definition is_chapter (s : segment) : bool :=
  String.prefix "chapter_" (seg_label s).

(** The loop [for i in range(len(marks))]: each mark runs to the next
    mark's start, the last one to [total_duration]. *)
Fixpoint chapter_segments (marks : list mark) (total_duration : Q)
    : list segment :=
  match marks with
  | [] => []
  | m :: rest =>
    let e :=
      match rest with
      | m' :: _ => m_ts m'
      | [] => total_duration
      end in
    Segment (m_ts m) e ("chapter_" +:+ str_number (m_n m))
      :: chapter_segments rest total_duration
  end.

(** The loop that cuts the segments at [back_start]. *)
Fixpoint truncate_at (back_start : Q) (segments : list segment)
    : list segment :=
  match segments with
  | [] => []
  | s :: rest =>
    if Qleb back_start (seg_start s) then truncate_at back_start rest
    else if Qltb (seg_start s) back_start && Qltb back_start (seg_end s)
    then Segment (seg_start s) back_start (seg_label s)
           :: truncate_at back_start rest
    else s :: truncate_at back_start rest
  end.

(** Step 6: preface, chapters, optional back matter. *)
Definition build_segments (marks : list mark) (back_start : option Q)
    (total_duration : Q) : list segment :=
  match marks with
  | m :: _ =>
    let first_t := m_ts m in
    let segments :=
      (if Qltb (fl 0.2) first_t then [Segment 0 first_t "preface"] else [])
        ++ chapter_segments marks total_duration in
    match back_start with
    | Some b =>
      truncate_at b segments
        ++ (if Qleb 1 (fsub total_duration b)
            then [Segment b total_duration "back_matter"] else [])
    | None => segments
    end
  | [] =>
    match back_start with
    | Some b =>
      if negb (Qeq_bool b 0) && Qltb 1 b
      then [Segment 0 b "preface"; Segment b total_duration "back_matter"]
      else [Segment 0 total_duration "preface"]
    | None => [Segment 0 total_duration "preface"]
    end
  end.

(** Step 7, first loop: a short chapter is merged into the previous kept
    segment, or skipped when there is none. *)
Definition absorb_step (min_dur : Q) (cleaned : list segment)
    (seg : segment) : list segment :=
  if is_chapter seg && Qltb (duration seg) min_dur then
    match last cleaned with
    | Some p =>
      <[pred (length cleaned) :=
          Segment (seg_start p) (seg_end seg) (seg_label p)]> cleaned
    | None => cleaned
    end
  else cleaned ++ [seg].

Definition absorb_short (min_dur : Q) (segments : list segment)
    : list segment :=
  fold_left (absorb_step min_dur) segments [].

(** Step 7, second loop. *)
Definition drop_short (min_dur : Q) (cleaned : list segment)
    : list segment :=
  filter
    (fun s => (is_chapter s
               && Qltb (duration s) (py_max 1 (fmul min_dur 0.5)))
              = false)
    cleaned.

(** [segments = [s for s in segments if (s[1] - s[0]) >= 1.0]] *)
Definition drop_microscopic (segments : list segment) : list segment :=
  filter (fun s => Qleb 1 (duration s) = true) segments.

(** Steps 6 and 7 together: the segment list handed to the exporter. *)
Definition make_segments (a : args) (marks : list mark)
    (back_start : option Q) (total_duration : Q) : list segment :=
  drop_microscopic
    (drop_short (min_chapter_duration a)
       (absorb_short (min_chapter_duration a)
          (build_segments marks back_start total_duration))).

(** Steps 5 to 7 of [main], from the raw candidates on. *)
Definition segments_of_run (a : args) (silences : list interval)
    (raw_candidates : list candidate) (total_duration : Q) : list segment :=
  make_segments a (final_marks a silences raw_candidates)
    (find_back_start a silences raw_candidates) total_duration.

(** ** The recognition loop *)

(** The loop over the recognizer's results, the final one included: each
    is parsed, and [if kind and ok] appended to [raw_candidates]. *)
Definition collect_candidates (a : args) (trigger : string)
    (back_trigger : option string) (spoken_to_int : gmap string N)
    (results : list res_obj) : py (list candidate) :=
  for_each
    (fun raw_candidates res =>
       p ← parse_phrase a trigger back_trigger spoken_to_int res;
       Ok (append_parsed raw_candidates p))
    results [].

(** ** Export: track names, titles and the chapters of the .m4b *)

(** [f"{n:02d}"] for an [n] that is not negative. *)
Definition pad2 (n : N) : string :=
  if (n <? 10)%N then "0" +:+ str n else str n.

(** Step 8: [out_name = f"{idx-1:02d}_{label}.mp3"], where
    [enumerate(segments, start=1)] counts [idx] from one. *)
Definition out_name (idx : N) (label : string) : string :=
  pad2 (idx - 1)%N +:+ "_" +:+ label +:+ ".mp3".

(** [name.rfind('.')] *)
Fixpoint rfind_dot (name : string) : option nat :=
  match name with
  | EmptyString => None
  | String c rest =>
    match rfind_dot rest with
    | Some i => Some (S i)
    | None => if Ascii.eqb c "." then Some 0%nat else None
    end
  end.

(** [PurePath.stem] of a file name: [name[:i]] for [i = name.rfind('.')]
    when [0 < i < len(name) - 1], else the name. *)
Definition stem (name : string) : string :=
  match rfind_dot name with
  | Some i =>
    if (0 <? i)%nat && (i <? String.length name - 1)%nat
    then substring 0 i name else name
  | None => name
  end.

(** [s.replace(old, new)] for one-character strings. *)
Fixpoint replace_char (old new : ascii) (s : string) : string :=
  match s with
  | String c rest =>
    String (if Ascii.eqb c old then new else c) (replace_char old new rest)
  | EmptyString => EmptyString
  end.

Definition upper_char (c : ascii) : ascii :=
  let k := N_of_ascii c in
  if ((97 <=? k) && (k <=? 122))%N then ascii_of_N (k - 32) else c.

(** A letter, on ASCII. *)
Definition is_cased (c : ascii) : bool :=
  let k := N_of_ascii c in
  (((65 <=? k) && (k <=? 90)) || ((97 <=? k) && (k <=? 122)))%N.

(** [str.title()] on ASCII: a character after a letter is lower-cased,
    any other is upper-cased. *)
Fixpoint title_from (previous_is_cased : bool) (s : string) : string :=
  match s with
  | String c rest =>
    String (if previous_is_cased then lower_char c else upper_char c)
      (title_from (is_cased c) rest)
  | EmptyString => EmptyString
  end.

Definition title (s : string) : string := title_from false s.

(** Steps 8 and 9: [label.replace("_", " ").title()]. *)
Definition human (label : string) : string :=
  title (replace_char "_" " " label).

(** [re.sub(r'^\d+_', '', s)] for the digits 0-9: a leading run of
    digits goes with the underscore that follows it, if one does. *)
Fixpoint skip_digits (s : string) : string :=
  match s with
  | String c rest => if is_digit c then skip_digits rest else s
  | EmptyString => EmptyString
  end.

Definition strip_number (s : string) : string :=
  match s with
  | String c _ =>
    if is_digit c then
      match skip_digits s with
      | String c' rest => if Ascii.eqb c' "_" then rest else s
      | EmptyString => s
      end
    else s
  | EmptyString => s
  end.

(** The chapter title that [m4b_only_mode] reads from a file stem. *)
Definition m4b_title (file_stem : string) : string :=
  title (replace_char "_" " " (strip_number file_stem)).

(** A file of the directory as [m4b_only_mode] sees it: its stem and what
    [ffprobe_duration] answers for it (zero when the probe fails). *)
Record mp3_file : Type := Mp3File {
  file_stem : string;
  file_duration : Q
}.

(** An entry of [chapters]. *)
Record chapter_entry : Type := ChapterEntry {
  start_ms : Z;
  end_ms : Z;
  entry_title : string
}.

(** The body of the loop over [mp3_files]; the state is
    [(chapters, current_time_ms)].  [int(duration * 1000)] truncates the
    float product, which is not negative here. *)
Definition m4b_step (st : list chapter_entry * Z) (f : mp3_file)
    : list chapter_entry * Z :=
  let '(chapters, current_time_ms) := st in
  if Qleb (file_duration f) 0 then st
  else
    let duration_ms := Qfloor (fmul (file_duration f) 1000) in
    (chapters ++ [ChapterEntry current_time_ms
                    (current_time_ms + duration_ms)%Z
                    (m4b_title (file_stem f))],
     (current_time_ms + duration_ms)%Z).

Definition m4b_chapters (mp3_files : list mp3_file) : list chapter_entry :=
  (fold_left m4b_step mp3_files ([], 0%Z)).1.

(** [s.zfill(width)] *)
Fixpoint zeros (k : nat) : string :=
  match k with
  | O => EmptyString
  | S k' => String "0" (zeros k')
  end.

Definition zfill (width : nat) (s : string) : string :=
  let fill := (width - String.length s)%nat in
  match s with
  | String c rest =>
    if Ascii.eqb c "+" || Ascii.eqb c "-"
    then String c (zeros fill +:+ rest)
    else zeros fill +:+ s
  | EmptyString => zeros fill
  end.

(** The sort key of [build_concat_list]: [p.stem.zfill(3)]. *)
Definition concat_key (file_stem : string) : string := zfill 3 file_stem.

(** Step 9: the chapters of the .m4b, from the final segments. *)
Definition chaps (segments : list segment) : list chapter_entry :=
  map (fun s => ChapterEntry (py_round (fmul (seg_start s) 1000))
                  (py_round (fmul (seg_end s) 1000)) (human (seg_label s)))
    segments.

(** * Vocabulary of the properties *)

(** ** Grammar *)

Definition is_ok {A : Type} (m : py A) : bool :=
  match m with Ok _ => true | Raise _ => false end.

(** The multiples of 100 above 100: not in the table of ordinals, and with
    remainder zero. *)
Definition round_hundreds : list N :=
  [200; 300; 400; 500; 600; 700; 800; 900]%N.

(** The cardinal generator of a language, as [build_phrase_map] picks it. *)
Definition cardinal_of (language : string) : N -> string :=
  if String.eqb language "ru" then russian_cardinal else english_cardinal.

(** [spoken_to_int[cardinal(n)]] on a freshly built grammar. *)
Definition reverse_lookup (fuel : nat) (language trigger : string)
    (max_chapters : Z) (include_ordinals : bool) (n : N) : py (option N) :=
  g ← build_phrase_map fuel language trigger max_chapters include_ordinals;
  Ok (g.2 !! cardinal_of language n).

Definition starts_with_digit (s : string) : bool :=
  match s with
  | String c _ => is_digit c
  | EmptyString => false
  end.

Definition below_1000 : list N := map N.of_nat (seq 0 1000).

(** The words of a cardinal generator below 1000, where it is tabulated
    rather than decimal. *)
Definition cardinal_table (cardinal : N -> string) : list (N * string) :=
  map (fun n => (n, cardinal n)) below_1000.

Definition table_distinct (t : list (N * string)) : bool :=
  forallb
    (fun x => forallb (fun y => implb (String.eqb x.2 y.2) (x.1 =? y.1)%N) t)
    t.

Definition table_wordy (t : list (N * string)) : bool :=
  forallb (fun x => negb (starts_with_digit x.2)) t.

(** A word that is in no row of the table and starts with no digit. *)
Definition fresh_in (t : list (N * string)) (s : string) : bool :=
  negb (starts_with_digit s) && forallb (fun x => negb (String.eqb s x.2)) t.

(** What the English ordinal generator does at [m] with a stack of depth
    three: an ordinal that is no cardinal, none, or an overflow at zero or
    at a round hundred. *)
Definition ordinal_classified (t : list (N * string)) (m : N) : bool :=
  match english_ordinal_basic 3 m with
  | Ok (Some s) => fresh_in t s
  | Ok None => true
  | Raise _ => bool_decide (m ∈ 0%N :: round_hundreds)
  end.

(** No ordinal that [ordinal] gives below 1000 is a row of the table. *)
Definition ordinals_fresh (ordinal : N -> option string)
    (t : list (N * string)) : bool :=
  forallb
    (fun m => match ordinal m with
              | Some s => fresh_in t s
              | None => true
              end)
    below_1000.

(** ** Silence index *)

(** Equality of optional times as numbers. *)
Definition same_time (x y : option Q) : Prop :=
  match x, y with
  | Some u, Some v => u == v
  | None, None => True
  | _, _ => False
  end.

(** [r] is the greatest member of [l] that is at most [t], if any. *)
Definition greatest_le (l : list Q) (t : Q) (r : option Q) : Prop :=
  match r with
  | Some v => In v l /\ v <= t /\ forall e, In e l -> e <= t -> e <= v
  | None => forall e, In e l -> t < e
  end.

(** [r] is the smallest member of [l] that is at least [t], if any. *)
Definition least_ge (l : list Q) (t : Q) (r : option Q) : Prop :=
  match r with
  | Some v => In v l /\ t <= v /\ forall e, In e l -> t <= e -> v <= e
  | None => forall e, In e l -> e < t
  end.

(** Ascending order, by positions. *)
Definition ascending (a : list Q) : Prop :=
  forall i j, (i <= j < length a)%nat -> nth i a 0 <= nth j a 0.

(** ** Candidate filter *)

Definition key_le {A : Type} (key : A -> Q) (x y : A) : Prop :=
  key x <= key y.

(** [last_keep_t] as a function of what has been kept so far. *)
Definition last_keep_t_of (chapters : list mark) : Q :=
  match last chapters with
  | Some m => m_ts m
  | None => last_keep_init
  end.

(** Two kept marks in time order, far enough apart. *)
Definition spaced (gap : Q) (m1 m2 : mark) : Prop :=
  m_ts m1 <= m_ts m2 /\ gap <= fsub (m_ts m2) (m_ts m1).

(** ** Parser *)


(** The text and the words as [parse_phrase] reads them. *)
Definition text_of (r : res_obj) : string :=
  lower (strip (default "" (r_text r))).

Definition words_of (r : res_obj) : list word := default [] (r_result r).





(** The words of a result with the confidence of some of them erased. *)
Fixpoint erase_conf (mask : list bool) (words : list word) : list word :=
  match words, mask with
  | w :: ws, b :: bs =>
    (if b then Word (w_start w) (w_end w) None else w) :: erase_conf bs ws
  | _, _ => words
  end.

(** ** Segments *)

(** Each segment ends where the next one starts. *)
Fixpoint contiguous (l : list segment) : Prop :=
  match l with
  | s1 :: l' =>
    match l' with
    | s2 :: _ => seg_end s1 == seg_start s2 /\ contiguous l'
    | [] => True
    end
  | [] => True
  end.

(** The segments strictly between the first and the last. *)
Definition interior (l : list segment) : list segment := tail (removelast l).

(** A segment that does not end before it starts. *)
Definition nonneg (s : segment) : Prop := seg_start s <= seg_end s.

(** A segment that is not too short for [min_dur]. *)
Definition long (min_dur : Q) (s : segment) : Prop := min_dur <= duration s.

(** The test of the first loop of step 7. *)
Definition too_short (min_dur : Q) (s : segment) : bool :=
  is_chapter s && Qltb (duration s) min_dur.

(** ** Vocabulary of the further properties *)

(** The ordinal generator of a language, as [build_phrase_map] picks it. *)
Definition ordinal_of (fuel : nat) (language : string)
    : N -> py (option string) :=
  if String.eqb language "ru"
  then fun n => Ok (russian_ordinal_basic n)
  else english_ordinal_basic fuel.

(** The ordinals that a generator gives below 1000, each with its
    number. *)
Definition ordinal_table (ordinal : N -> py (option string))
    : list (N * string) :=
  omap (fun m => match ordinal m with
                 | Ok (Some s) => Some (m, s)
                 | _ => None
                 end)
    below_1000.

Definition table_nonempty (t : list (N * string)) : bool :=
  forallb (fun x => negb (String.eqb x.2 "")) t.

(** The phrases built so far and the reverse mapping agree: each phrase is
    the trigger, a space and a key; each key has its phrase and is mapped
    to a number of the range. *)
Definition grammar_consistent (trigger : string) (range : list N)
    (g : grammar) : Prop :=
  (forall p, p ∈ g.1 ->
     exists w, p = trigger +:+ " " +:+ w /\ is_Some (g.2 !! w)) /\
  (forall w v, g.2 !! w = Some v ->
     v ∈ range /\ trigger +:+ " " +:+ w ∈ g.1).

(** ** Text *)

Definition is_upper (c : ascii) : bool :=
  let k := N_of_ascii c in ((65 <=? k) && (k <=? 90))%N.

(** Some character of [s] is an ASCII capital. *)
Fixpoint has_upper (s : string) : bool :=
  match s with
  | String c s' => is_upper c || has_upper s'
  | EmptyString => false
  end.

(** A byte of ASCII, and the two bytes of a Cyrillic letter from U+0400
    to U+045F (D0 80-BF and D1 80-9F). *)
Definition is_ascii (c : ascii) : bool := (N_of_ascii c <? 128)%N.

Definition is_cyrillic (c c' : ascii) : bool :=
  let k := N_of_ascii c' in
  (Ascii.eqb c lead_d0 && (128 <=? k)%N && (k <=? 191)%N)
  || (Ascii.eqb c lead_d1 && (128 <=? k)%N && (k <=? 159)%N).

(** A text over the repertoire of the model: ASCII and the Cyrillic
    letters U+0400 to U+045F.  On such a text [lower], [strip] and
    [isdigit] are the methods of Python. *)
Fixpoint repertoire (s : string) : bool :=
  match s with
  | String c s' =>
    if is_ascii c then repertoire s'
    else
      match s' with
      | String c' s'' => is_cyrillic c c' && repertoire s''
      | EmptyString => false
      end
  | EmptyString => true
  end.

(** [s] starts with a character that is no white space. *)
Definition starts_clean (s : string) : bool :=
  match s with
  | String c _ => negb (is_space c)
  | EmptyString => false
  end.

(** [s] is over the repertoire, not empty, and left as it is by
    [lower], [lstrip] and [rstrip]. *)
Definition tidy (s : string) : bool :=
  repertoire s && String.eqb (lower s) s && String.eqb (lstrip s) s
  && String.eqb (rstrip s) s && negb (String.eqb s "").

Definition table_tidy (t : list (N * string)) : bool :=
  forallb (fun x => tidy x.2) t.

(** The kind of candidate in what [parse_phrase] returns. *)
Definition kind_of (p : parsed) : option kind := p.1.1.1.1.

(** ** Segments, further *)

(** A segment is over before another one starts. *)
Definition before (s1 s2 : segment) : Prop := seg_end s1 <= seg_start s2.

(** The label of the segment that a mark opens. *)
Definition mark_label (m : mark) : string :=
  "chapter_" +:+ str_number (m_n m).

(** Every label that step 6 can give, in the order of the segments. *)
Definition all_labels (marks : list mark) : list string :=
  "preface" :: map mark_label marks ++ ["back_matter"].

(** ** Export *)

(** The naturals below [k]. *)
Definition below (k : nat) : list N := map N.of_nat (seq 0 k).

(** The keys that [key] gives below [k], tabulated. *)
Definition key_table (key : N -> string) (k : nat) : list (N * string) :=
  map (fun n => (n, key n)) (below k).

(** The keys of a table all have [width] characters and ascend strictly,
    in the order of strings, with the numbers. *)
Definition keys_ascend (width : nat) (t : list (N * string)) : bool :=
  forallb
    (fun x =>
       Nat.eqb (String.length x.2) width
       && forallb (fun y => implb (x.1 <? y.1)%N (String.ltb x.2 y.2)) t)
    t.

(** Chapters that tile the range from [from] to [to]: each starts where
    the one before ended and does not end before it starts. *)
Fixpoint tiles (from : Z) (chapters : list chapter_entry) (to : Z) : Prop :=
  match chapters with
  | [] => from = to
  | c :: rest =>
    start_ms c = from /\ (from <= end_ms c)%Z /\ tiles (end_ms c) rest to
  end.

(** A file whose duration the probe could read. *)
Definition probed (f : mp3_file) : bool := negb (Qleb (file_duration f) 0).

(** The milliseconds of audio in the probed files: the whole
    milliseconds [int(duration * 1000)] of each, added up. *)
Definition probed_ms (mp3_files : list mp3_file) : Z :=
  fold_right Z.add 0%Z
    (map (fun f => Qfloor (fmul (file_duration f) 1000))
       (filter (fun f => probed f = true) mp3_files)).

(** ** Pipeline *)

(** A chapter candidate carries a number, and not zero. *)
Definition numbered (c : candidate) : Prop :=
  c_kind c = chapter -> exists k, c_n c = Some k /\ k <> 0%N.

(** The label of a preface, of a back matter, or of a chapter with a
    positive number in decimal. *)
Definition proper_label (l : string) : Prop :=
  l = "preface" \/ l = "back_matter" \/
  exists k, (1 <= k)%N /\ l = "chapter_" +:+ str k.

(** A chapter is over before another one starts, in milliseconds. *)
Definition entry_before (c1 c2 : chapter_entry) : Prop :=
  (end_ms c1 <= start_ms c2)%Z.

(** * Properties *)

(** ** The ordinal generator *)

(** One level of the recursion, unfolded. *)
Lemma english_ordinal_basic_S (fuel : nat) (n : N) :
  english_ordinal_basic (S fuel) n =
  match en_base !! n with
  | Some s => Ok (Some s)
  | None =>
    if (n <? 100)%N then
      tail ← english_ordinal_basic fuel (n mod 10)%N;
      if has_key en_base ((n / 10) * 10)%N && truthy tail
      then Ok (Some (english_cardinal ((n / 10) * 10)%N +:+ " " +:+ or_else tail ""))
      else english_ordinal_hundreds (english_ordinal_basic fuel) n
    else english_ordinal_hundreds (english_ordinal_basic fuel) n
  end.
Proof. reflexivity. Qed.

(** The only exception of the ordinal generator is the stack overflow. *)
Lemma english_ordinal_basic_raise (fuel : nat) :
  forall n e, english_ordinal_basic fuel n = Raise e -> e = RecursionError.
Proof.
  induction fuel as [|fuel IH]; intros n e.
  - simpl. congruence.
  - rewrite english_ordinal_basic_S.
    assert (Hh : english_ordinal_hundreds (english_ordinal_basic fuel) n = Raise e
                 -> e = RecursionError).
    { unfold english_ordinal_hundreds.
      destruct (n <? 1000)%N; [|congruence].
      destruct (_ && _); [congruence|].
      destruct (negb _); [|congruence].
      destruct (english_ordinal_basic fuel (n mod 100)%N) eqn:E; [discriminate|].
      intros [= <-]. eauto. }
    destruct (en_base !! n); [congruence|].
    destruct (n <? 100)%N; [|exact Hh].
    destruct (english_ordinal_basic fuel (n mod 10)%N) eqn:E.
    + change (mbind ?f (Ok ?x)) with (f x). cbv beta. destruct (_ && _); [congruence | exact Hh].
    + intros [= <-]. eauto.
Qed.

Lemma en_base_0 : en_base !! 0%N = None.
Proof. vm_compute. reflexivity. Qed.

Lemma py_bind_raise {A B} (f : A -> py B) e : (Raise e ≫= f) = Raise e.
Proof. reflexivity. Qed.

Lemma py_bind_ok {A B} (f : A -> py B) x : (Ok x ≫= f) = f x.
Proof. reflexivity. Qed.

(** Zero is in no branch that returns: the call on [n % 10 = 0] is on zero
    again. *)
Lemma english_ordinal_basic_0 (fuel : nat) :
  english_ordinal_basic fuel 0 = Raise RecursionError.
Proof.
  induction fuel as [|fuel IH]; [reflexivity|].
  rewrite english_ordinal_basic_S, en_base_0.
  change (0 <? 100)%N with true. cbv iota.
  change (0 mod 10)%N with 0%N. rewrite IH. reflexivity.
Qed.

(** At a round hundred above 100 the table has no entry, and the code goes
    on to the ordinal of the remainder, zero. *)
Lemma english_ordinal_hundreds_round (rec : N -> py (option string)) (n : N) :
  n ∈ round_hundreds ->
  en_base !! n = None /\
  (n <? 100)%N = false /\
  english_ordinal_hundreds rec n =
  (tail ← rec 0%N; Ok (Some (english_cardinal n +:+ " " +:+ or_else tail (english_cardinal 0)))).
Proof.
  intros Hn. unfold round_hundreds in Hn.
  repeat (apply elem_of_cons in Hn as [-> | Hn]);
    try (split; [vm_compute; reflexivity | split; reflexivity]).
  inversion Hn.
Qed.

(** So the ordinal of 200, 300, ..., 900 is never returned. *)
Lemma english_ordinal_basic_round_hundreds (fuel : nat) (n : N) :
  n ∈ round_hundreds -> english_ordinal_basic fuel n = Raise RecursionError.
Proof.
  intros Hn. destruct fuel as [|fuel]; [reflexivity|].
  destruct (english_ordinal_hundreds_round (english_ordinal_basic fuel) n Hn)
    as (Hb & Hlt & Hh).
  rewrite english_ordinal_basic_S, Hb, Hlt, Hh, english_ordinal_basic_0.
  reflexivity.
Qed.

(** More stack never changes an answer. *)
Lemma english_ordinal_hundreds_mono (rec rec' : N -> py (option string)) n r :
  (forall k t, rec k = Ok t -> rec' k = Ok t) ->
  english_ordinal_hundreds rec n = Ok r ->
  english_ordinal_hundreds rec' n = Ok r.
Proof.
  intros Hrec. unfold english_ordinal_hundreds.
  destruct (n <? 1000)%N; [|done].
  destruct (_ && _); [done|].
  destruct (negb _); [|done].
  destruct (rec (n mod 100)%N) as [t|] eqn:E; [|discriminate].
  rewrite (Hrec _ _ E). done.
Qed.

(** One more level of stack leaves a returned answer as it is. *)
Lemma english_ordinal_basic_mono (fuel : nat) :
  forall n r, english_ordinal_basic fuel n = Ok r ->
              english_ordinal_basic (S fuel) n = Ok r.
Proof.
  induction fuel as [|fuel IH]; intros n r; [discriminate|].
  rewrite (english_ordinal_basic_S (S fuel)), (english_ordinal_basic_S fuel).
  destruct (en_base !! n); [done|].
  destruct (n <? 100)%N.
  - destruct (english_ordinal_basic fuel (n mod 10)%N) as [t|] eqn:E; [|discriminate].
    rewrite (IH _ _ E), !py_bind_ok.
    destruct (_ && _); [done|]. apply english_ordinal_hundreds_mono, IH.
  - apply english_ordinal_hundreds_mono, IH.
Qed.

Lemma english_ordinal_basic_fuel_le (fuel fuel' : nat) n r :
  (fuel <= fuel')%nat ->
  english_ordinal_basic fuel n = Ok r -> english_ordinal_basic fuel' n = Ok r.
Proof.
  induction 1 as [|fuel' _ IH]; [done|].
  intros H. apply english_ordinal_basic_mono, IH, H.
Qed.

(** [range(1, max_chapters + 1)] holds the numbers from 1 to [max_chapters]. *)
Lemma chapter_range_elem (max_chapters : Z) (n : N) :
  n ∈ chapter_range max_chapters <-> (1 <= n)%N /\ (Z.of_N n <= max_chapters)%Z.
Proof.
  unfold chapter_range. rewrite list_elem_of_fmap. split.
  - intros (k & -> & Hk). apply elem_of_seq in Hk. lia.
  - intros [H1 H2]. exists (N.to_nat n). split; [lia|].
    apply elem_of_seq. lia.
Qed.

(** Depth three is enough wherever the generator returns at all. *)
Lemma english_ordinal_basic_below_200 (n : N) :
  (1 <= n < 200)%N -> is_ok (english_ordinal_basic 3 n) = true.
Proof.
  intros Hn.
  assert (H : forallb (fun k => is_ok (english_ordinal_basic 3 k))
                (chapter_range 199) = true) by (vm_compute; reflexivity).
  rewrite forallb_forall in H. apply H.
  apply list_elem_of_In, chapter_range_elem. lia.
Qed.

(** A loop whose body raises at one of its items, whatever the state, and
    raises nothing else, raises that exception. *)
Lemma for_each_raises {S A : Type} (body : S -> A -> py S) (x : A) (e : exn)
    (l : list A) :
  (forall s, body s x = Raise e) ->
  (forall s y e', body s y = Raise e' -> e' = e) ->
  x ∈ l -> forall s, for_each body l s = Raise e.
Proof.
  intros Hx Honly. induction l as [|y l IH]; intros Hin s.
  - inversion Hin.
  - simpl. destruct (body s y) as [s'|e'] eqn:E.
    + rewrite py_bind_ok. apply elem_of_cons in Hin as [->|Hin].
      * rewrite Hx in E. discriminate.
      * apply IH, Hin.
    + rewrite py_bind_raise. f_equal. eauto.
Qed.

(** The loop body raises only what the ordinal generator raises. *)
Lemma phrase_step_raise cardinal fuel trigger include_ordinals g n e :
  phrase_step cardinal (english_ordinal_basic fuel) trigger include_ordinals g n
    = Raise e ->
  e = RecursionError.
Proof.
  unfold phrase_step. destruct include_ordinals; [|discriminate].
  destruct (english_ordinal_basic fuel n) as [o|e'] eqn:E.
  - rewrite py_bind_ok. destruct (truthy o); discriminate.
  - rewrite py_bind_raise. intros [= <-].
    eapply english_ordinal_basic_raise, E.
Qed.

(** With ordinals requested, an English grammar for 200 chapters or more
    is never built. *)
Lemma build_phrase_map_en_overflows (fuel : nat) (trigger : string)
    (max_chapters : Z) :
  (200 <= max_chapters)%Z ->
  build_phrase_map fuel "en" trigger max_chapters true = Raise RecursionError.
Proof.
  intros Hmax. unfold build_phrase_map.
  change (String.eqb "en" "ru") with false. cbv iota.
  rewrite (for_each_raises _ 200%N RecursionError); [reflexivity | | |].
  - intros s. unfold phrase_step.
    rewrite english_ordinal_basic_round_hundreds; [reflexivity|].
    unfold round_hundreds. apply list_elem_of_here.
  - intros s y e. apply phrase_step_raise.
  - apply chapter_range_elem. lia.
Qed.

(** C3 (fails on the code): asked for the ordinal of 200, a number inside
    [1, max_number] as soon as [max_number >= 200], the ordinal generator
    does not return a string or none: whatever the depth allowed, it
    recurses on zero until the stack is exhausted, and building the
    English grammar for 200 chapters with ordinals raises that error. *)
Theorem english_ordinal_basic_200_overflows :
  (forall fuel, english_ordinal_basic fuel 200 = Raise RecursionError) /\
  (forall fuel,
     build_phrase_map fuel "en" "chapter" 200 true = Raise RecursionError).
Proof.
  split; intros fuel.
  - apply english_ordinal_basic_round_hundreds.
    unfold round_hundreds. apply list_elem_of_here.
  - apply build_phrase_map_en_overflows. lia.
Qed.

(** ** Cardinals round-trip through [spoken_to_int] *)

Lemma below_1000_elem (n : N) : (n < 1000)%N -> In n below_1000.
Proof.
  intros H. unfold below_1000. apply in_map_iff. exists (N.to_nat n).
  split; [lia|]. apply in_seq. lia.
Qed.

Lemma to_uint_nonnil (n : N) : N.to_uint n <> Decimal.Nil.
Proof.
  destruct n as [|p]; [discriminate|]. apply DecimalPos.Unsigned.to_uint_nonnil.
Qed.

(** Decimal numerals of different numbers differ. *)
Lemma str_inj (n m : N) : str n = str m -> n = m.
Proof.
  unfold str. intros H. apply DecimalN.Unsigned.to_uint_inj.
  assert (Hn := NilZero.usu _ (to_uint_nonnil n)).
  assert (Hm := NilZero.usu _ (to_uint_nonnil m)).
  rewrite H in Hn. congruence.
Qed.

(** A decimal numeral starts with a digit. *)
Lemma str_starts_with_digit (n : N) : starts_with_digit (str n) = true.
Proof.
  unfold str. pose proof (to_uint_nonnil n) as H.
  destruct (N.to_uint n); [done | reflexivity..].
Qed.

Lemma or_else_truthy (s d : string) :
  truthy (Some s) = true -> or_else (Some s) d = s.
Proof. simpl. by destruct (String.eqb s ""). Qed.

(** What the generators of one language must satisfy for the reverse
    mapping to be exact, and the loop invariant that follows. *)
Section Roundtrip.
Variable cardinal : N -> string.
Variable ordinal : N -> py (option string).
Variable trigger : string.
Variable include_ordinals : bool.

Hypothesis cardinal_inj : forall n m, cardinal n = cardinal m -> n = m.
Hypothesis ordinal_fresh :
  forall m s n, ordinal m = Ok (Some s) -> s <> cardinal n.

Let step := phrase_step cardinal ordinal trigger include_ordinals.

(** An iteration leaves a cardinal that is mapped to its number as it is:
    it writes under the cardinal or the ordinal of [n] only. *)
Lemma phrase_step_keeps (g g' : grammar) (n k : N) :
  step g n = Ok g' ->
  g.2 !! cardinal k = Some k -> g'.2 !! cardinal k = Some k.
Proof using cardinal_inj ordinal_fresh.
  unfold step, phrase_step. intros Hstep Hk.
  assert (Hc : <[cardinal n := n]> g.2 !! cardinal k = Some k).
  { destruct (decide (cardinal n = cardinal k)) as [E|E].
    - rewrite E, lookup_insert_eq. f_equal. apply cardinal_inj, E.
    - rewrite lookup_insert_ne; done. }
  destruct include_ordinals; [|by injection Hstep as <-].
  destruct (ordinal n) as [[s|]|] eqn:E; [| |discriminate];
    rewrite py_bind_ok in Hstep.
  - destruct (truthy (Some s)) eqn:Et; injection Hstep as <-; [|done].
    pose proof (or_else_truthy s "" Et) as Ho. cbn [or_else] in Ho.
    rewrite Ho. cbn [snd].
    rewrite lookup_insert_ne; [done|]. eapply ordinal_fresh, E.
  - by injection Hstep as <-.
Qed.

(** An iteration maps the cardinal of its [n] to [n]; the ordinal written
    after it is a different key. *)
Lemma phrase_step_sets (g g' : grammar) (n : N) :
  step g n = Ok g' -> g'.2 !! cardinal n = Some n.
Proof using cardinal_inj ordinal_fresh.
  intros Hstep.
  assert (Hstep' : phrase_step cardinal ordinal trigger include_ordinals
                     (g.1, <[cardinal n := n]> g.2) n = Ok g').
  { revert Hstep. unfold step, phrase_step. cbn [fst snd].
    by rewrite insert_insert_eq. }
  eapply phrase_step_keeps; [exact Hstep'|]. apply lookup_insert_eq.
Qed.

(** Hence after the loop every cardinal of the range is mapped to its
    number. *)
Lemma for_each_roundtrip (l : list N) :
  forall g g' k,
    for_each step l g = Ok g' ->
    k ∈ l \/ g.2 !! cardinal k = Some k ->
    g'.2 !! cardinal k = Some k.
Proof using cardinal_inj ordinal_fresh.
  induction l as [|n l IH]; intros g g' k Hrun Hk.
  - injection Hrun as <-. destruct Hk as [Hk|Hk]; [inversion Hk | done].
  - simpl in Hrun. destruct (step g n) as [g1|] eqn:E; [|discriminate].
    rewrite py_bind_ok in Hrun. apply (IH g1 g' k Hrun).
    destruct Hk as [Hk|Hk].
    + apply elem_of_cons in Hk as [->|Hk]; [right | by left].
      eapply phrase_step_sets, E.
    + right. eapply phrase_step_keeps; eauto.
Qed.
End Roundtrip.

Lemma cardinal_table_elem (cardinal : N -> string) (n : N) :
  (n < 1000)%N -> In (n, cardinal n) (cardinal_table cardinal).
Proof.
  intros H. unfold cardinal_table. apply in_map_iff. exists n.
  split; [done|]. by apply below_1000_elem.
Qed.

Lemma table_distinct_spec (t : list (N * string)) (x y : N * string) :
  table_distinct t = true -> In x t -> In y t -> x.2 = y.2 -> x.1 = y.1.
Proof.
  unfold table_distinct. rewrite forallb_forall. intros H Hx Hy E.
  specialize (H x Hx). rewrite forallb_forall in H. specialize (H y Hy).
  rewrite E, String.eqb_refl in H. by apply N.eqb_eq.
Qed.

Lemma table_wordy_spec (t : list (N * string)) (x : N * string) :
  table_wordy t = true -> In x t -> starts_with_digit x.2 = false.
Proof.
  unfold table_wordy. rewrite forallb_forall. intros H Hx.
  by apply negb_true_iff, H.
Qed.

Section Tabulated.
Variable cardinal : N -> string.
Hypothesis table_ok : table_distinct (cardinal_table cardinal) = true.
Hypothesis table_words : table_wordy (cardinal_table cardinal) = true.
Hypothesis decimal_above : forall n, (1000 <= n)%N -> cardinal n = str n.

Lemma tabulated_wordy (n : N) :
  (n < 1000)%N -> starts_with_digit (cardinal n) = false.
Proof using table_words.
  intros Hn.
  apply (table_wordy_spec _ (n, cardinal n) table_words).
  by apply cardinal_table_elem.
Qed.

(** Such a generator is injective. *)
Lemma tabulated_inj (n m : N) : cardinal n = cardinal m -> n = m.
Proof using table_ok table_words decimal_above.
  intros E.
  destruct (N.ltb_spec n 1000) as [Hn|Hn], (N.ltb_spec m 1000) as [Hm|Hm].
  - apply (table_distinct_spec _ (n, cardinal n) (m, cardinal m) table_ok);
      auto using cardinal_table_elem.
  - pose proof (tabulated_wordy n Hn) as Hw.
    rewrite E, (decimal_above m Hm), str_starts_with_digit in Hw. discriminate.
  - pose proof (tabulated_wordy m Hm) as Hw.
    rewrite <- E, (decimal_above n Hn), str_starts_with_digit in Hw. discriminate.
  - rewrite (decimal_above n Hn), (decimal_above m Hm) in E. by apply str_inj.
Qed.

(** A word that is not in the table and starts with no digit is no
    cardinal. *)
Lemma fresh_in_not_cardinal (s : string) (n : N) :
  fresh_in (cardinal_table cardinal) s = true -> s <> cardinal n.
Proof using decimal_above.
  unfold fresh_in. intros [Hw Ht]%andb_true_iff ->.
  destruct (N.ltb_spec n 1000) as [Hn|Hn].
  - rewrite forallb_forall in Ht.
    specialize (Ht _ (cardinal_table_elem cardinal n Hn)).
    cbn [snd] in Ht. by rewrite String.eqb_refl in Ht.
  - by rewrite (decimal_above n Hn), str_starts_with_digit in Hw.
Qed.
End Tabulated.

Lemma english_cardinal_above (n : N) : (1000 <= n)%N -> english_cardinal n = str n.
Proof.
  intros H. unfold english_cardinal.
  destruct (N.ltb_spec n 100); [lia|]. destruct (N.ltb_spec n 1000); [lia|]. done.
Qed.

Lemma russian_cardinal_above (n : N) : (1000 <= n)%N -> russian_cardinal n = str n.
Proof.
  intros H. unfold russian_cardinal.
  destruct (N.ltb_spec n 100); [lia|]. destruct (N.ltb_spec n 1000); [lia|]. done.
Qed.

Lemma english_table_distinct : table_distinct (cardinal_table english_cardinal) = true.
Proof. vm_compute. reflexivity. Qed.

Lemma english_table_wordy : table_wordy (cardinal_table english_cardinal) = true.
Proof. vm_compute. reflexivity. Qed.

Lemma russian_table_distinct : table_distinct (cardinal_table russian_cardinal) = true.
Proof. vm_compute. reflexivity. Qed.

Lemma russian_table_wordy : table_wordy (cardinal_table russian_cardinal) = true.
Proof. vm_compute. reflexivity. Qed.

(** Both cardinal generators are injective, on all of [N]. *)
Lemma english_cardinal_inj (n m : N) :
  english_cardinal n = english_cardinal m -> n = m.
Proof.
  exact (tabulated_inj english_cardinal english_table_distinct
           english_table_wordy english_cardinal_above n m).
Qed.

Lemma russian_cardinal_inj (n m : N) :
  russian_cardinal n = russian_cardinal m -> n = m.
Proof.
  exact (tabulated_inj russian_cardinal russian_table_distinct
           russian_table_wordy russian_cardinal_above n m).
Qed.

(** English ordinals: every answer is already given at depth three, and
    none of them is a cardinal. *)
Lemma english_ordinals_classified :
  forallb (ordinal_classified (cardinal_table english_cardinal)) below_1000
  = true.
Proof. vm_compute. reflexivity. Qed.

Lemma en_base_above (m : N) : (100 < m)%N -> en_base !! m = None.
Proof.
  intros Hm. unfold en_base. apply not_elem_of_list_to_map_1.
  cbn [fmap list_fmap fst]. intros H.
  repeat (apply elem_of_cons in H as [->|H]; [lia|]). inversion H.
Qed.

(** From 1000 on there is no ordinal. *)
Lemma english_ordinal_basic_above (fuel : nat) (m : N) (r : option string) :
  (1000 <= m)%N -> english_ordinal_basic fuel m = Ok r -> r = None.
Proof.
  intros Hm. destruct fuel as [|fuel]; [discriminate|].
  rewrite english_ordinal_basic_S, en_base_above by lia.
  unfold english_ordinal_hundreds.
  destruct (N.ltb_spec m 100); [lia|]. destruct (N.ltb_spec m 1000); [lia|].
  congruence.
Qed.

(** An answer given with any stack is given with a stack of depth three. *)
Lemma english_ordinal_basic_depth3 (fuel : nat) (m : N) (r : option string) :
  (m < 1000)%N ->
  english_ordinal_basic fuel m = Ok r -> english_ordinal_basic 3 m = Ok r.
Proof.
  intros Hm Hr.
  destruct (Nat.le_gt_cases fuel 3) as [Hf|Hf].
  { eapply english_ordinal_basic_fuel_le; eauto. }
  pose proof english_ordinals_classified as Hc.
  rewrite forallb_forall in Hc. specialize (Hc m (below_1000_elem m Hm)).
  unfold ordinal_classified in Hc.
  destruct (english_ordinal_basic 3 m) as [r3|e] eqn:E3.
  - rewrite (english_ordinal_basic_fuel_le 3 fuel m r3) in Hr by (lia || done).
    done.
  - apply bool_decide_eq_true in Hc. apply elem_of_cons in Hc as [->|Hc].
    + by rewrite english_ordinal_basic_0 in Hr.
    + by rewrite english_ordinal_basic_round_hundreds in Hr.
Qed.

(** No English ordinal is an English cardinal. *)
Lemma english_ordinal_fresh (fuel : nat) (m : N) (s : string) (n : N) :
  english_ordinal_basic fuel m = Ok (Some s) -> s <> english_cardinal n.
Proof.
  intros Hs.
  destruct (N.ltb_spec m 1000) as [Hm|Hm].
  - apply english_ordinal_basic_depth3 in Hs; [|done].
    pose proof english_ordinals_classified as Hc.
    rewrite forallb_forall in Hc. specialize (Hc m (below_1000_elem m Hm)).
    unfold ordinal_classified in Hc. rewrite Hs in Hc.
    by apply fresh_in_not_cardinal; [apply english_cardinal_above|].
  - by apply english_ordinal_basic_above in Hs.
Qed.

Lemma ru_base_above (m : N) : (10 < m)%N -> ru_base !! m = None.
Proof.
  intros Hm. unfold ru_base. apply not_elem_of_list_to_map_1.
  cbn [fmap list_fmap fst]. intros H.
  repeat (apply elem_of_cons in H as [->|H]; [lia|]). inversion H.
Qed.

Lemma russian_ordinals_fresh_below :
  ordinals_fresh russian_ordinal_basic (cardinal_table russian_cardinal)
  = true.
Proof. vm_compute. reflexivity. Qed.

(** No Russian ordinal is a Russian cardinal. *)
Lemma russian_ordinal_fresh (m : N) (s : string) (n : N) :
  russian_ordinal_basic m = Some s -> s <> russian_cardinal n.
Proof.
  intros Hs.
  destruct (N.ltb_spec m 1000) as [Hm|Hm].
  - pose proof russian_ordinals_fresh_below as Hc.
    unfold ordinals_fresh in Hc.
    rewrite forallb_forall in Hc. specialize (Hc m (below_1000_elem m Hm)).
    cbv beta in Hc. rewrite Hs in Hc.
    by apply fresh_in_not_cardinal; [apply russian_cardinal_above|].
  - unfold russian_ordinal_basic in Hs. rewrite ru_base_above in Hs by lia.
    discriminate.
Qed.

(** Whenever the grammar is built, its reverse mapping sends the cardinal
    of every [n] in [1, max_chapters] back to [n]. *)
Lemma build_phrase_map_roundtrip (fuel : nat) (language trigger : string)
    (max_chapters : Z) (include_ordinals : bool) (g : grammar) (n : N) :
  build_phrase_map fuel language trigger max_chapters include_ordinals = Ok g ->
  (1 <= n)%N -> (Z.of_N n <= max_chapters)%Z ->
  g.2 !! cardinal_of language n = Some n.
Proof.
  unfold build_phrase_map, cardinal_of. intros Hb H1 H2.
  assert (Hn : n ∈ chapter_range max_chapters) by by apply chapter_range_elem.
  destruct (String.eqb language "ru").
  - destruct (for_each _ _ _) as [g0|] eqn:E; [|discriminate].
    rewrite py_bind_ok in Hb. injection Hb as <-. cbn [snd].
    eapply (for_each_roundtrip russian_cardinal); [| |exact E|by left].
    + apply russian_cardinal_inj.
    + intros m s k [= Hs]. by apply (russian_ordinal_fresh m).
  - destruct (for_each _ _ _) as [g0|] eqn:E; [|discriminate].
    rewrite py_bind_ok in Hb. injection Hb as <-. cbn [snd].
    eapply (for_each_roundtrip english_cardinal); [| |exact E|by left].
    + apply english_cardinal_inj.
    + intros m s k. apply english_ordinal_fresh.
Qed.

(** A loop whose body returns on every item returns. *)
Lemma for_each_returns {S A : Type} (body : S -> A -> py S) (l : list A) :
  (forall s x, x ∈ l -> exists s', body s x = Ok s') ->
  forall s, exists s', for_each body l s = Ok s'.
Proof.
  induction l as [|x l IH]; intros Hbody s; [by eexists|].
  simpl. destruct (Hbody s x) as [s1 ->]; [apply list_elem_of_here|].
  rewrite py_bind_ok. apply IH. intros s2 y Hy. apply Hbody. by right.
Qed.

(** Where the grammar is built: always in Russian, always without
    ordinals, and with English ordinals below 200 chapters. *)
Lemma build_phrase_map_returns (fuel : nat) (language trigger : string)
    (max_chapters : Z) (include_ordinals : bool) :
  (3 <= fuel)%nat ->
  language = "ru" \/ include_ordinals = false \/ (max_chapters < 200)%Z ->
  exists g,
    build_phrase_map fuel language trigger max_chapters include_ordinals = Ok g.
Proof.
  intros Hfuel Hcase. unfold build_phrase_map.
  assert (Hru : exists g,
    for_each (phrase_step russian_cardinal (fun n => Ok (russian_ordinal_basic n))
                trigger include_ordinals) (chapter_range max_chapters) ([], ∅)
    = Ok g).
  { apply for_each_returns. intros s x _. unfold phrase_step.
    destruct include_ordinals; [|by eexists].
    rewrite py_bind_ok. destruct (truthy _); by eexists. }
  destruct (String.eqb_spec language "ru") as [->|Hne].
  { destruct Hru as [g ->]. by eexists. }
  assert (Hen : exists g,
    for_each (phrase_step english_cardinal (english_ordinal_basic fuel)
                trigger include_ordinals) (chapter_range max_chapters) ([], ∅)
    = Ok g).
  { apply for_each_returns. intros s x Hx. unfold phrase_step.
    destruct include_ordinals; [|by eexists].
    destruct Hcase as [?|[?|Hmax]]; [done..|].
    apply chapter_range_elem in Hx.
    pose proof (english_ordinal_basic_below_200 x) as Hok.
    destruct (english_ordinal_basic 3 x) as [r|] eqn:E; [|by discriminate Hok; lia].
    rewrite (english_ordinal_basic_fuel_le 3 fuel x r Hfuel E), py_bind_ok.
    destruct (truthy _); by eexists. }
  destruct Hen as [g ->]. by eexists.
Qed.

(** C9 (fails on the code): for English with ordinals and 200 chapters no
    reverse mapping exists to look the cardinals up in: the build raises
    on the ordinal of 200, whatever the depth of stack allowed, so
    [spoken_to_int[cardinal(n)]] is never [n]. *)
Theorem reverse_lookup_en_200_overflows :
  forall fuel n,
    reverse_lookup fuel "en" "chapter" 200 true n = Raise RecursionError.
Proof.
  intros fuel n. unfold reverse_lookup.
  by rewrite build_phrase_map_en_overflows.
Qed.

(** ** Comparisons *)

(** The boolean comparisons of the code against the order of [Q]. *)
Lemma Qleb_le (a b : Q) : Qleb a b = true <-> a <= b.
Proof. apply Qle_bool_iff. Qed.

Lemma Qleb_gt (a b : Q) : Qleb a b = false <-> b < a.
Proof.
  unfold Qleb. rewrite <- not_true_iff_false, Qle_bool_iff. split.
  - apply Qnot_le_lt.
  - apply Qlt_not_le.
Qed.

Lemma Qltb_lt (a b : Q) : Qltb a b = true <-> a < b.
Proof. unfold Qltb. rewrite negb_true_iff. apply Qleb_gt. Qed.

Lemma Qltb_ge (a b : Q) : Qltb a b = false <-> b <= a.
Proof. unfold Qltb. rewrite negb_false_iff. apply Qleb_le. Qed.

(** Case analysis on a comparison, leaving the order fact in the context. *)
Ltac case_Q :=
  match goal with
  | |- context [Qleb ?a ?b] =>
    let H := fresh "Hcmp" in
    destruct (Qleb a b) eqn:H;
    [apply Qleb_le in H | apply Qleb_gt in H]
  | |- context [Qltb ?a ?b] =>
    let H := fresh "Hcmp" in
    destruct (Qltb a b) eqn:H;
    [apply Qltb_lt in H | apply Qltb_ge in H]
  end.

(** Rounding to the nearest integer keeps the order. *)
Lemma py_round_mono (x y : Q) : x <= y -> (py_round x <= py_round y)%Z.
Proof.
  intros Hxy. unfold py_round.
  pose proof (Qfloor_resp_le x y Hxy) as Hf.
  pose proof (Qfloor_le x) as Hx1. pose proof (Qlt_floor x) as Hx2.
  pose proof (Qfloor_le y) as Hy1. pose proof (Qlt_floor y) as Hy2.
  rewrite inject_Z_plus in Hx2, Hy2. change (inject_Z 1) with 1 in Hx2, Hy2.
  destruct (Z.eq_dec (Qfloor x) (Qfloor y)) as [E|E].
  - rewrite <- E in *. repeat case_Q; try lia; try lra.
    all: destruct (Z.even (Qfloor x)); lia.
  - assert (Hlt : (Qfloor x + 1 <= Qfloor y)%Z) by lia.
    repeat case_Q; try lia.
    all: repeat match goal with
         | |- context [Z.even ?z] => destruct (Z.even z)
         end; lia.
Qed.

(** ** Float arithmetic *)

Lemma pow2_pos (e : Z) : 0 < 2 ^ e.
Proof. apply Qpower_0_lt. lra. Qed.

Lemma pow2_add (a b : Z) : 2 ^ (a + b) == 2 ^ a * 2 ^ b.
Proof. apply Qpower_plus. lra. Qed.

Lemma pow2_succ (a : Z) : 2 ^ (a + 1) == 2 * 2 ^ a.
Proof. rewrite pow2_add. change (2 ^ 1) with 2. lra. Qed.

Lemma pow2_pred (a : Z) : 2 * 2 ^ (a - 1) == 2 ^ a.
Proof.
  rewrite <- pow2_succ. replace (a - 1 + 1)%Z with a by lia. reflexivity.
Qed.

Lemma pow2_le (a b : Z) : (a <= b)%Z -> 2 ^ a <= 2 ^ b.
Proof. intros H. apply Qpower_le_compat_l; [done | lra]. Qed.

Lemma pow2_lt_inv (a b : Z) : 2 ^ a < 2 ^ b -> (a < b)%Z.
Proof. intros H. apply (Qpower_lt_compat_l_inv 2); [done | lra]. Qed.

Lemma pow2_Z (k : Z) : (0 <= k)%Z -> inject_Z (2 ^ k) == 2 ^ k.
Proof. intros H. by rewrite Zpower_Qpower. Qed.

(** The integer logarithms of numerator and denominator bracket the
    exponent within one. *)
Lemma binade_spec (x : Q) :
  0 < x -> 2 ^ binade x <= x /\ x < 2 ^ (binade x + 1).
Proof.
  intros Hx. unfold binade.
  destruct x as [n d]. cbn [Qnum Qden].
  assert (Hn : (0 < n)%Z) by (unfold Qlt in Hx; cbn in Hx; lia).
  set (ln := Z.log2 n). set (ld := Z.log2 (Z.pos d)).
  pose proof (Z.log2_spec n Hn) as [Hn1 Hn2]. fold ln in Hn1, Hn2.
  pose proof (Z.log2_spec (Z.pos d) ltac:(lia)) as [Hd1 Hd2].
  fold ld in Hd1, Hd2.
  pose proof (Z.log2_nonneg n) as Hln. fold ln in Hln.
  pose proof (Z.log2_nonneg (Z.pos d)) as Hld. fold ld in Hld.
  assert (Ex : n # d == inject_Z n / inject_Z (Z.pos d)) by apply Qmake_Qdiv.
  assert (Hdpos : 0 < inject_Z (Z.pos d)).
  { change 0 with (inject_Z 0). rewrite <- Zlt_Qlt. lia. }
  assert (En : (n # d) * inject_Z (Z.pos d) == inject_Z n).
  { rewrite Ex. field. lra. }
  assert (Qn1 : 2 ^ ln <= inject_Z n).
  { rewrite <- pow2_Z by done. by rewrite <- Zle_Qle. }
  assert (Qn2 : inject_Z n < 2 * 2 ^ ln).
  { rewrite <- pow2_succ, <- pow2_Z by lia. rewrite <- Zlt_Qlt.
    by rewrite <- Z.add_1_r in Hn2. }
  assert (Qd1 : 2 ^ ld <= inject_Z (Z.pos d)).
  { rewrite <- pow2_Z by done. by rewrite <- Zle_Qle. }
  assert (Qd2 : inject_Z (Z.pos d) < 2 * 2 ^ ld).
  { rewrite <- pow2_succ, <- pow2_Z by lia. rewrite <- Zlt_Qlt.
    by rewrite <- Z.add_1_r in Hd2. }
  assert (Ee : 2 ^ (ln - ld) * 2 ^ ld == 2 ^ ln).
  { rewrite <- pow2_add. by replace (ln - ld + ld)%Z with ln by lia. }
  pose proof (pow2_pos ln) as Pln. pose proof (pow2_pos ld) as Pld.
  pose proof (pow2_pos (ln - ld)) as Pe.
  set (X := n # d) in *. set (D := inject_Z (Z.pos d)) in *.
  set (N := inject_Z n) in *.
  set (A := 2 ^ ln) in *. set (B := 2 ^ ld) in *. set (E := 2 ^ (ln - ld)) in *.
  case_Q.
  - replace (ln - ld - 1 + 1)%Z with (ln - ld)%Z by lia. fold E.
    split; [|done].
    pose proof (pow2_pred (ln - ld)) as Hp. fold E in Hp.
    set (E' := 2 ^ (ln - ld - 1)) in *.
    (* E' * D < E' * 2B = E * B = A <= N = X * D *)
    apply Qnot_lt_le. intros Hlt.
    assert (X * D < E' * D) by (apply Qmult_lt_compat_r; done).
    assert (E' * D < E' * (2 * B)).
    { apply Qmult_lt_l; [|done]. unfold E'. apply pow2_pos. }
    assert (2 * E' * B == E * B) by (by rewrite Hp).
    lra.
  - split; [done|]. rewrite pow2_succ. fold E.
    apply Qnot_le_lt. intros Hle.
    assert (2 * E * D <= X * D) by (apply Qmult_le_compat_r; lra).
    assert (2 * E * B <= 2 * E * D).
    { apply Qmult_le_l; [lra | done]. }
    lra.
Qed.

Lemma binade_unique (x : Q) (e : Z) :
  2 ^ e <= x -> x < 2 ^ (e + 1) -> binade x = e.
Proof.
  intros H1 H2.
  assert (Hx : 0 < x) by (pose proof (pow2_pos e); lra).
  destruct (binade_spec x Hx) as [B1 B2].
  assert (binade x < e + 1)%Z by (apply pow2_lt_inv; lra).
  assert (e < binade x + 1)%Z by (apply pow2_lt_inv; lra).
  lia.
Qed.

Lemma binade_mono (x y : Q) : 0 < x -> x <= y -> (binade x <= binade y)%Z.
Proof.
  intros Hx Hxy.
  destruct (binade_spec x Hx) as [X1 X2].
  destruct (binade_spec y ltac:(lra)) as [Y1 Y2].
  assert (binade x < binade y + 1)%Z by (apply pow2_lt_inv; lra).
  lia.
Qed.

Lemma py_round_Z (x : Q) (k : Z) : x == inject_Z k -> py_round x = k.
Proof.
  intros E. unfold py_round.
  assert (Hf : Qfloor x = k) by (rewrite E; apply Qfloor_Z).
  rewrite Hf. case_Q; [done | lra].
Qed.

Lemma round_at_mono (q : Z) (x y : Q) :
  x <= y -> round_at q x <= round_at q y.
Proof.
  intros Hxy. unfold round_at. pose proof (pow2_pos q) as Hq.
  apply Qmult_le_compat_r; [|lra].
  rewrite <- Zle_Qle. apply py_round_mono.
  apply Qmult_le_compat_r; [done|]. apply Qlt_le_weak, Qinv_lt_0_compat, Hq.
Qed.

(** A power of two from the quantum up is a multiple of the quantum. *)
Lemma round_at_pow2 (q e : Z) : (q <= e)%Z -> round_at q (2 ^ e) == 2 ^ e.
Proof.
  intros H. unfold round_at.
  assert (E : 2 ^ e / 2 ^ q == inject_Z (2 ^ (e - q))).
  { rewrite pow2_Z by lia. symmetry. apply Qpower_minus. lra. }
  rewrite (py_round_Z _ _ E), pow2_Z by lia.
  rewrite <- pow2_add. by replace (e - q + q)%Z with e by lia.
Qed.

Lemma round_at_0 (q : Z) : round_at q 0 == 0.
Proof.
  unfold round_at. rewrite (py_round_Z _ 0); [ring|].
  unfold Qdiv. ring.
Qed.

Lemma fl_pos_mono (x y : Q) :
  0 < x -> x <= y -> round_at (quantum x) x <= round_at (quantum y) y.
Proof.
  intros Hx Hxy. pose proof (binade_mono x y Hx Hxy) as Hb.
  destruct (binade_spec x Hx) as [X1 X2].
  destruct (binade_spec y ltac:(lra)) as [Y1 Y2].
  unfold quantum in *.
  destruct (Z.eq_dec (Z.max (binade x - 52) (-1074))
              (Z.max (binade y - 52) (-1074))) as [E|E].
  - rewrite E. by apply round_at_mono.
  - assert (Hlt : (binade x + 1 <= binade y)%Z) by lia.
    apply Qle_trans with (2 ^ binade y).
    + rewrite <- (round_at_pow2 (Z.max (binade x - 52) (-1074)) (binade y))
        by lia.
      apply round_at_mono. pose proof (pow2_le _ _ Hlt). lra.
    + rewrite <- (round_at_pow2 (Z.max (binade y - 52) (-1074)) (binade y))
        at 1 by lia.
      by apply round_at_mono.
Qed.

Lemma fl_pos_nonneg (x : Q) : 0 <= x -> 0 <= round_at (quantum x) x.
Proof.
  intros Hx. rewrite <- (round_at_0 (quantum x)). by apply round_at_mono.
Qed.

(** Rounding keeps the order. *)
Lemma fl_mono (x y : Q) : x <= y -> fl x <= fl y.
Proof.
  intros Hxy. unfold fl. repeat case_Q; try lra.
  - by apply fl_pos_mono.
  - pose proof (fl_pos_nonneg (- x) ltac:(lra)).
    pose proof (fl_pos_nonneg y ltac:(lra)). lra.
  - pose proof (fl_pos_mono (- y) (- x) ltac:(lra) ltac:(lra)). lra.
  - pose proof (fl_pos_nonneg (- x) ltac:(lra)). lra.
  - apply fl_pos_nonneg. lra.
Qed.

Lemma fl_comp (x y : Q) : x == y -> fl x == fl y.
Proof.
  intros E. apply Qle_antisym; apply fl_mono; lra.
Qed.

Lemma fl_0 : fl 0 == 0.
Proof. reflexivity. Qed.

Lemma fl_nonneg (x : Q) : 0 <= x -> 0 <= fl x.
Proof. intros H. rewrite <- fl_0. by apply fl_mono. Qed.

(** Powers of two from the subnormal spacing up are binary64 numbers. *)
Lemma fl_pow2 (e : Z) : (-1074 <= e)%Z -> fl (2 ^ e) == 2 ^ e.
Proof.
  intros He. unfold fl. pose proof (pow2_pos e) as Hp.
  apply Qltb_lt in Hp as Hp'. rewrite Hp'. unfold quantum.
  rewrite (binade_unique (2 ^ e) e); [|lra|].
  - apply round_at_pow2. lia.
  - rewrite pow2_succ. lra.
Qed.

(** The float difference grows with the minuend and falls with the
    subtrahend; the float product by a positive factor grows with the
    other. *)
Lemma fsub_mono (x x' y y' : Q) :
  x <= x' -> y' <= y -> fsub x y <= fsub x' y'.
Proof. intros Hx Hy. apply fl_mono. lra. Qed.

(** A positive float difference is the difference of a greater and a
    smaller number. *)
Lemma fsub_pos (x y : Q) : 0 < fsub x y -> y < x.
Proof.
  intros H. apply Qnot_le_lt. intros Hxy.
  pose proof (fl_mono (x - y) 0 ltac:(lra)) as Hle.
  unfold fsub in H. rewrite fl_0 in Hle. lra.
Qed.

Lemma fmul_mono (x y k : Q) : 0 <= k -> x <= y -> fmul x k <= fmul y k.
Proof. intros Hk Hxy. apply fl_mono. by apply Qmult_le_compat_r. Qed.

(** A float difference of one or more: one is a binary64 number. *)
Lemma fsub_ge_1 (x y : Q) : 1 <= x - y -> 1 <= fsub x y.
Proof.
  intros H. pose proof (fl_mono 1 (x - y) H) as Hle.
  pose proof (fl_pow2 0 ltac:(lia)) as H1.
  change (2 ^ 0) with 1 in H1. unfold fsub. lra.
Qed.

(** The initial [last_keep_t] is a binary64 number. *)
Lemma fl_1e12 : fl (10 ^ 12) == 10 ^ 12.
Proof. vm_compute. reflexivity. Qed.

(** Half of a number from one on is rounded to no more than the
    number. *)
Lemma fl_half_le (x : Q) : 1 <= x -> fmul x 0.5 <= x.
Proof.
  intros Hx. unfold fmul.
  destruct (binade_spec x ltac:(lra)) as [X1 X2].
  assert (He : (0 <= binade x)%Z).
  { assert (0 < binade x + 1)%Z; [|lia].
    apply pow2_lt_inv. change (2 ^ 0) with 1. lra. }
  rewrite pow2_succ in X2.
  apply Qle_trans with (2 ^ binade x); [|done].
  rewrite <- (fl_pow2 (binade x)) by lia. apply fl_mono. lra.
Qed.

(** ** The silence index *)

(** Both characterisations determine their answer, as a number. *)
Lemma greatest_le_unique l t r1 r2 :
  greatest_le l t r1 -> greatest_le l t r2 -> same_time r1 r2.
Proof.
  destruct r1 as [u|], r2 as [v|]; unfold greatest_le, least_ge, same_time.
  - intros (Hu & Hut & Hmu) (Hv & Hvt & Hmv).
    apply Qle_antisym; auto.
  - intros (Hu & Hut & _) Hn. specialize (Hn u Hu). lra.
  - intros Hn (Hv & Hvt & _). specialize (Hn v Hv). lra.
  - done.
Qed.

Lemma least_ge_unique l t r1 r2 :
  least_ge l t r1 -> least_ge l t r2 -> same_time r1 r2.
Proof.
  destruct r1 as [u|], r2 as [v|]; unfold greatest_le, least_ge, same_time.
  - intros (Hu & Hut & Hmu) (Hv & Hvt & Hmv).
    apply Qle_antisym; auto.
  - intros (Hu & Hut & _) Hn. specialize (Hn u Hu). lra.
  - intros Hn (Hv & Hvt & _). specialize (Hn v Hv). lra.
  - done.
Qed.

(** The linear scans compute what their names say, on any list. *)
Lemma scan_prev_end_spec (ends : list Q) (t : Q) :
  greatest_le ends t (scan_prev_end ends t).
Proof.
  unfold scan_prev_end.
  induction ends as [|e l IH] using rev_ind; [by intros ? []|].
  rewrite fold_left_app. cbn [fold_left].
  destruct (fold_left _ l None) as [b|]; unfold greatest_le, least_ge in IH |- *.
  - destruct IH as (Hb & Hbt & Hmax). repeat case_Q.
    + split; [apply in_or_app; right; by left|]. split; [done|].
      intros e' [He'| [<-|[]]]%in_app_or He't; [|lra].
      specialize (Hmax e' He' He't). lra.
    + split; [apply in_or_app; by left|]. split; [done|].
      intros e' [He'| [<-|[]]]%in_app_or He't; [auto | lra].
    + split; [apply in_or_app; by left|]. split; [done|].
      intros e' [He'| [<-|[]]]%in_app_or He't; [auto | lra].
  - case_Q.
    + split; [apply in_or_app; right; by left|]. split; [done|].
      intros e' [He'| [<-|[]]]%in_app_or He't; [|lra].
      specialize (IH e' He'). lra.
    + intros e' [He'| [<-|[]]]%in_app_or; auto.
Qed.

Lemma scan_next_start_spec (starts : list Q) (t : Q) :
  least_ge starts t (scan_next_start starts t).
Proof.
  unfold scan_next_start.
  induction starts as [|e l IH] using rev_ind; [by intros ? []|].
  rewrite fold_left_app. cbn [fold_left].
  destruct (fold_left _ l None) as [b|]; unfold greatest_le, least_ge in IH |- *.
  - destruct IH as (Hb & Hbt & Hmin). repeat case_Q.
    + split; [apply in_or_app; right; by left|]. split; [done|].
      intros e' [He'| [<-|[]]]%in_app_or He't; [|lra].
      specialize (Hmin e' He' He't). lra.
    + split; [apply in_or_app; by left|]. split; [done|].
      intros e' [He'| [<-|[]]]%in_app_or He't; [auto | lra].
    + split; [apply in_or_app; by left|]. split; [done|].
      intros e' [He'| [<-|[]]]%in_app_or He't; [auto | lra].
  - case_Q.
    + split; [apply in_or_app; right; by left|]. split; [done|].
      intros e' [He'| [<-|[]]]%in_app_or He't; [|lra].
      specialize (IH e' He'). lra.
    + intros e' [He'| [<-|[]]]%in_app_or; auto.
Qed.

(** The test [is_sorted_by] gives ascending order by positions. *)
Lemma is_sorted_ascending (a : list Q) :
  is_sorted_by (fun q => q) a = true -> ascending a.
Proof.
  unfold ascending. induction a as [|x a IH]; intros Hs i j Hij.
  { simpl in Hij. lia. }
  assert (Hs' : is_sorted_by (fun q => q) a = true).
  { simpl in Hs. destruct a; [done|]. by apply andb_true_iff in Hs as [_ ?]. }
  destruct j as [|j].
  { assert (i = 0)%nat as -> by lia. apply Qle_refl. }
  destruct i as [|i].
  - destruct a as [|y a]; [simpl in Hij; lia|].
    simpl in Hs. apply andb_true_iff in Hs as [Hxy _]. apply Qleb_le in Hxy.
    apply Qle_trans with y; [done|].
    apply (IH Hs' 0%nat j). simpl in *. lia.
  - apply (IH Hs' i j). simpl in Hij. lia.
Qed.

(** [(lo + hi) // 2] lies in [lo, hi) when [lo < hi]. *)
Lemma midpoint_bounds (lo hi : nat) :
  (lo < hi)%nat -> (lo <= (lo + hi) / 2 < hi)%nat.
Proof.
  intros H. pose proof (Nat.div_mod_eq (lo + hi) 2).
  pose proof (Nat.mod_upper_bound (lo + hi) 2). lia.
Qed.

(** On an ascending array [bisect_right] returns the insertion point
    after the items equal to [x]. *)
Lemma bisect_right_loop_spec (a : list Q) (x : Q) :
  ascending a ->
  forall rounds lo hi,
    (lo <= hi <= length a)%nat -> (hi - lo <= rounds)%nat ->
    (forall i, (i < lo)%nat -> nth i a 0 <= x) ->
    (forall i, (hi <= i < length a)%nat -> x < nth i a 0) ->
    let r := bisect_right_loop rounds a x lo hi in
    (r <= length a)%nat /\
    (forall i, (i < r)%nat -> nth i a 0 <= x) /\
    (forall i, (r <= i < length a)%nat -> x < nth i a 0).
Proof.
  intros Hasc. induction rounds as [|rounds IH]; intros lo hi Hb Hr Hlo Hhi.
  - cbn [bisect_right_loop]. assert (lo = hi) as -> by lia. repeat split; [lia|done..].
  - cbn [bisect_right_loop]. destruct (Nat.ltb_spec lo hi) as [Hlt|Hge].
    + pose proof (midpoint_bounds lo hi Hlt) as Hmid.
      case_Q.
      * apply IH; [lia | lia | done |].
        intros i Hi. destruct (Nat.le_gt_cases hi i); [apply Hhi; lia|].
        apply Qlt_le_trans with (nth ((lo + hi) / 2) a 0); [done|].
        apply Hasc. lia.
      * apply IH; [lia | lia | | done].
        intros i Hi. apply Qle_trans with (nth ((lo + hi) / 2) a 0); [|done].
        apply Hasc. lia.
    + assert (lo = hi) as -> by lia. repeat split; [lia|done..].
Qed.

(** On an ascending array [bisect_left] returns the insertion point
    before the items equal to [x]. *)
Lemma bisect_left_loop_spec (a : list Q) (x : Q) :
  ascending a ->
  forall rounds lo hi,
    (lo <= hi <= length a)%nat -> (hi - lo <= rounds)%nat ->
    (forall i, (i < lo)%nat -> nth i a 0 < x) ->
    (forall i, (hi <= i < length a)%nat -> x <= nth i a 0) ->
    let r := bisect_left_loop rounds a x lo hi in
    (r <= length a)%nat /\
    (forall i, (i < r)%nat -> nth i a 0 < x) /\
    (forall i, (r <= i < length a)%nat -> x <= nth i a 0).
Proof.
  intros Hasc. induction rounds as [|rounds IH]; intros lo hi Hb Hr Hlo Hhi.
  - cbn [bisect_left_loop]. assert (lo = hi) as -> by lia. repeat split; [lia|done..].
  - cbn [bisect_left_loop]. destruct (Nat.ltb_spec lo hi) as [Hlt|Hge].
    + pose proof (midpoint_bounds lo hi Hlt) as Hmid.
      case_Q.
      * apply IH; [lia | lia | | done].
        intros i Hi. apply Qle_lt_trans with (nth ((lo + hi) / 2) a 0); [|done].
        apply Hasc. lia.
      * apply IH; [lia | lia | done |].
        intros i Hi. destruct (Nat.le_gt_cases hi i); [apply Hhi; lia|].
        apply Qle_trans with (nth ((lo + hi) / 2) a 0); [done|].
        apply Hasc. lia.
    + assert (lo = hi) as -> by lia. repeat split; [lia|done..].
Qed.

(** The guarded indexing of [nearest_silence_bounds]. *)
Lemma item_or_none_in_range (a : list Q) (i : nat) :
  (i < length a)%nat -> item_or_none a (Z.of_nat i) = Some (nth i a 0).
Proof.
  intros Hi. unfold item_or_none.
  destruct (Z.leb_spec 0 (Z.of_nat i)); [|lia].
  destruct (Z.ltb_spec (Z.of_nat i) (Z.of_nat (length a))); [|lia].
  cbn [andb]. rewrite Nat2Z.id.
  destruct (lookup_lt_is_Some_2 a i Hi) as [v Hv].
  rewrite Hv. f_equal. symmetry. by apply nth_lookup_Some.
Qed.

Lemma item_or_none_out_of_range (a : list Q) (idx : Z) :
  (idx < 0 \/ Z.of_nat (length a) <= idx)%Z -> item_or_none a idx = None.
Proof.
  intros H. unfold item_or_none.
  destruct (Z.leb_spec 0 idx), (Z.ltb_spec idx (Z.of_nat (length a)));
    cbn [andb]; try done; lia.
Qed.

(** With both arrays ascending, [nearest_silence_bounds] answers the
    greatest end not after [t_start] and the smallest start not before
    [t_end]. *)
Lemma nearest_silence_bounds_ascending t_start t_end silences starts ends :
  ascending starts -> ascending ends ->
  greatest_le ends t_start
    (nearest_silence_bounds t_start t_end silences starts ends).1 /\
  least_ge starts t_end
    (nearest_silence_bounds t_start t_end silences starts ends).2.
Proof.
  intros Hs He. unfold nearest_silence_bounds. cbn [fst snd]. split.
  - destruct (bisect_right_loop_spec ends t_start He (length ends) 0 (length ends))
      as (Hr & Hlow & Hhigh); [lia | lia | intros; lia | intros; lia |].
    fold (bisect_right ends t_start) in Hr, Hlow, Hhigh.
    destruct (bisect_right ends t_start) as [|r].
    + rewrite item_or_none_out_of_range by lia.
      intros e [i [Hi <-]]%(In_nth _ _ 0). apply Hhigh. lia.
    + replace (Z.of_nat (S r) - 1)%Z with (Z.of_nat r) by lia.
      rewrite item_or_none_in_range by lia.
      split; [apply nth_In; lia|]. split; [apply Hlow; lia|].
      intros e [i [Hi <-]]%(In_nth _ _ 0) Hle.
      destruct (Nat.le_gt_cases i r); [apply He; lia|].
      specialize (Hhigh i ltac:(lia)). lra.
  - destruct (bisect_left_loop_spec starts t_end Hs (length starts) 0 (length starts))
      as (Hr & Hlow & Hhigh); [lia | lia | intros; lia | intros; lia |].
    fold (bisect_left starts t_end) in Hr, Hlow, Hhigh.
    destruct (Nat.eq_dec (bisect_left starts t_end) (length starts)) as [E|E].
    + rewrite item_or_none_out_of_range by lia.
      intros e [i [Hi <-]]%(In_nth _ _ 0). apply Hlow. lia.
    + rewrite item_or_none_in_range by lia.
      split; [apply nth_In; lia|]. split; [apply Hhigh; lia|].
      intros e [i [Hi <-]]%(In_nth _ _ 0) Hle.
      destruct (Nat.le_gt_cases (bisect_left starts t_end) i); [apply Hs; lia|].
      specialize (Hlow i ltac:(lia)). lra.
Qed.

(** Hence, on a silence list whose starts and whose ends both ascend, the
    binary search and the linear scan agree. *)
Lemma nearest_silence_bounds_sorted (t_start t_end : Q)
    (silences : list interval) :
  is_sorted_by (fun q => q) (build_silence_index silences).1 = true ->
  is_sorted_by (fun q => q) (build_silence_index silences).2 = true ->
  let found :=
    nearest_silence_bounds t_start t_end silences
      (build_silence_index silences).1 (build_silence_index silences).2 in
  let scanned := brute_force_bounds t_start t_end silences in
  same_time found.1 scanned.1 /\ same_time found.2 scanned.2.
Proof.
  intros Hs He found scanned.
  destruct (nearest_silence_bounds_ascending t_start t_end silences
              _ _ (is_sorted_ascending _ Hs) (is_sorted_ascending _ He))
    as [Hp Hn].
  split.
  - eapply greatest_le_unique; [exact Hp|]. apply scan_prev_end_spec.
  - eapply least_ge_unique; [exact Hn|]. apply scan_next_start_spec.
Qed.

(** C6 (fails on the code): [build_silence_index] copies the ends in the
    order of the starts.  For two overlapping silences, a list that
    [detect_silences] returns as it is, the ends do not ascend, and the
    binary search misses the greatest end not after [t_start = 10]: it
    answers 2 where the linear scan answers 10. *)
Theorem nearest_silence_bounds_overlapping_silences :
  let silences := [(0, 10); (1, 2)] in
  normalize_silences silences = silences /\
  build_silence_index silences = ([0; 1], [10; 2]) /\
  nearest_silence_bounds 10 11 silences [0; 1] [10; 2] = (Some 2, None) /\
  brute_force_bounds 10 11 silences = (Some 10, None).
Proof. vm_compute. repeat split. Qed.

(** ** Sorting *)

Section SortingFacts.
Context {A : Type} (key : A -> Q).

Lemma insert_by_elem (x y : A) (l : list A) :
  y ∈ insert_by key x l <-> y = x \/ y ∈ l.
Proof.
  induction l as [|z l IH]; cbn [insert_by].
  - rewrite list_elem_of_singleton, elem_of_nil. tauto.
  - destruct (Qleb (key x) (key z)).
    + rewrite elem_of_cons. tauto.
    + rewrite !elem_of_cons, IH. tauto.
Qed.

(** Insertion keeps a sorted list sorted, so [sorted_by] sorts. *)
Lemma insert_by_sorted (x : A) (l : list A) :
  StronglySorted (key_le key) l -> StronglySorted (key_le key) (insert_by key x l).
Proof.
  induction l as [|z l IH]; cbn [insert_by]; intros Hs.
  - repeat constructor.
  - apply StronglySorted_cons in Hs as [Hz Hs]. case_Q.
    + apply StronglySorted_cons. split; [|by apply StronglySorted_cons].
      constructor; [done|].
      eapply Forall_impl; [exact Hz|]. unfold key_le. intros; lra.
    + apply StronglySorted_cons. split; [|by apply IH].
      apply Forall_forall. intros y [->|Hy]%insert_by_elem.
      * unfold key_le. lra.
      * rewrite Forall_forall in Hz. by apply Hz.
Qed.

Lemma sorted_by_sorted (l : list A) :
  StronglySorted (key_le key) (sorted_by key l).
Proof.
  induction l; cbn [sorted_by]; [constructor | by apply insert_by_sorted].
Qed.

Lemma sorted_by_elem (y : A) (l : list A) : y ∈ sorted_by key l <-> y ∈ l.
Proof.
  induction l as [|x l IH]; cbn [sorted_by]; [done|].
  rewrite insert_by_elem, elem_of_cons, IH. tauto.
Qed.

(** Sorting a list that ascends already changes nothing. *)
Lemma sorted_by_ascending (l : list A) :
  StronglySorted (key_le key) l -> sorted_by key l = l.
Proof.
  induction l as [|x l IH]; [done|].
  intros [Hx Hs]%StronglySorted_cons. cbn [sorted_by]. rewrite (IH Hs).
  destruct l as [|y l]; [done|]. cbn [insert_by].
  apply Forall_cons in Hx as [Hxy _]. apply Qleb_le in Hxy. by rewrite Hxy.
Qed.
End SortingFacts.

(** A relation that holds between all pairs in order holds in a sublist,
    and between any two positions in order. *)
Lemma StronglySorted_sublist {A : Type} (R : relation A) (k l : list A) :
  k `sublist_of` l -> StronglySorted R l -> StronglySorted R k.
Proof.
  induction 1 as [|x k l Hkl IH|x k l Hkl IH]; [done| |].
  - intros [Hx Hs]%StronglySorted_cons. apply StronglySorted_cons.
    split; [|by apply IH]. rewrite Forall_forall in Hx |- *.
    intros y Hy. eapply Hx, elem_of_sublist; eauto.
  - intros [_ Hs]%StronglySorted_cons. by apply IH.
Qed.

Lemma StronglySorted_lookup {A : Type} (R : relation A) (l : list A)
    (i j : nat) (x y : A) :
  StronglySorted R l -> (i < j)%nat -> l !! i = Some x -> l !! j = Some y ->
  R x y.
Proof.
  intros Hs. revert i j. induction Hs as [|z l Hs IH Hz]; intros i j Hij Hi Hj.
  - by rewrite lookup_nil in Hi.
  - destruct j as [|j]; [lia|]. destruct i as [|i].
    + injection Hi as <-. rewrite Forall_forall in Hz.
      by eapply Hz, list_elem_of_lookup_2.
    + apply (IH i j); [lia|done..].
Qed.

(** ** The candidate filter *)

Section FilterFacts.
Variable a : args.
Variable silences : list interval.

(** The loop over a list extended by one candidate. *)
Lemma keep_loop_snoc (pre : list candidate) (c : candidate) :
  keep_loop a silences (pre ++ [c])
  = keep_step a silences (keep_loop a silences pre) c.
Proof. unfold keep_loop. by rewrite fold_left_app. Qed.

(** [last_keep_t] is the start of the last kept candidate, or its initial
    value. *)
Lemma keep_loop_last (l : list candidate) :
  (keep_loop a silences l).2 = last_keep_t_of (keep_loop a silences l).1.
Proof.
  induction l as [|c l IH] using rev_ind; [done|].
  rewrite keep_loop_snoc. destruct (keep_loop a silences l) as [ch t].
  cbn [fst snd] in IH. unfold keep_step.
  destruct (_ && _); [done|]. destruct (Qltb _ _); [done|].
  cbn [fst snd]. unfold last_keep_t_of. by rewrite last_snoc.
Qed.

(** Among spaced marks the last one is the latest. *)
Lemma spaced_last (chapters : list mark) (m : mark) :
  StronglySorted (spaced (min_chapter_gap a)) chapters ->
  m ∈ chapters -> m_ts m <= last_keep_t_of chapters.
Proof.
  intros Hs Hm. unfold last_keep_t_of.
  destruct (last chapters) as [z|] eqn:E.
  - apply last_Some in E as [ch' ->].
    apply elem_of_app in Hm as [Hm|Hm%list_elem_of_singleton].
    + apply (StronglySorted_app_1_elem_of _ _ _ m z) in Hs;
        [apply Hs | done | by apply list_elem_of_singleton].
    + subst. apply Qle_refl.
  - apply last_None in E. subst. inversion Hm.
Qed.

(** What the loop keeps from time-ordered candidates is time-ordered and
    spaced, and every kept mark is one of the candidates. *)
Lemma keep_loop_spaced (l : list candidate) :
  StronglySorted (key_le c_ts) l ->
  StronglySorted (spaced (min_chapter_gap a)) (keep_loop a silences l).1 /\
  Forall (fun m => exists c, c ∈ l /\ m_ts m = c_ts c)
    (keep_loop a silences l).1.
Proof.
  induction l as [|c l IH] using rev_ind; intros Hs.
  { split; constructor. }
  apply StronglySorted_app in Hs as (Hlc & Hl & _).
  destruct (IH Hl) as [IH1 IH2]. clear IH.
  assert (Hweak : Forall (fun m => exists c0, c0 ∈ l ++ [c] /\ m_ts m = c_ts c0)
                    (keep_loop a silences l).1).
  { eapply Forall_impl; [exact IH2|]. intros m (c0 & ? & ?).
    exists c0. split; [apply elem_of_app; by left | done]. }
  rewrite keep_loop_snoc. pose proof (keep_loop_last l) as Hlast.
  destruct (keep_loop a silences l) as [ch t]. cbn [fst snd] in *.
  unfold keep_step. destruct (_ && _); [done|].
  case_Q; [done|]. cbn [fst snd]. split.
  - apply StronglySorted_app_2; [|done|repeat constructor].
    intros m1 m2 Hm1 ->%list_elem_of_singleton.
    pose proof (spaced_last ch m1 IH1 Hm1) as Hle. rewrite <- Hlast in Hle.
    rewrite Forall_forall in IH2. destruct (IH2 m1 Hm1) as (c0 & Hc0 & E0).
    specialize (Hlc c0 c Hc0 ltac:(by apply list_elem_of_singleton)).
    unfold key_le in Hlc. unfold spaced.
    change (m_ts (c_ts c, c_te c, c_n c)) with (c_ts c).
    rewrite E0 in Hle |- *. split; [lra|].
    apply Qle_trans with (fsub (c_ts c) t); [done|].
    apply fsub_mono; lra.
  - apply Forall_app. split; [done|]. constructor; [|constructor].
    exists c. split; [apply elem_of_app; right; by apply list_elem_of_singleton|done].
Qed.

Lemma chapters_of_spaced (raw_candidates : list candidate) :
  StronglySorted (spaced (min_chapter_gap a))
    (chapters_of a silences raw_candidates).
Proof. apply keep_loop_spaced, sorted_by_sorted. Qed.

Lemma spaced_ascending (l : list mark) :
  StronglySorted (spaced (min_chapter_gap a)) l ->
  StronglySorted (key_le m_ts) l.
Proof.
  induction 1 as [|m l Hs IH Hm]; constructor; [done|].
  eapply Forall_impl; [exact Hm|]. by intros ? [? _].
Qed.

(** The two later passes only remove marks. *)
Lemma first_occurrences_sublist (chapters : list mark) :
  first_occurrences chapters `sublist_of` chapters.
Proof.
  unfold first_occurrences.
  assert (H : forall l (acc : list mark) (seen : gset (option N)),
    exists k, k `sublist_of` l /\
      (fold_left
         (fun (st : list mark * gset (option N)) m =>
            if decide (m_n m ∈ st.2) then st
            else (st.1 ++ [m], st.2 ∪ {[m_n m]}))
         l (acc, seen)).1 = acc ++ k).
  { induction l as [|m l IH]; intros acc seen.
    - exists []. split; [done|]. by rewrite app_nil_r.
    - cbn [fold_left fst snd]. destruct (decide _).
      + destruct (IH acc seen) as (k & Hk & ->).
        exists k. split; [by apply sublist_cons | done].
      + destruct (IH (acc ++ [m]) (seen ∪ {[m_n m]})) as (k & Hk & ->).
        exists (m :: k). split; [by apply sublist_skip|].
        by rewrite <- app_assoc. }
  destruct (H chapters [] ∅) as (k & Hk & ->). done.
Qed.

(** What the sequential filter keeps from [l] when it expects [e] next:
    marks numbered [e], [e + 1], ... in the order of [l]. *)
Lemma sequential_fold (l : list mark) :
  forall (acc : list mark) (e : N),
  exists k, k `sublist_of` l /\
    map m_n k = map (fun i => Some (e + N.of_nat i)%N) (seq 0 (length k)) /\
    fold_left
      (fun (st : list mark * N) m =>
         if decide (m_n m = Some st.2) then (st.1 ++ [m], (st.2 + 1)%N)
         else st)
      l (acc, e) = (acc ++ k, (e + N.of_nat (length k))%N).
Proof.
  induction l as [|m l IH]; intros acc e.
  - exists []. split; [done|]. split; [done|].
    cbn [fold_left length]. by rewrite app_nil_r, N.add_0_r.
  - cbn [fold_left fst snd]. destruct (decide _) as [En|En].
    + destruct (IH (acc ++ [m]) (e + 1)%N) as (k & Hk & Hn & ->).
      exists (m :: k). split; [by apply sublist_skip|]. split.
      * cbn [map length seq]. rewrite En, N.add_0_r. f_equal.
        rewrite Hn, <- seq_shift, map_map. apply map_ext. intros i. f_equal. lia.
      * rewrite <- app_assoc. cbn [length]. f_equal. lia.
    + destruct (IH acc e) as (k & Hk & Hn & ->).
      exists k. split; [by apply sublist_cons | done].
Qed.

Lemma sequential_filter_sublist (marks : list mark) :
  sequential_filter marks `sublist_of` sorted_by m_ts marks.
Proof.
  unfold sequential_filter.
  destruct (sequential_fold (sorted_by m_ts marks) [] 1%N) as (k & Hk & _ & ->).
  done.
Qed.

(** So the final marks are some of the kept chapters, in their order. *)
Lemma final_marks_sublist (raw_candidates : list candidate) :
  final_marks a silences raw_candidates
    `sublist_of` chapters_of a silences raw_candidates.
Proof.
  pose proof (chapters_of_spaced raw_candidates) as Hs.
  apply spaced_ascending in Hs. unfold final_marks.
  destruct (sequential_chapters a).
  - etrans; [apply sequential_filter_sublist|].
    rewrite (sorted_by_ascending m_ts _ Hs), (sorted_by_ascending m_ts _ Hs).
    reflexivity.
  - rewrite sorted_by_ascending; [apply first_occurrences_sublist|].
    eapply StronglySorted_sublist; [apply first_occurrences_sublist | done].
Qed.

Lemma final_marks_spaced (raw_candidates : list candidate) :
  StronglySorted (spaced (min_chapter_gap a))
    (final_marks a silences raw_candidates).
Proof.
  eapply StronglySorted_sublist;
    [apply final_marks_sublist | apply chapters_of_spaced].
Qed.
End FilterFacts.

(** C4: the loop over the time-ordered chapter candidates is a greedy
    left-to-right debounce: after any prefix of the candidates, the next
    one is kept exactly when it passes the silence gate (or there is no
    silence at all, which bypasses the gate) and its [t_start] is at least
    [min_chapter_gap] after the [t_start] of the last kept candidate, the
    difference being the one the code computes, [ts - last_keep_t] on
    floats.  While nothing is kept the code compares with its initial
    [last_keep_t], -1e12, so that for times from zero on and a gap of at
    most 1e12 the gate alone decides.  And in the final mark list, after
    deduplication or sequential validation, any two marks are in time
    order with [t_start] values at least [min_chapter_gap] apart, by the
    same difference. *)
Theorem debounce_greedy_and_spaced (a : args) (silences : list interval)
    (raw_candidates : list candidate) :
  (forall pre c post,
     chapter_candidates raw_candidates = pre ++ c :: post ->
     (keep_loop a silences (pre ++ [c])).1 =
     if (bool_decide (silences = []) || gate a silences (c_ts c) (c_te c))
        && Qleb (min_chapter_gap a)
             (fsub (c_ts c) (last_keep_t_of (keep_loop a silences pre).1))
     then (keep_loop a silences pre).1 ++ [(c_ts c, c_te c, c_n c)]
     else (keep_loop a silences pre).1) /\
  (forall pre c post,
     chapter_candidates raw_candidates = pre ++ c :: post ->
     (keep_loop a silences pre).1 = [] ->
     0 <= c_ts c -> min_chapter_gap a <= 10 ^ 12 ->
     (keep_loop a silences (pre ++ [c])).1 =
     if bool_decide (silences = []) || gate a silences (c_ts c) (c_te c)
     then [(c_ts c, c_te c, c_n c)] else []) /\
  (forall i j m1 m2,
     (i < j)%nat ->
     final_marks a silences raw_candidates !! i = Some m1 ->
     final_marks a silences raw_candidates !! j = Some m2 ->
     m_ts m1 <= m_ts m2 /\
     min_chapter_gap a <= fsub (m_ts m2) (m_ts m1)).
Proof.
  assert (Hstep : forall pre c,
    (keep_loop a silences (pre ++ [c])).1 =
    if (bool_decide (silences = []) || gate a silences (c_ts c) (c_te c))
       && Qleb (min_chapter_gap a)
            (fsub (c_ts c) (last_keep_t_of (keep_loop a silences pre).1))
    then (keep_loop a silences pre).1 ++ [(c_ts c, c_te c, c_n c)]
    else (keep_loop a silences pre).1); [|split_and!].
  - intros pre c. rewrite keep_loop_snoc.
    rewrite <- keep_loop_last. destruct (keep_loop a silences pre) as [ch t].
    cbn [fst snd]. unfold keep_step.
    destruct silences as [|s ss] eqn:Es.
    + cbn [length Nat.ltb Nat.leb andb orb bool_decide].
      rewrite bool_decide_eq_true_2 by done. cbn [orb andb].
      unfold Qltb, Qleb. by destruct (Qle_bool _ _).
    + rewrite bool_decide_eq_false_2 by done.
      change (0 <? length (s :: ss))%nat with true. cbn [orb andb].
      destruct (gate a (s :: ss) (c_ts c) (c_te c)); cbn [negb andb]; [|done].
      unfold Qltb, Qleb. by destruct (Qle_bool _ _).
  - intros pre c post _. apply Hstep.
  - intros pre c post _ Hnone Hts Hgap. rewrite Hstep, Hnone.
    destruct (_ || _); [|done]. cbn [andb app].
    assert (Hle : min_chapter_gap a <= fsub (c_ts c) (last_keep_t_of [])).
    { unfold last_keep_t_of, last_keep_init. cbn [last].
      apply Qle_trans with (10 ^ 12); [done|].
      rewrite <- fl_1e12 at 1. apply fl_mono. lra. }
    apply Qleb_le in Hle. by rewrite Hle.
  - intros i j m1 m2 Hij H1 H2.
    apply (StronglySorted_lookup _ _ i j m1 m2
             (final_marks_spaced a silences raw_candidates) Hij H1 H2).
Qed.

(** C5: in sequential-chapter mode the final marks are in time order and
    their numbers, read in that order, are exactly 1, 2, ..., k. *)
Theorem sequential_numbers_exact (a : args) (silences : list interval)
    (raw_candidates : list candidate) :
  sequential_chapters a = true ->
  StronglySorted (key_le m_ts) (final_marks a silences raw_candidates) /\
  map m_n (final_marks a silences raw_candidates)
  = map (fun i => Some (N.of_nat i))
      (seq 1 (length (final_marks a silences raw_candidates))).
Proof.
  intros Hseq. split.
  { apply (spaced_ascending a), final_marks_spaced. }
  unfold final_marks. rewrite Hseq. unfold sequential_filter.
  destruct (sequential_fold
              (sorted_by m_ts (sorted_by m_ts (chapters_of a silences raw_candidates)))
              [] 1%N) as (k & _ & Hn & ->).
  cbn [fst app]. rewrite Hn, <- seq_shift, map_map.
  apply map_ext. intros i. f_equal. lia.
Qed.

Lemma sequential_numbers_exact_witness :
  map m_n
    (final_marks (Args 0.35 true 90 120 0.6 0.8) []
       [Candidate chapter 300 301 (Some 2%N);
        Candidate chapter 10 11 (Some 1%N);
        Candidate chapter 150 151 (Some 3%N);
        Candidate chapter 600 601 (Some 3%N)])
  = [Some 1%N; Some 2%N; Some 3%N].
Proof.
  rewrite (proj2 (sequential_numbers_exact (Args 0.35 true 90 120 0.6 0.8) []
                    _ eq_refl)).
  vm_compute. reflexivity.
Defined.

Lemma debounce_greedy_and_spaced_witness :
  let raw := [Candidate chapter (fl 0.1) 1 (Some 1%N);
              Candidate chapter (fl 90.1) 91 (Some 2%N);
              Candidate chapter 100 101 (Some 3%N)] in
  (keep_loop default_args [] (firstn 2 raw)).1
    = [(fl 0.1, 1, Some 1%N); (fl 90.1, 91, Some 2%N)] /\
  (keep_loop default_args [] (firstn 1 raw)).1 = [(fl 0.1, 1, Some 1%N)] /\
  (fl 0.1 <= fl 90.1 /\
   min_chapter_gap default_args <= fsub (fl 90.1) (fl 0.1)).
Proof.
  intros raw.
  destruct (debounce_greedy_and_spaced default_args [] raw)
    as (Hstep & Hfirst & Hgap).
  split; [|split].
  - change (firstn 2 raw) with ([Candidate chapter (fl 0.1) 1 (Some 1%N)]
                                 ++ [Candidate chapter (fl 90.1) 91 (Some 2%N)]).
    rewrite (Hstep [Candidate chapter (fl 0.1) 1 (Some 1%N)]
               (Candidate chapter (fl 90.1) 91 (Some 2%N))
               [Candidate chapter 100 101 (Some 3%N)]); vm_compute; reflexivity.
  - change (firstn 1 raw) with ([] ++ [Candidate chapter (fl 0.1) 1 (Some 1%N)]).
    rewrite (Hfirst [] (Candidate chapter (fl 0.1) 1 (Some 1%N))
               [Candidate chapter (fl 90.1) 91 (Some 2%N);
                Candidate chapter 100 101 (Some 3%N)]);
      [reflexivity | vm_compute; reflexivity | reflexivity
      | vm_compute; discriminate | vm_compute; discriminate].
  - apply (Hgap 0%nat 1%nat (fl 0.1, 1, Some 1%N) (fl 90.1, 91, Some 2%N));
      [lia | vm_compute; reflexivity | vm_compute; reflexivity].
Defined.

(** The differences are the floats that the code computes: the
    candidates at the floats 0.1 and 90.1 are both kept with the default
    gap of 90 s, as the difference of these floats is rounded to 90.0,
    from below. *)
Lemma keep_loop_rounded_gap :
  final_marks default_args []
    [Candidate chapter (fl 0.1) 1 (Some 1%N);
     Candidate chapter (fl 90.1) 91 (Some 2%N)]
  = [(fl 0.1, 1, Some 1%N); (fl 90.1, 91, Some 2%N)] /\
  fsub (fl 90.1) (fl 0.1) == 90 /\ fl 90.1 - fl 0.1 < 90.
Proof. split_and!; vm_compute; reflexivity. Qed.


(** ** No silence detected *)

(** Without silences the gate fails: there is no silence on either side. *)
Lemma gate_no_silences (a : args) (ts te : Q) : gate a [] ts te = false.
Proof. reflexivity. Qed.

(** With no silence the chapter loop tests the gap alone. *)
Lemma keep_step_no_silences (a : args) (st : list mark * Q) (c : candidate) :
  keep_step a [] st c =
  if Qltb (fsub (c_ts c) st.2) (min_chapter_gap a) then st
  else (st.1 ++ [(c_ts c, c_te c, c_n c)], c_ts c).
Proof. by destruct st. Qed.

(** C1 (fails on the code): with no detected silence the back-matter loop
    does not bypass the gate as the chapter loop does; it calls the gate,
    which fails for want of a silence on either side, so no back-matter
    candidate is ever selected. *)
Theorem back_start_never_found_without_silences (a : args)
    (raw_candidates : list candidate) :
  find_back_start a [] raw_candidates = None.
Proof.
  unfold find_back_start.
  induction (sorted_by c_ts
               (filter (fun c => kind_eqb (c_kind c) back = true) raw_candidates))
    as [|c l IH]; [done|].
  rewrite filter_cons, gate_no_silences.
  destruct (decide (false = true)); [discriminate | exact IH].
Qed.

(** ** The parser *)

(** A string of decimal digits is read as a number. *)
Lemma uint_of_char_digit (c : ascii) (d : Decimal.uint) :
  is_digit c = true -> exists d', uint_of_char c (Some d) = Some d'.
Proof.
  destruct c as [[] [] [] [] [] [] [] []]; try discriminate; intros _;
    by eexists.
Qed.

Lemma all_digits_uint (s : string) :
  all_digits s = true -> exists d, NilEmpty.uint_of_string s = Some d.
Proof.
  induction s as [|c s IH]; [by eexists|].
  cbn [all_digits NilEmpty.uint_of_string].
  intros [Hc Hs]%andb_true_iff. destruct (IH Hs) as [d ->].
  by apply uint_of_char_digit.
Qed.

(** On what [isdigit] accepts [int] fails for too many digits only. *)
Lemma int_of_str_isdigit (s : string) :
  isdigit s = true ->
  exists k, int_of_str s =
            if (int_max_str_digits <? String.length s)%nat
            then Raise ValueError else Ok k.
Proof.
  unfold isdigit, int_of_str. intros [Hne Hd]%andb_true_iff.
  destruct (all_digits_uint s Hd) as [d ->].
  apply negb_true_iff in Hne. rewrite Hne. by eexists.
Qed.

Section ParserFacts.
Variable a : args.
Variable trigger : string.
Variable back_trigger : option string.
Variable spoken_to_int : gmap string N.

Let parse := parse_phrase a trigger back_trigger spoken_to_int.

(** The only call that can raise is [int(tail)]. *)
Lemma parse_phrase_raise (r : res_obj) (e : exn) :
  parse r = Raise e -> e = ValueError.
Proof using Type.
  unfold parse, parse_phrase.
  destruct (_ || _); [discriminate|].
  destruct (conf_all _ _); [|discriminate].
  destruct (match default [] (r_result r) with [] => None | w :: _ => w_start w end);
    [|discriminate].
  destruct (max_end _); [|discriminate].
  destruct (match back_trigger with Some _ => _ | None => _ end); [discriminate|].
  destruct (String.eqb _ trigger); [discriminate|].
  destruct (String.prefix _ _); [|discriminate].
  destruct (spoken_to_int !! _) as [n|].
  - rewrite py_bind_ok. by destruct (negb _).
  - destruct (isdigit _) eqn:Ed.
    + destruct (int_of_str_isdigit _ Ed) as [k ->].
      destruct (_ <? _)%nat; [by intros [= <-]|].
      rewrite !py_bind_ok. by destruct (negb _).
    + rewrite py_bind_ok. discriminate.
Qed.




End ParserFacts.

Section ErasedConfidence.
Variable a : args.
Variable trigger : string.
Variable back_trigger : option string.
Variable spoken_to_int : gmap string N.
Hypothesis floor_le_1 : conf_min a <= 1.

Let parse := parse_phrase a trigger back_trigger spoken_to_int.

(** A missing confidence passes a floor of at most 1.0. *)
Lemma conf_all_absent (words : list word) :
  Forall (fun w => w_conf w = None) words ->
  conf_all (conf_min a) words = true.
Proof using floor_le_1.
  unfold conf_all. induction 1 as [|w ws Hw _ IH]; [done|].
  cbn [forallb]. rewrite Hw, IH. cbn [default from_option id].
  by apply andb_true_iff, conj; [apply Qleb_le|].
Qed.

Lemma conf_all_erase (mask : list bool) (words : list word) :
  conf_all (conf_min a) words = true ->
  conf_all (conf_min a) (erase_conf mask words) = true.
Proof using floor_le_1.
  unfold conf_all. revert mask.
  induction words as [|w ws IH]; intros mask; [by destruct mask|].
  destruct mask as [|b bs]; [done|]. cbn [erase_conf forallb].
  intros [Hw Hws]%andb_true_iff. rewrite (IH bs Hws), andb_true_r.
  destruct b; [by apply Qleb_le | done].
Qed.

Lemma max_end_erase (mask : list bool) (words : list word) :
  max_end (erase_conf mask words) = max_end words.
Proof using Type.
  assert (Hfold : forall ws bs q,
    fold_left (fun best w' => py_max best (default 0 (w_end w')))
      (erase_conf bs ws) q
    = fold_left (fun best w' => py_max best (default 0 (w_end w'))) ws q).
  { induction ws as [|w ws IH]; intros bs q; [by destruct bs|].
    destruct bs as [|b bs]; [done|]. cbn [erase_conf fold_left].
    rewrite IH. by destruct b. }
  destruct words as [|w ws]; [by destruct mask|].
  destruct mask as [|b bs]; [done|]. cbn [erase_conf max_end].
  rewrite Hfold. by destruct b.
Qed.

(** When all words pass the floor, erasing confidences changes nothing. *)
Lemma parse_phrase_erase (mask : list bool) (r : res_obj) :
  conf_all (conf_min a) (words_of r) = true ->
  parse (ResObj (r_text r) (erase_conf mask <$> r_result r)) = parse r.
Proof using floor_le_1.
  unfold words_of, parse, parse_phrase. cbn [r_text r_result].
  destruct (r_result r) as [ws|]; [|done].
  cbn [fmap option_fmap option_map default from_option id].
  intros Hc. rewrite (conf_all_erase mask ws Hc), Hc, max_end_erase.
  destruct ws as [|w ws]; [by destruct mask|].
  destruct mask as [|b bs]; [done|]. cbn [erase_conf]. by destruct b.
Qed.

(** A candidate is only reported when all words pass the floor. *)
Lemma parse_phrase_candidate_conf (r : res_obj) k ts te n ok :
  parse r = Ok (Some k, ts, te, n, ok) ->
  conf_all (conf_min a) (words_of r) = true.
Proof using Type.
  unfold words_of, parse, parse_phrase, nothing.
  destruct (_ || _); [discriminate|].
  destruct (conf_all _ _); [done|]. discriminate.
Qed.
End ErasedConfidence.




(** The call [int(tail)] is not guarded: a numeral of 4301 digits, which
    [isdigit] accepts and [int] refuses, makes [parse_phrase] raise
    [ValueError], here on a result whose word has no confidence value. *)
Lemma parse_phrase_long_numeral :
  parse_phrase default_args "chapter" None ∅
    (ResObj (Some ("chapter " +:+ zeros 4301))
       (Some [Word (Some 1) (Some 2) None]))
  = Raise ValueError.
Proof. vm_compute. reflexivity. Qed.

(** C10: with a floor of at most 1.0, words without a confidence value
    pass the confidence test, and erasing the confidence of any words of a
    result that yields a candidate leaves that candidate as it is. *)
Theorem missing_confidence_never_discards (a : args) (trigger : string)
    (back_trigger : option string) (spoken_to_int : gmap string N) :
  conf_min a <= 1 ->
  (forall words,
     Forall (fun w => w_conf w = None) words ->
     conf_all (conf_min a) words = true) /\
  (forall r mask k ts te n ok,
     parse_phrase a trigger back_trigger spoken_to_int r
       = Ok (Some k, ts, te, n, ok) ->
     parse_phrase a trigger back_trigger spoken_to_int
       (ResObj (r_text r) (erase_conf mask <$> r_result r))
       = Ok (Some k, ts, te, n, ok)).
Proof.
  intros Hfloor. split; [by apply conf_all_absent|].
  intros r mask k ts te n ok Hp.
  rewrite parse_phrase_erase; [done..|].
  eapply parse_phrase_candidate_conf, Hp.
Qed.

Lemma missing_confidence_never_discards_witness :
  parse_phrase default_args "chapter" None {["one" := 1%N]}
    (ResObj (Some "chapter one")
       (Some [Word (Some 1) (Some 1.4) None; Word (Some 1.5) (Some 2) (Some 0.9)]))
  = Ok (Some chapter, Some 1, Some 2, Some 1%N, true).
Proof.
  refine (proj2 (missing_confidence_never_discards default_args "chapter" None
                   {["one" := 1%N]} _)
            (ResObj (Some "chapter one")
               (Some [Word (Some 1) (Some 1.4) (Some 0.8);
                      Word (Some 1.5) (Some 2) (Some 0.9)]))
            [true; false] chapter (Some 1) (Some 2) (Some 1%N) true _).
  - vm_compute. discriminate.
  - reflexivity.
Defined.

(** ** Segments *)

Lemma contiguous_tail (s : segment) (l : list segment) :
  contiguous (s :: l) -> contiguous l.
Proof. destruct l; [done|]. by intros [_ ?]. Qed.

(** Contiguity when a segment is appended, when the last one goes, and by
    positions. *)
Lemma contiguous_snoc (l : list segment) (s : segment) :
  contiguous l ->
  (forall p, last l = Some p -> seg_end p == seg_start s) ->
  contiguous (l ++ [s]).
Proof.
  induction l as [|x l IH]; [done|]. intros Hc Hl.
  destruct l as [|y l].
  - cbn. split; [|done]. by apply Hl.
  - destruct Hc as [Hxy Hc]. split; [done|].
    apply IH; [done|]. intros p Hp. apply Hl. by rewrite last_cons_cons.
Qed.

Lemma contiguous_removelast (l : list segment) :
  contiguous l -> contiguous (removelast l).
Proof.
  induction l as [|x l IH]; [done|]. intros Hc.
  destruct l as [|y l]; [done|]. destruct Hc as [Hxy Hc].
  specialize (IH Hc). cbn [removelast] in *.
  destruct l as [|z l]; [done|]. by split.
Qed.

Lemma contiguous_lookup (l : list segment) (i : nat) (s1 s2 : segment) :
  contiguous l -> l !! i = Some s1 -> l !! S i = Some s2 ->
  seg_end s1 == seg_start s2.
Proof.
  revert i. induction l as [|x l IH]; intros i Hc H1 H2; [done|].
  destruct l as [|y l]; [done|]. destruct Hc as [Hxy Hc].
  destruct i as [|i].
  - injection H1 as <-. by injection H2 as <-.
  - by apply (IH i).
Qed.

Lemma snoc_cases {A : Type} (l : list A) :
  l = [] \/ exists init p, l = init ++ [p].
Proof.
  destruct l as [|x l] using rev_ind; [by left|]. right. by eexists _, _.
Qed.

Lemma filter_all {A : Type} (P : A -> Prop) `{!forall x, Decision (P x)}
    (l : list A) :
  Forall P l -> filter P l = l.
Proof.
  induction 1 as [|x l Hx _ IH]; [done|].
  by rewrite filter_cons_True, IH.
Qed.

(** A filter that keeps every segment but possibly the last removes at
    most the last. *)
Lemma filter_all_but_last {A : Type} (P : A -> Prop)
    `{!forall x, Decision (P x)} (l : list A) :
  Forall P (removelast l) -> filter P l = l \/ filter P l = removelast l.
Proof.
  destruct (snoc_cases l) as [->|(init & z & ->)]; [by left|].
  rewrite removelast_last. intros Hinit.
  rewrite filter_app, (filter_all P init Hinit).
  destruct (decide (P z)).
  - left. by rewrite filter_cons_True.
  - right. by rewrite filter_cons_False, app_nil_r.
Qed.

(** Filtering a contiguous list leaves it contiguous when only its two
    ends can go. *)
Lemma filter_contiguous (P : segment -> Prop) `{!forall x, Decision (P x)}
    (l : list segment) :
  contiguous l -> Forall P (interior l) -> contiguous (filter P l).
Proof.
  unfold interior. destruct l as [|x l]; [done|].
  intros Hc Hint.
  assert (Hl : Forall P (removelast l)).
  { destruct l as [|y l]; [constructor | exact Hint]. }
  assert (Hx : contiguous (x :: removelast l)).
  { destruct l as [|y l]; [done|].
    by apply (contiguous_removelast (x :: y :: l)). }
  destruct (filter_all_but_last P l Hl) as [E|E].
  - destruct (decide (P x)).
    + by rewrite filter_cons_True, E.
    + rewrite filter_cons_False, E by done. by eapply contiguous_tail.
  - destruct (decide (P x)).
    + by rewrite filter_cons_True, E.
    + rewrite filter_cons_False, E by done. by eapply contiguous_tail.
Qed.

(** With nothing kept yet a short chapter is skipped, and nothing records
    its range. *)
Lemma absorb_step_nil (min_dur : Q) (s : segment) :
  absorb_step min_dur [] s = if too_short min_dur s then [] else [s].
Proof. reflexivity. Qed.

(** A short chapter is merged into the previous kept segment, whose end
    becomes its end and whose label stays; any other segment is
    appended. *)
Lemma absorb_step_snoc (min_dur : Q) (init : list segment) (p s : segment) :
  absorb_step min_dur (init ++ [p]) s =
  if too_short min_dur s
  then init ++ [Segment (seg_start p) (seg_end s) (seg_label p)]
  else init ++ [p; s].
Proof.
  unfold absorb_step, too_short. destruct (_ && _).
  - rewrite last_snoc, length_app. cbn [length].
    replace (pred (length init + 1)) with (length init + 0)%nat by lia.
    by rewrite insert_app_r.
  - by rewrite <- app_assoc.
Qed.

(** Moving the end of the last segment keeps the list contiguous. *)
Lemma contiguous_set_last (init : list segment) (p p' : segment) :
  seg_start p' = seg_start p ->
  contiguous (init ++ [p]) -> contiguous (init ++ [p']).
Proof.
  intros Hst Hc. apply contiguous_snoc.
  - rewrite <- (removelast_last init p). by apply contiguous_removelast.
  - intros q Hq. rewrite Hst.
    apply last_Some in Hq as [init' ->].
    rewrite <- app_assoc in Hc. clear -Hc.
    induction init' as [|x l IH]; [by destruct Hc|].
    apply IH. by eapply contiguous_tail.
Qed.

Lemma tail_snoc {A : Type} (l : list A) (x : A) :
  tail (l ++ [x]) = match l with [] => [] | _ => tail l ++ [x] end.
Proof. by destruct l. Qed.

Lemma interior_of_tail (P : segment -> Prop) (l : list segment) :
  Forall P (tail l) -> Forall P (interior l).
Proof.
  unfold interior. destruct (snoc_cases l) as [->|(init & p & ->)]; [done|].
  rewrite removelast_last, tail_snoc. destruct init; [done|].
  by intros [? _]%Forall_app.
Qed.

Section Absorb.
Variable min_dur : Q.

(** The loop invariant of the first loop of step 7: the kept list is
    contiguous, ends where the rest starts, and all its segments but the
    first are long enough; only the last step can shorten the last one. *)
Lemma absorb_fold (rest : list segment) :
  forall cleaned,
    contiguous rest ->
    Forall (fun s => is_chapter s = true /\ nonneg s)
      (removelast rest) ->
    contiguous cleaned ->
    (forall p s, last cleaned = Some p -> head rest = Some s ->
                 seg_end p == seg_start s) ->
    Forall (long min_dur) (tail cleaned) ->
    contiguous (fold_left (absorb_step min_dur) rest cleaned) /\
    Forall (long min_dur)
      (interior (fold_left (absorb_step min_dur) rest cleaned)).
Proof using Type.
  induction rest as [|s rest IH]; intros cleaned Hrest Hmid Hc Hlink Hlong.
  { split; [done | by apply interior_of_tail]. }
  cbn [fold_left]. destruct rest as [|s2 rest].
  - (* the last segment *)
    cbn [fold_left].
    destruct (snoc_cases cleaned) as [->|(init & p & ->)].
    + rewrite absorb_step_nil. by destruct (too_short _ _).
    + rewrite absorb_step_snoc. destruct (too_short _ _).
      * split; [by apply (contiguous_set_last init p)|].
        unfold interior. rewrite removelast_last.
        rewrite tail_snoc in Hlong. destruct init; [done|].
        by apply Forall_app in Hlong as [? _].
      * replace (init ++ [p; s]) with ((init ++ [p]) ++ [s])
          by by rewrite <- app_assoc.
        split.
        -- apply contiguous_snoc; [done|]. intros q Hq. by apply Hlink.
        -- unfold interior. by rewrite removelast_last.
  - (* a segment with another one after it *)
    destruct Hrest as [Hs2 Hrest].
    change (removelast (s :: s2 :: rest))
      with (s :: removelast (s2 :: rest)) in Hmid.
    apply Forall_cons in Hmid as [[Hch Hpos] Hmid].
    apply IH; [done | done | | |].
    + destruct (snoc_cases cleaned) as [->|(init & p & ->)].
      * rewrite absorb_step_nil. by destruct (too_short _ _).
      * rewrite absorb_step_snoc. destruct (too_short _ _).
        -- by apply (contiguous_set_last init p).
        -- replace (init ++ [p; s]) with ((init ++ [p]) ++ [s])
             by by rewrite <- app_assoc.
           apply contiguous_snoc; [done|]. intros q Hq. by apply Hlink.
    + intros q s' Hq [= <-].
      destruct (snoc_cases cleaned) as [->|(init & p & ->)].
      * rewrite absorb_step_nil in Hq. destruct (too_short _ _); [done|].
        by injection Hq as <-.
      * rewrite absorb_step_snoc in Hq. destruct (too_short _ _).
        -- rewrite last_snoc in Hq. by injection Hq as <-.
        -- replace (init ++ [p; s]) with ((init ++ [p]) ++ [s]) in Hq
             by by rewrite <- app_assoc.
           rewrite last_snoc in Hq. by injection Hq as <-.
    + destruct (snoc_cases cleaned) as [->|(init & p & ->)].
      * rewrite absorb_step_nil. by destruct (too_short _ _).
      * rewrite absorb_step_snoc. unfold too_short. rewrite Hch. cbn [andb].
        case_Q.
        -- rewrite tail_snoc in Hlong |- *. destruct init as [|x init]; [done|].
           apply Forall_app in Hlong as [Hinit Hp].
           apply Forall_app. split; [done|]. constructor; [|done].
           apply Forall_cons in Hp as [Hp _].
           specialize (Hlink p s (last_snoc _ _) eq_refl).
           unfold long, duration, nonneg in *. cbn [seg_start seg_end].
           apply Qle_trans with (fsub (seg_end p) (seg_start p)); [done|].
           apply fsub_mono; lra.
        -- destruct init as [|x init]; cbn [app tail] in *.
           ++ by repeat constructor.
           ++ replace (init ++ [p; s]) with ((init ++ [p]) ++ [s])
                by by rewrite <- app_assoc.
              apply Forall_app. split; [done | by repeat constructor].
Qed.

(** What the first loop of step 7 returns on a contiguous list whose
    segments, the last apart, have no negative length and, the first
    and the last apart, are chapters. *)
Lemma absorb_short_solid (segments : list segment) :
  contiguous segments ->
  Forall nonneg (removelast segments) ->
  Forall (fun s => is_chapter s = true) (removelast (tail segments)) ->
  contiguous (absorb_short min_dur segments) /\
  Forall (long min_dur) (interior (absorb_short min_dur segments)).
Proof using Type.
  unfold absorb_short. destruct segments as [|x l]; [done|].
  intros Hc Hpos Hch. cbn [fold_left tail] in *.
  apply absorb_fold.
  - by eapply contiguous_tail.
  - destruct l as [|y l]; [constructor|].
    change (removelast (x :: y :: l)) with (x :: removelast (y :: l)) in Hpos.
    apply Forall_cons in Hpos as [_ Hpos].
    apply Forall_forall. rewrite Forall_forall in Hpos, Hch. auto.
  - rewrite absorb_step_nil. by destruct (too_short _ _).
  - intros p s. rewrite absorb_step_nil.
    destruct (too_short _ _); [done|]. intros [= <-].
    destruct l as [|y l]; [done|]. intros [= <-]. by destruct Hc.
  - rewrite absorb_step_nil. by destruct (too_short _ _).
Qed.

End Absorb.

(** C7 (fails on the code): with the default arguments, chapter 1 heard at
    0.1 s and chapter 2 at 100 s give the segments [0.1, 100) and
    [100, 1000); the first is shorter than 120 s and has no previous
    segment, so it is skipped, and the segment that follows still starts
    at 100: the first 100 seconds are in no segment. *)
Theorem first_short_chapter_range_is_lost :
  let marks := [(0.1, 0.9, Some 1%N); (100, 101, Some 2%N)] in
  let raw := [Candidate chapter 0.1 0.9 (Some 1%N);
              Candidate chapter 100 101 (Some 2%N)] in
  final_marks default_args [] raw = marks /\
  build_segments marks None 1000
    = [Segment 0.1 100 "chapter_1"; Segment 100 1000 "chapter_2"] /\
  absorb_short 120 (build_segments marks None 1000)
    = [Segment 100 1000 "chapter_2"] /\
  segments_of_run default_args [] raw 1000 = [Segment 100 1000 "chapter_2"].
Proof. vm_compute. repeat split. Qed.

Lemma is_chapter_label (s e : Q) (x : string) :
  is_chapter (Segment s e ("chapter_" +:+ x)) = true.
Proof. by destruct x. Qed.

Lemma removelast_cons2 {A : Type} (x y : A) (l : list A) :
  removelast (x :: y :: l) = x :: removelast (y :: l).
Proof. reflexivity. Qed.

(** One step of the loop over the marks. *)
Lemma chapter_segments_cons (m : mark) (rest : list mark) (total : Q) :
  chapter_segments (m :: rest) total =
  Segment (m_ts m) (match rest with m' :: _ => m_ts m' | [] => total end)
    ("chapter_" +:+ str_number (m_n m))
    :: chapter_segments rest total.
Proof. reflexivity. Qed.

(** The chapter segments of time-ordered marks. *)
Lemma chapter_segments_shape (marks : list mark) (total : Q) :
  StronglySorted (key_le m_ts) marks ->
  contiguous (chapter_segments marks total) /\
  Forall (fun s => is_chapter s = true) (chapter_segments marks total) /\
  Forall nonneg (removelast (chapter_segments marks total)) /\
  (forall m, head marks = Some m ->
     exists s l, chapter_segments marks total = s :: l /\ seg_start s = m_ts m) /\
  (forall z, last (chapter_segments marks total) = Some z -> seg_end z = total).
Proof.
  induction marks as [|m rest IH]; intros Hs.
  { split_and!; try done; constructor. }
  apply StronglySorted_cons in Hs as [Hm Hs].
  destruct (IH Hs) as (Hc & Hch & Hpos & Hhead & Hlast). clear IH.
  rewrite chapter_segments_cons. destruct rest as [|m' rest].
  - cbn [chapter_segments]. split_and!.
    + done.
    + constructor; [apply is_chapter_label | done].
    + constructor.
    + intros m0 [= <-]. by eexists _, _.
    + by intros z [= <-].
  - destruct (Hhead m' eq_refl) as (s' & l' & E & Hst).
    rewrite E in *.
    apply Forall_cons in Hm as [Hmm' _]. unfold key_le in Hmm'.
    split_and!.
    + cbn [contiguous seg_end]. by rewrite Hst.
    + constructor; [apply is_chapter_label | done].
    + rewrite removelast_cons2. constructor; [|done].
      unfold nonneg, duration. cbn [seg_start seg_end]. lra.
    + intros m0 [= <-]. by eexists _, _.
    + intros z Hz. apply Hlast. by rewrite last_cons_cons in Hz.
Qed.

Section Truncate.
Variable b : Q.

(** Cutting keeps the labels. *)
Lemma truncate_at_chapters (l : list segment) :
  Forall (fun s => is_chapter s = true) l ->
  Forall (fun s => is_chapter s = true) (truncate_at b l).
Proof using Type.
  induction 1 as [|s l Hs _ IH]; [done|]. cbn [truncate_at].
  destruct (Qleb _ _); [done|]. destruct (_ && _); by constructor.
Qed.

(** Starts ascend along a contiguous list, so once a segment starts at
    or after [back_start] the rest of the list goes. *)
Lemma truncate_at_late (l : list segment) :
  contiguous l -> Forall nonneg (removelast l) ->
  (forall s, head l = Some s -> b <= seg_start s) ->
  truncate_at b l = [].
Proof using Type.
  induction l as [|s l IH]; [done|]. intros Hc Hpos Hb.
  cbn [truncate_at]. specialize (Hb s eq_refl).
  apply Qleb_le in Hb as Hb'. rewrite Hb'.
  destruct l as [|s2 l]; [done|]. destruct Hc as [Hss Hc].
  rewrite removelast_cons2 in Hpos. apply Forall_cons in Hpos as [Hs Hpos].
  apply IH; [done..|]. intros ? [= <-].
  unfold nonneg, duration in Hs. lra.
Qed.

(** What remains after the cut is contiguous, has no negative length
    before its last segment, starts where the list started, and, when
    [back_start] is before the end of the list, ends at [back_start]. *)
Lemma truncate_at_shape (l : list segment) :
  contiguous l -> Forall nonneg (removelast l) ->
  contiguous (truncate_at b l) /\
  Forall nonneg (removelast (truncate_at b l)) /\
  (forall s, head l = Some s -> seg_start s < b ->
     exists s' t, truncate_at b l = s' :: t /\ seg_start s' = seg_start s) /\
  (forall z, last l = Some z -> b < seg_end z ->
     Forall nonneg (truncate_at b l) /\
     forall p, last (truncate_at b l) = Some p -> seg_end p == b).
Proof using Type.
  induction l as [|s l IH]; intros Hc Hpos.
  { split_and!; try done. }
  cbn [truncate_at]. case_Q.
  { (* everything from here on is dropped *)
    rewrite truncate_at_late.
    - split_and!; try done. intros s0 [= <-] ?. lra.
    - by eapply contiguous_tail.
    - destruct l as [|s2 l]; [constructor|].
      rewrite removelast_cons2 in Hpos. by apply Forall_cons in Hpos as [_ ?].
    - intros s2 Hs2. destruct l as [|s2' l]; [done|]. injection Hs2 as <-.
      destruct Hc as [Hss _]. rewrite removelast_cons2 in Hpos.
      apply Forall_cons in Hpos as [Hs _]. unfold nonneg, duration in Hs. lra. }
  destruct l as [|s2 l].
  - (* the last segment of the list *)
    cbn [truncate_at]. destruct (_ && _) eqn:Ecut.
    + apply andb_true_iff in Ecut as [H1%Qltb_lt H2%Qltb_lt].
      split_and!; try done.
      * intros s0 [= <-] _. by eexists _, _.
      * intros z _ _. split; [|by intros p [= <-]].
        repeat constructor. unfold nonneg, duration. cbn [seg_start seg_end]. lra.
    + split_and!; try done.
      * intros s0 [= <-] _. by eexists _, _.
      * intros z [= <-] Hz. exfalso.
        apply andb_false_iff in Ecut as [E|E]; apply Qltb_ge in E; lra.
  - destruct Hc as [Hss Hc]. rewrite removelast_cons2 in Hpos.
    apply Forall_cons in Hpos as [Hs Hpos].
    destruct (IH Hc Hpos) as (IHc & IHpos & IHhead & IHlast). clear IH.
    destruct (Qlt_le_dec (seg_start s2) b) as [Hs2|Hs2].
    + (* the next segment stays: this one is not cut *)
      destruct (IHhead s2 eq_refl Hs2) as (s2' & t & E & Hst).
      assert (Ecut : Qltb (seg_start s) b && Qltb b (seg_end s) = false).
      { apply andb_false_iff. right. apply Qltb_ge. lra. }
      rewrite Ecut, E in *. split_and!.
      * cbn [contiguous]. by rewrite Hst.
      * rewrite removelast_cons2. by constructor.
      * intros s0 [= <-] _. by eexists _, _.
      * intros z Hz Hbz. rewrite last_cons_cons in Hz.
        destruct (IHlast z Hz Hbz) as [IHl1 IHl2]. split.
        -- by constructor.
        -- intros p Hp. rewrite last_cons_cons in Hp. by apply IHl2.
    + (* the next segment goes: this one ends at [back_start] *)
      assert (Elate : truncate_at b (s2 :: l) = []).
      { apply truncate_at_late; [done | done |]. by intros ? [= <-]. }
      rewrite Elate. unfold nonneg, duration in Hs.
      destruct (_ && _) eqn:Ecut.
      * split_and!; try done.
        -- intros s0 [= <-] _. by eexists _, _.
        -- intros z _ _. split; [|by intros p [= <-]].
           repeat constructor. unfold nonneg, duration. cbn [seg_start seg_end]. lra.
      * assert (Hend : seg_end s == b).
        { apply andb_false_iff in Ecut as [E|E]; apply Qltb_ge in E; lra. }
        split_and!; try done.
        -- intros s0 [= <-] _. by eexists _, _.
        -- intros z _ _. split; [|by intros p [= <-]].
           repeat constructor. unfold nonneg, duration. lra.
Qed.
End Truncate.

Lemma Forall_removelast {A : Type} (P : A -> Prop) (l : list A) :
  Forall P l -> Forall P (removelast l).
Proof.
  destruct (snoc_cases l) as [->|(init & z & ->)]; [done|].
  rewrite removelast_last. by intros [? _]%Forall_app.
Qed.

Lemma truncate_at_tail_chapters (b : Q) (l : list segment) :
  Forall (fun s => is_chapter s = true) (tail l) ->
  Forall (fun s => is_chapter s = true) (tail (truncate_at b l)).
Proof.
  destruct l as [|x l]; [done|]. cbn [tail truncate_at]. intros Hl.
  pose proof (truncate_at_chapters b l Hl) as Ht.
  destruct (Qleb _ _); [by apply Forall_tail|].
  by destruct (_ && _).
Qed.

(** Step 6 on time-ordered marks: the segments are contiguous, none but
    the last can have a negative length, and all but the first and the
    last are chapters. *)
Lemma build_segments_shape (marks : list mark) (back_start : option Q)
    (total : Q) :
  StronglySorted (key_le m_ts) marks ->
  contiguous (build_segments marks back_start total) /\
  Forall nonneg (removelast (build_segments marks back_start total)) /\
  Forall (fun s => is_chapter s = true)
    (removelast (tail (build_segments marks back_start total))).
Proof.
  intros Hs. unfold build_segments. destruct marks as [|m rest].
  { destruct back_start as [b|]; [|by split_and!].
    destruct (_ && _) eqn:E; [|by split_and!].
    apply andb_true_iff in E as [_ Hb%Qltb_lt]. split_and!.
    - cbn. split; [reflexivity | done].
    - repeat constructor. unfold nonneg, duration. cbn [seg_start seg_end]. lra.
    - constructor. }
  destruct (chapter_segments_shape (m :: rest) total Hs)
    as (Hc & Hch & Hpos & Hhead & Hlast).
  destruct (Hhead m eq_refl) as (s & l & E & Hst).
  set (pre := if Qltb (fl 0.2) (m_ts m)
              then [Segment 0 (m_ts m) "preface"] else []).
  pose proof (fl_nonneg 0.2 ltac:(lra)) as Hfifth.
  assert (H0 : contiguous (pre ++ chapter_segments (m :: rest) total) /\
               Forall nonneg
                 (removelast (pre ++ chapter_segments (m :: rest) total)) /\
               Forall (fun s => is_chapter s = true)
                 (tail (pre ++ chapter_segments (m :: rest) total)) /\
               exists z, last (pre ++ chapter_segments (m :: rest) total) = Some z
                         /\ seg_end z = total).
  { assert (Hz : exists z, last (chapter_segments (m :: rest) total) = Some z).
    { rewrite E. destruct (last (s :: l)) eqn:El; [by eexists|].
      by apply last_None in El. }
    destruct Hz as [z Hz]. specialize (Hlast z Hz).
    unfold pre. rewrite E in *. case_Q; cbn [app].
    - split_and!.
      + cbn [contiguous seg_end]. by rewrite Hst.
      + rewrite removelast_cons2. constructor; [|done].
        unfold nonneg, duration. cbn [seg_start seg_end]. lra.
      + done.
      + exists z. by rewrite last_cons_cons.
    - split_and!; [done | done | by apply Forall_tail | by exists z]. }
  destruct H0 as (H0c & H0pos & H0ch & z & H0z & H0end).
  fold pre. generalize dependent (pre ++ chapter_segments (m :: rest) total).
  intros l0 H0c H0pos H0ch H0z.
  destruct back_start as [b|].
  2: { split_and!; [done | done | by apply Forall_removelast]. }
  destruct (truncate_at_shape b l0 H0c H0pos) as (Tc & Tpos & _ & Tlast).
  pose proof (truncate_at_tail_chapters b l0 H0ch) as Tch.
  case_Q.
  - destruct (Tlast z H0z) as [Tall Tend].
    { rewrite H0end. apply fsub_pos. lra. }
    split_and!.
    + apply contiguous_snoc; [done|]. intros p Hp. by apply Tend.
    + by rewrite removelast_last.
    + destruct (truncate_at b l0) as [|x t]; [constructor|].
      cbn [app tail] in *. by rewrite removelast_last.
  - rewrite app_nil_r. split_and!; [done | done | by apply Forall_removelast].
Qed.

(** C2 (as amended): no segment of the final list is shorter than one
    second; and when [min_chapter_duration] is at least one second,
    consecutive segments of the final list are contiguous. *)
Theorem segments_long_and_contiguous (a : args) (silences : list interval)
    (raw_candidates : list candidate) (total_duration : Q) :
  (forall s,
     s ∈ segments_of_run a silences raw_candidates total_duration ->
     1 <= duration s) /\
  (1 <= min_chapter_duration a ->
   forall i s1 s2,
     segments_of_run a silences raw_candidates total_duration !! i = Some s1 ->
     segments_of_run a silences raw_candidates total_duration !! S i = Some s2 ->
     seg_end s1 == seg_start s2).
Proof.
  unfold segments_of_run, make_segments, drop_microscopic, drop_short. split.
  - intros s [Hs _]%list_elem_of_filter. by apply Qleb_le.
  - intros Hmin i s1 s2. apply contiguous_lookup.
    rewrite list_filter_filter.
    destruct (build_segments_shape
                (final_marks a silences raw_candidates)
                (find_back_start a silences raw_candidates) total_duration)
      as (Hc & Hpos & Hch).
    { apply (spaced_ascending a), final_marks_spaced. }
    destruct (absorb_short_solid (min_chapter_duration a) _ Hc Hpos Hch)
      as [Hcc Hlong].
    apply filter_contiguous; [done|].
    eapply Forall_impl; [exact Hlong|]. intros s Hs. unfold long in Hs. split.
    + apply Qleb_le. lra.
    + apply andb_false_iff. right. apply Qltb_ge.
      pose proof (fl_half_le _ Hmin) as Hhalf.
      unfold py_max. case_Q; lra.
Qed.

Lemma segments_long_and_contiguous_witness :
  let a := default_args in
  let raw := [Candidate chapter 10 11 (Some 1%N);
              Candidate chapter 200 201 (Some 2%N)] in
  segments_of_run a [] raw 1000
    = [Segment 0 10 "preface"; Segment 10 200 "chapter_1";
       Segment 200 1000 "chapter_2"] /\
  10 == 10.
Proof.
  intros a raw. split; [reflexivity|].
  apply (proj2 (segments_long_and_contiguous a [] raw 1000)) with (i := 0%nat)
    (s1 := Segment 0 10 "preface") (s2 := Segment 10 200 "chapter_1").
  - vm_compute. discriminate.
  - reflexivity.
  - reflexivity.
Defined.

(** C2 as stated fails: with [min_chapter_duration] below one second a
    chapter of half a second survives the first loop of step 7 and is
    dropped by the second, which leaves a gap between its neighbours. *)
Lemma segments_gap_with_small_min_duration :
  let a :=
    {| conf_min := 0.35; sequential_chapters := false;
       min_chapter_gap := 0.5; min_chapter_duration := 0;
       silence_pre := 0.6; silence_post := 0.8 |} in
  let raw := [Candidate chapter 10 10.4 (Some 1%N);
              Candidate chapter 10.5 10.9 (Some 2%N)] in
  segments_of_run a [] raw 100
    = [Segment 0 10 "preface"; Segment 10.5 100 "chapter_2"] /\
  ~ seg_end (Segment 0 10 "preface") == seg_start (Segment 10.5 100 "chapter_2").
Proof.
  split; [reflexivity|]. cbn [seg_start seg_end]. intros H. lra.
Qed.

(** * Further properties of the code *)

(** ** Grammar *)

(** X1: Different numbers are never spoken alike, in either language. *)
Theorem cardinals_differ (language : string) (n m : N) :
  n <> m -> cardinal_of language n <> cardinal_of language m.
Proof.
  intros Hne E. apply Hne. unfold cardinal_of in E.
  destruct (String.eqb language "ru").
  - by apply russian_cardinal_inj.
  - by apply english_cardinal_inj.
Qed.

Lemma cardinals_differ_witness :
  cardinal_of "en" 14 <> cardinal_of "en" 40
  /\ cardinal_of "ru" 12 <> cardinal_of "ru" 20.
Proof.
  split; apply cardinals_differ; discriminate.
Defined.

(** X2: For Russian, without ordinals, or below 200 chapters the grammar is
    built, and its reverse mapping sends the cardinal of every number of
    the range back to that number. *)
Theorem build_phrase_map_cardinals (fuel : nat) (language trigger : string)
    (max_chapters : Z) (include_ordinals : bool) :
  (3 <= fuel)%nat ->
  language = "ru" \/ include_ordinals = false \/ (max_chapters < 200)%Z ->
  exists g,
    build_phrase_map fuel language trigger max_chapters include_ordinals = Ok g
    /\ forall n, (1 <= n)%N -> (Z.of_N n <= max_chapters)%Z ->
                 g.2 !! cardinal_of language n = Some n.
Proof.
  intros Hfuel Hcase.
  destruct (build_phrase_map_returns fuel language trigger max_chapters
              include_ordinals Hfuel Hcase) as [g Hg].
  exists g. split; [done|]. intros n H1 H2.
  by eapply build_phrase_map_roundtrip.
Qed.

Lemma build_phrase_map_cardinals_witness :
  exists g,
    build_phrase_map 3 "en" "chapter" 120 true = Ok g
    /\ g.2 !! cardinal_of "en" 117 = Some 117%N.
Proof.
  destruct (build_phrase_map_cardinals 3 "en" "chapter" 120 true)
    as (g & Hg & Hround); [lia | right; right; lia |].
  exists g. split; [done|]. apply Hround; lia.
Defined.

(** X3: The English ordinal generator answers with an ordinal for every number
    from 1 to 999 that is not a round hundred above 100, at any depth of
    stack from three on, and with none from 1000 on. *)
Theorem english_ordinal_basic_coverage (fuel : nat) (n : N) :
  (3 <= fuel)%nat -> (1 <= n)%N -> n ∉ round_hundreds ->
  if (n <? 1000)%N
  then exists s, english_ordinal_basic fuel n = Ok (Some s)
  else english_ordinal_basic fuel n = Ok None.
Proof.
  intros Hfuel Hn Hround. destruct (N.ltb_spec n 1000) as [Hlt|Hge].
  - pose proof english_ordinals_classified as Hc.
    rewrite forallb_forall in Hc. specialize (Hc n (below_1000_elem n Hlt)).
    unfold ordinal_classified in Hc.
    destruct (english_ordinal_basic 3 n) as [[s|]|e] eqn:E.
    + exists s. by apply (english_ordinal_basic_fuel_le 3 fuel).
    + exfalso. clear Hc. revert E.
      assert (Hall : forallb
                (fun k => match english_ordinal_basic 3 k with
                          | Ok None => (k =? 0)%N
                          | _ => true
                          end) below_1000 = true) by (vm_compute; reflexivity).
      rewrite forallb_forall in Hall. specialize (Hall n (below_1000_elem n Hlt)).
      cbv beta in Hall. intros E. rewrite E in Hall.
      apply N.eqb_eq in Hall. lia.
    + apply bool_decide_eq_true in Hc.
      apply elem_of_cons in Hc as [->|Hc]; [lia | done].
  - destruct fuel as [|fuel]; [lia|].
    rewrite english_ordinal_basic_S, en_base_above by lia.
    unfold english_ordinal_hundreds.
    destruct (N.ltb_spec n 100); [lia|]. by destruct (N.ltb_spec n 1000); [lia|].
Qed.

Lemma english_ordinal_basic_coverage_witness :
  (exists s, english_ordinal_basic 3 121 = Ok (Some s))
  /\ english_ordinal_basic 3 1000 = Ok None.
Proof.
  split.
  - apply (english_ordinal_basic_coverage 3 121); [lia | lia |].
    unfold round_hundreds. rewrite !elem_of_cons, elem_of_nil. lia.
  - apply (english_ordinal_basic_coverage 3 1000); [lia | lia |].
    unfold round_hundreds. rewrite !elem_of_cons, elem_of_nil. lia.
Defined.

(** Ordinals, like cardinals, are tabulated below 1000: no two numbers
    share one, and none is the empty string. *)
Lemma ordinal_table_elem (ordinal : N -> py (option string)) (m : N)
    (s : string) :
  (m < 1000)%N -> ordinal m = Ok (Some s) -> In (m, s) (ordinal_table ordinal).
Proof.
  intros Hm Hs. apply list_elem_of_In, list_elem_of_omap. exists m.
  split; [by apply list_elem_of_In, below_1000_elem | by rewrite Hs].
Qed.

Lemma english_ordinal_table_distinct :
  table_distinct (ordinal_table (english_ordinal_basic 3)) = true.
Proof. vm_compute. reflexivity. Qed.

Lemma english_ordinal_table_nonempty :
  table_nonempty (ordinal_table (english_ordinal_basic 3)) = true.
Proof. vm_compute. reflexivity. Qed.

Lemma russian_ordinal_table_distinct :
  table_distinct (ordinal_table (fun n => Ok (russian_ordinal_basic n))) = true.
Proof. vm_compute. reflexivity. Qed.

Lemma russian_ordinal_table_nonempty :
  table_nonempty (ordinal_table (fun n => Ok (russian_ordinal_basic n))) = true.
Proof. vm_compute. reflexivity. Qed.

Lemma table_nonempty_spec (t : list (N * string)) (x : N * string) :
  table_nonempty t = true -> In x t -> x.2 <> "".
Proof.
  unfold table_nonempty. rewrite forallb_forall. intros H Hx E.
  specialize (H x Hx). by rewrite E in H.
Qed.

Lemma english_ordinal_table_row (fuel : nat) (m : N) (s : string) :
  english_ordinal_basic fuel m = Ok (Some s) ->
  In (m, s) (ordinal_table (english_ordinal_basic 3)).
Proof.
  intros Hs. destruct (N.ltb_spec m 1000) as [Hm|Hm].
  - apply ordinal_table_elem; [done|]. by eapply english_ordinal_basic_depth3.
  - exfalso. pose proof (english_ordinal_basic_above fuel m _ Hm Hs) as Habs.
    discriminate Habs.
Qed.

Lemma russian_ordinal_table_row (m : N) (s : string) :
  russian_ordinal_basic m = Some s ->
  In (m, s) (ordinal_table (fun n => Ok (russian_ordinal_basic n))).
Proof.
  intros Hs. destruct (N.ltb_spec m 1000) as [Hm|Hm].
  - apply ordinal_table_elem; [done | by rewrite Hs].
  - exfalso. unfold russian_ordinal_basic in Hs.
    rewrite ru_base_above in Hs by lia. discriminate Hs.
Qed.

Lemma ordinal_of_row (fuel : nat) (language : string) (m : N) (s : string) :
  ordinal_of fuel language m = Ok (Some s) ->
  exists t, table_distinct t = true /\ table_nonempty t = true /\
            forall m' s', ordinal_of fuel language m' = Ok (Some s') ->
                          In (m', s') t.
Proof.
  intros _. unfold ordinal_of. destruct (String.eqb language "ru").
  - exists (ordinal_table (fun n => Ok (russian_ordinal_basic n))).
    split; [apply russian_ordinal_table_distinct|].
    split; [apply russian_ordinal_table_nonempty|].
    intros m' s' [= Hs]. by apply russian_ordinal_table_row.
  - exists (ordinal_table (english_ordinal_basic 3)).
    split; [apply english_ordinal_table_distinct|].
    split; [apply english_ordinal_table_nonempty|].
    intros m' s'. apply english_ordinal_table_row.
Qed.

(** The loop invariant for the ordinals: once the ordinal of [k] is
    mapped to [k], later iterations leave it so. *)
Section OrdinalRoundtrip.
Variable cardinal : N -> string.
Variable ordinal : N -> py (option string).
Variable trigger : string.

Hypothesis ordinal_inj :
  forall m1 m2 s,
    ordinal m1 = Ok (Some s) -> ordinal m2 = Ok (Some s) -> m1 = m2.
Hypothesis ordinal_fresh :
  forall m s n, ordinal m = Ok (Some s) -> s <> cardinal n.

Let step := phrase_step cardinal ordinal trigger true.

Lemma phrase_step_keeps_ordinal (g g' : grammar) (n k : N) (s : string) :
  ordinal k = Ok (Some s) ->
  step g n = Ok g' -> g.2 !! s = Some k -> g'.2 !! s = Some k.
Proof using ordinal_inj ordinal_fresh.
  unfold step, phrase_step. intros Hk Hstep Hs.
  assert (Hc : <[cardinal n := n]> g.2 !! s = Some k).
  { rewrite lookup_insert_ne; [done|]. intros E. by eapply ordinal_fresh. }
  destruct (ordinal n) as [[s'|]|] eqn:E; [| |discriminate];
    rewrite py_bind_ok in Hstep.
  - destruct (truthy (Some s')) eqn:Et; injection Hstep as <-; [|done].
    pose proof (or_else_truthy s' "" Et) as Ho. cbn [or_else] in Ho.
    rewrite Ho. cbn [snd].
    destruct (decide (s' = s)) as [->|Hne].
    + rewrite lookup_insert_eq. f_equal. by eapply ordinal_inj.
    + by rewrite lookup_insert_ne.
  - by injection Hstep as <-.
Qed.

Lemma phrase_step_sets_ordinal (g g' : grammar) (k : N) (s : string) :
  ordinal k = Ok (Some s) -> s <> "" ->
  step g k = Ok g' -> g'.2 !! s = Some k.
Proof using Type.
  unfold step, phrase_step. intros Hk Hs Hstep. rewrite Hk, py_bind_ok in Hstep.
  assert (Et : truthy (Some s) = true).
  { cbn [truthy]. apply negb_true_iff. by apply String.eqb_neq. }
  rewrite Et in Hstep. injection Hstep as <-.
  pose proof (or_else_truthy s "" Et) as Ho. cbn [or_else] in Ho.
  rewrite Ho. cbn [snd]. apply lookup_insert_eq.
Qed.

Lemma for_each_ordinals (l : list N) :
  forall g g' k s,
    ordinal k = Ok (Some s) -> s <> "" ->
    for_each step l g = Ok g' ->
    k ∈ l \/ g.2 !! s = Some k ->
    g'.2 !! s = Some k.
Proof using ordinal_inj ordinal_fresh.
  induction l as [|n l IH]; intros g g' k s Hk Hs Hrun Hin.
  - injection Hrun as <-. destruct Hin as [Hin|Hin]; [inversion Hin | done].
  - simpl in Hrun. destruct (step g n) as [g1|] eqn:E; [|discriminate].
    rewrite py_bind_ok in Hrun. apply (IH g1 g' k s Hk Hs Hrun).
    destruct Hin as [Hin|Hin].
    + apply elem_of_cons in Hin as [->|Hin]; [right | by left].
      by eapply phrase_step_sets_ordinal.
    + right. by eapply phrase_step_keeps_ordinal.
Qed.
End OrdinalRoundtrip.

(** X4: When the grammar is built with ordinals, its reverse mapping sends
    the ordinal of every number of the range that has one back to that
    number. *)
Theorem build_phrase_map_ordinals (fuel : nat) (language trigger : string)
    (max_chapters : Z) (g : grammar) (n : N) (s : string) :
  build_phrase_map fuel language trigger max_chapters true = Ok g ->
  (1 <= n)%N -> (Z.of_N n <= max_chapters)%Z ->
  ordinal_of fuel language n = Ok (Some s) ->
  g.2 !! s = Some n.
Proof.
  unfold build_phrase_map. intros Hb H1 H2 Hs.
  assert (Hn : n ∈ chapter_range max_chapters) by by apply chapter_range_elem.
  destruct (ordinal_of_row fuel language n s Hs) as (t & Hd & Hne & Hrow).
  assert (Hs' : s <> "").
  { apply (table_nonempty_spec t (n, s) Hne). by apply Hrow. }
  assert (Hinj : forall m1 m2 s0,
    ordinal_of fuel language m1 = Ok (Some s0) ->
    ordinal_of fuel language m2 = Ok (Some s0) -> m1 = m2).
  { intros m1 m2 s0 Hm1 Hm2.
    apply (table_distinct_spec t (m1, s0) (m2, s0) Hd); auto. }
  unfold ordinal_of in Hs, Hinj. destruct (String.eqb language "ru").
  - destruct (for_each _ _ _) as [g0|] eqn:E; [|discriminate].
    rewrite py_bind_ok in Hb. injection Hb as <-. cbn [snd].
    eapply (for_each_ordinals russian_cardinal); [| | | |exact E|by left];
      [exact Hinj | | exact Hs | exact Hs'].
    intros m s0 k [= Hm]. by apply (russian_ordinal_fresh m).
  - destruct (for_each _ _ _) as [g0|] eqn:E; [|discriminate].
    rewrite py_bind_ok in Hb. injection Hb as <-. cbn [snd].
    eapply (for_each_ordinals english_cardinal); [| | | |exact E|by left];
      [exact Hinj | | exact Hs | exact Hs'].
    intros m s0 k. apply english_ordinal_fresh.
Qed.

Lemma build_phrase_map_ordinals_witness :
  exists g,
    build_phrase_map 3 "en" "chapter" 30 true = Ok g
    /\ g.2 !! "twenty first" = Some 21%N.
Proof.
  destruct (build_phrase_map_returns 3 "en" "chapter" 30 true) as [g Hg];
    [lia | right; right; lia |].
  exists g. split; [done|].
  apply (build_phrase_map_ordinals 3 "en" "chapter" 30 g 21 "twenty first" Hg);
    [lia | lia | vm_compute; reflexivity].
Defined.

(** The phrases and the reverse mapping are built side by side: what the
    loop keeps true of them. *)
Section GrammarShape.
Variable cardinal : N -> string.
Variable ordinal : N -> py (option string).
Variable trigger : string.
Variable include_ordinals : bool.
Variable range : list N.

Let step := phrase_step cardinal ordinal trigger include_ordinals.

Lemma phrase_step_consistent (g g' : grammar) (n : N) :
  n ∈ range -> step g n = Ok g' ->
  grammar_consistent trigger range g -> grammar_consistent trigger range g'.
Proof using Type.
  intros Hn Hstep [Hph Hmap].
  assert (Hcard : grammar_consistent trigger range
            ((g.1 ++ [trigger +:+ " " +:+ cardinal n])%list,
             <[cardinal n := n]> g.2)).
  { split; cbn [fst snd].
    - intros p [Hp|Hp%list_elem_of_singleton]%elem_of_app.
      + destruct (Hph p Hp) as (w & -> & Hw). exists w. split; [done|].
        rewrite lookup_insert. case_decide; [by eexists | done].
      + exists (cardinal n). split; [done|]. rewrite lookup_insert_eq. by eexists.
    - intros w v. rewrite lookup_insert. case_decide as E.
      + intros [= <-]. subst w. split; [done|].
        apply elem_of_app. right. by apply list_elem_of_singleton.
      + intros Hw. destruct (Hmap w v Hw). split; [done|].
        apply elem_of_app. by left. }
  unfold step, phrase_step in Hstep.
  destruct include_ordinals; [|by injection Hstep as <-].
  destruct (ordinal n) as [[s|]|]; [| |discriminate];
    rewrite py_bind_ok in Hstep.
  2: { by injection Hstep as <-. }
  destruct (truthy (Some s)) eqn:Et; injection Hstep as <-; [|done].
  pose proof (or_else_truthy s "" Et) as Ho. cbn [or_else] in Ho. rewrite Ho.
  destruct Hcard as [Hph' Hmap']. cbn [fst snd] in Hph', Hmap'.
  split; cbn [fst snd].
  - intros p [Hp|Hp%list_elem_of_singleton]%elem_of_app.
    + destruct (Hph' p Hp) as (w & -> & Hw). exists w. split; [done|].
      rewrite lookup_insert. case_decide; [by eexists | done].
    + exists s. split; [done|]. rewrite lookup_insert_eq. by eexists.
  - intros w v. rewrite lookup_insert. case_decide as E.
    + intros [= <-]. subst w. split; [done|].
      apply elem_of_app. right. by apply list_elem_of_singleton.
    + intros Hw. destruct (Hmap' w v Hw). split; [done|].
      apply elem_of_app. by left.
Qed.

Lemma for_each_consistent (l : list N) :
  forall g g',
    (forall n, n ∈ l -> n ∈ range) ->
    for_each step l g = Ok g' ->
    grammar_consistent trigger range g -> grammar_consistent trigger range g'.
Proof using Type.
  induction l as [|n l IH]; intros g g' Hl Hrun Hg.
  - by injection Hrun as <-.
  - simpl in Hrun. destruct (step g n) as [g1|] eqn:E; [|discriminate].
    rewrite py_bind_ok in Hrun. apply (IH g1 g'); [|done|].
    + intros k Hk. apply Hl. by right.
    + eapply phrase_step_consistent; [|exact E|exact Hg].
      apply Hl. by left.
Qed.
End GrammarShape.

(** X5: Whenever the grammar is built, the phrases and the reverse mapping
    agree: every phrase but the bare trigger is the trigger, a space and a
    key of the mapping; every key is mapped to a number of the range and
    has its phrase; and the bare trigger is the last phrase. *)
Theorem build_phrase_map_consistent (fuel : nat) (language trigger : string)
    (max_chapters : Z) (include_ordinals : bool) (g : grammar) :
  build_phrase_map fuel language trigger max_chapters include_ordinals = Ok g ->
  last g.1 = Some trigger /\
  (forall p, p ∈ g.1 ->
     p = trigger \/
     exists w n, p = trigger +:+ " " +:+ w /\ g.2 !! w = Some n) /\
  (forall w n, g.2 !! w = Some n ->
     (1 <= n)%N /\ (Z.of_N n <= max_chapters)%Z /\
     trigger +:+ " " +:+ w ∈ g.1).
Proof.
  unfold build_phrase_map. intros Hb.
  assert (Hg : exists g0, g = ((g0.1 ++ [trigger])%list, g0.2) /\
                grammar_consistent trigger (chapter_range max_chapters) g0).
  { assert (Hinit : grammar_consistent trigger (chapter_range max_chapters)
                       ([], ∅)).
    { split; cbn [fst snd]; [by intros p Hp%elem_of_nil | by intros w v Hw]. }
    destruct (String.eqb language "ru");
      destruct (for_each _ _ _) as [g0|] eqn:E; try discriminate;
      rewrite py_bind_ok in Hb; injection Hb as <-;
      exists g0; (split; [done|]);
      (eapply for_each_consistent; [|exact E|exact Hinit]); done. }
  destruct Hg as (g0 & -> & Hph & Hmap). cbn [fst snd]. split_and!.
  - apply last_snoc.
  - intros p [Hp|Hp%list_elem_of_singleton]%elem_of_app; [right | by left].
    destruct (Hph p Hp) as (w & -> & [n Hn]). by exists w, n.
  - intros w n Hw. destruct (Hmap w n Hw) as [Hn Hp].
    apply chapter_range_elem in Hn as [H1 H2]. split_and!; [done..|].
    apply elem_of_app. by left.
Qed.

Lemma build_phrase_map_consistent_witness :
  exists g,
    build_phrase_map 3 "ru" "глава" 40 true = Ok g /\ last g.1 = Some "глава".
Proof.
  destruct (build_phrase_map_returns 3 "ru" "глава" 40 true) as [g Hg];
    [lia | by left |].
  exists g. split; [done|].
  apply (build_phrase_map_consistent 3 "ru" "глава" 40 true g Hg).
Defined.

(** ** Text *)

Lemma append_cons (c : ascii) (a b : string) :
  String c a +:+ b = String c (a +:+ b).
Proof. reflexivity. Qed.

Lemma append_assoc (a b c : string) : (a +:+ b) +:+ c = a +:+ (b +:+ c).
Proof.
  induction a as [|x a IH]; [done|]. by rewrite !append_cons, IH.
Qed.

(** Induction on a string by one or two bytes at a time. *)
Lemma string_ind2 (P : string -> Prop) :
  P "" -> (forall c, P (String c "")) ->
  (forall c c' s, P s -> P (String c' s) -> P (String c (String c' s))) ->
  forall s, P s.
Proof.
  intros H0 H1 H2 s.
  assert (H : P s /\ forall c, P (String c s)); [|by destruct H].
  induction s as [|c' s [IH1 IH2]]; [by split|].
  split; [apply IH2|]. intros c. by apply H2.
Qed.

Lemma lower_cons2 (c c' : ascii) (s : string) :
  lower (String c (String c' s)) =
  match lower_cyrillic c c' with
  | Some (d, d') => String d (String d' (lower s))
  | None => String (lower_char c) (lower (String c' s))
  end.
Proof. reflexivity. Qed.

(** A byte of ASCII starts no Cyrillic letter. *)
Lemma lower_cyrillic_ascii (c c' : ascii) :
  is_ascii c = true -> lower_cyrillic c c' = None.
Proof. by destruct c as [[] [] [] [] [] [] [] []]. Qed.

Lemma lower_cons_ascii (c : ascii) (s : string) :
  is_ascii c = true -> lower (String c s) = String (lower_char c) (lower s).
Proof.
  intros Hc. destruct s as [|c' s]; [done|].
  by rewrite lower_cons2, lower_cyrillic_ascii.
Qed.

(** A Cyrillic letter is lower-cased as a pair of bytes, whatever
    follows. *)
Lemma lower_cons_cyrillic (c c' : ascii) (s : string) :
  is_ascii c = false -> is_cyrillic c c' = true ->
  exists d d', forall t, lower (String c (String c' t)) = String d (String d' (lower t)).
Proof.
  intros Ha Hc. destruct (lower_cyrillic c c') as [[d d']|] eqn:E.
  - exists d, d'. intros t. by rewrite lower_cons2, E.
  - exists (lower_char c), (lower_char c'). intros t. rewrite lower_cons2, E.
    f_equal. destruct t as [|c'' t]; [done|]. rewrite lower_cons2.
    assert (E' : lower_cyrillic c' c'' = None).
    { unfold lower_cyrillic.
      destruct (Ascii.eqb_spec c' lead_d0) as [->|]; [|done].
      unfold is_cyrillic in Hc. exfalso. revert Hc.
      destruct (Ascii.eqb c lead_d0), (Ascii.eqb c lead_d1); done. }
    by rewrite E'.
Qed.

(** Over the repertoire lower-casing goes letter by letter. *)
Lemma lower_app (a b : string) :
  repertoire a = true -> lower (a +:+ b) = lower a +:+ lower b.
Proof.
  revert a. apply (string_ind2 (fun a =>
    repertoire a = true -> lower (a +:+ b) = lower a +:+ lower b)).
  - done.
  - intros c. cbn [repertoire]. destruct (is_ascii c) eqn:Ec; [|done].
    intros _. change (String c "" +:+ b) with (String c b).
    by rewrite !lower_cons_ascii.
  - intros c c' s IH1 IH2. cbn [repertoire].
    destruct (is_ascii c) eqn:Ec.
    + intros Hr. rewrite append_cons, !(lower_cons_ascii c) by done.
      by rewrite (IH2 Hr).
    + intros [Hc Hr]%andb_true_iff.
      destruct (lower_cons_cyrillic c c' s Ec Hc) as (d & d' & E).
      rewrite !append_cons, (E (s +:+ b)), (E s), !append_cons.
      by rewrite IH1.
Qed.

Lemma lstrip_starts_clean (s : string) : starts_clean s = true -> lstrip s = s.
Proof. destruct s as [|c s]; [done|]. cbn. by intros ->%negb_true_iff. Qed.

Lemma starts_clean_app (a b : string) :
  starts_clean a = true -> starts_clean (a +:+ b) = true.
Proof. by destruct a. Qed.

Lemma rstrip_app (a b : string) :
  rstrip b <> "" -> rstrip (a +:+ b) = a +:+ rstrip b.
Proof.
  intros Hb. induction a as [|x a IH]; [done|].
  rewrite !append_cons. cbn [rstrip]. rewrite IH.
  destruct (a +:+ rstrip b) eqn:E; [|done].
  destruct a; [|discriminate E]. by destruct Hb.
Qed.

Lemma prefix_app (p x : string) : String.prefix p (p +:+ x) = true.
Proof.
  induction p as [|c p IH]; [by destruct x|].
  rewrite append_cons. cbn [String.prefix].
  destruct (ascii_dec c c); [exact IH | done].
Qed.

Lemma drop_chars_app (p : string) (c : ascii) (x : string) :
  drop_chars (String.length p + 1) (p +:+ String c x) = x.
Proof. induction p as [|d p IH]; [done|]. exact IH. Qed.

Lemma length_app_string (a b : string) :
  String.length (a +:+ b) = (String.length a + String.length b)%nat.
Proof.
  induction a as [|x a IH]; [done|].
  rewrite append_cons. cbn [String.length]. by rewrite IH.
Qed.

(** Lower-casing leaves no capital, so a text that went through [lower]
    has no prefix with one. *)
Lemma lower_char_not_upper (c : ascii) : is_upper (lower_char c) = false.
Proof. by destruct c as [[] [] [] [] [] [] [] []]. Qed.

Lemma lower_cyrillic_not_upper (c c' d d' : ascii) :
  lower_cyrillic c c' = Some (d, d') ->
  is_upper d = false /\ is_upper d' = false.
Proof.
  unfold lower_cyrillic. destruct (Ascii.eqb c lead_d0); [|done].
  destruct c' as [[] [] [] [] [] [] [] []]; cbn; intros [= <- <-]; done.
Qed.

Lemma lower_not_upper (s : string) : has_upper (lower s) = false.
Proof.
  induction s as [| |c c' s IH1 IH2] using string_ind2.
  - done.
  - cbn [lower has_upper]. by rewrite lower_char_not_upper.
  - rewrite lower_cons2. destruct (lower_cyrillic c c') as [[d d']|] eqn:E.
    + destruct (lower_cyrillic_not_upper _ _ _ _ E) as [Hd Hd'].
      cbn [has_upper]. by rewrite Hd, Hd', IH1.
    + cbn [has_upper]. by rewrite lower_char_not_upper, IH2.
Qed.

Lemma prefix_has_upper (p q : string) :
  String.prefix p q = true -> has_upper q = false -> has_upper p = false.
Proof.
  revert q. induction p as [|c p IH]; intros q; [done|].
  destruct q as [|d q]; [done|]. cbn [String.prefix has_upper].
  destruct (ascii_dec c d) as [->|]; [|done].
  intros Hp [Hd Hq]%orb_false_iff. by rewrite Hd, (IH q Hp Hq).
Qed.

Lemma prefix_of_lower (p s : string) :
  String.prefix p (lower s) = true -> has_upper p = false.
Proof.
  intros H. by apply (prefix_has_upper p (lower s) H), lower_not_upper.
Qed.


(** Decimal numerals are tidy. *)
Lemma digit_plain (c : ascii) :
  is_digit c = true ->
  is_space c = false /\ lower_char c = c /\ is_ascii c = true.
Proof. by destruct c as [[] [] [] [] [] [] [] []]. Qed.

Lemma all_digits_tidy (s : string) :
  all_digits s = true -> s <> "" -> tidy s = true.
Proof.
  intros Hd Hne.
  assert (Hp : repertoire s = true).
  { induction s as [|c s IH]; [done|]. cbn in Hd |- *.
    apply andb_true_iff in Hd as [Hc Hs].
    destruct (digit_plain c Hc) as (_ & _ & ->). destruct s; [done|].
    by apply IH. }
  assert (Hl : lower s = s).
  { clear Hp. induction s as [|c s IH]; [done|]. cbn [all_digits] in Hd.
    apply andb_true_iff in Hd as [Hc Hs].
    destruct (digit_plain c Hc) as (_ & Hlc & Hac).
    rewrite lower_cons_ascii, Hlc by done. destruct s; [done|].
    by rewrite IH. }
  assert (Hr : rstrip s = s).
  { clear Hl Hp. induction s as [|c s IH]; [done|]. cbn in Hd |- *.
    apply andb_true_iff in Hd as [Hc Hs].
    destruct (digit_plain c Hc) as (-> & _ & _). destruct s as [|d s]; [done|].
    by rewrite IH. }
  assert (Hf : lstrip s = s).
  { destruct s as [|c s]; [done|]. cbn in Hd |- *.
    apply andb_true_iff in Hd as [Hc _].
    by destruct (digit_plain c Hc) as (-> & _ & _). }
  unfold tidy. rewrite Hp, Hl, Hr, Hf, !String.eqb_refl. cbn.
  apply negb_true_iff. by apply String.eqb_neq.
Qed.

Lemma string_of_uint_digits (d : Decimal.uint) :
  all_digits (NilEmpty.string_of_uint d) = true.
Proof. induction d; cbn; done. Qed.

Lemma str_all_digits (n : N) : all_digits (str n) = true.
Proof.
  unfold str, NilZero.string_of_uint.
  destruct (N.to_uint n); try apply string_of_uint_digits. done.
Qed.

Lemma str_nonempty (n : N) : str n <> "".
Proof.
  intros E. pose proof (str_starts_with_digit n) as H. by rewrite E in H.
Qed.

Lemma str_isdigit (n : N) : isdigit (str n) = true.
Proof.
  unfold isdigit. rewrite str_all_digits, andb_true_r.
  apply negb_true_iff, String.eqb_neq, str_nonempty.
Qed.

(** [int(str(n))] is [n], for a numeral that [int] converts. *)
Lemma int_of_str_str (n : N) :
  (String.length (str n) <= int_max_str_digits)%nat ->
  int_of_str (str n) = Ok n.
Proof.
  intros Hlen. unfold int_of_str.
  apply Nat.ltb_ge in Hlen. rewrite Hlen. clear Hlen.
  pose proof (NilZero.usu _ (to_uint_nonnil n)) as Hu. fold (str n) in Hu.
  unfold NilZero.uint_of_string in Hu.
  pose proof (str_nonempty n) as Hne.
  destruct (str n) eqn:E; [done|]. rewrite Hu.
  by rewrite DecimalN.Unsigned.of_to.
Qed.

(** The spoken cardinals are tidy. *)
Lemma english_table_tidy : table_tidy (cardinal_table english_cardinal) = true.
Proof. vm_compute. reflexivity. Qed.

Lemma russian_table_tidy : table_tidy (cardinal_table russian_cardinal) = true.
Proof. vm_compute. reflexivity. Qed.

Lemma cardinal_tidy (language : string) (n : N) :
  tidy (cardinal_of language n) = true.
Proof.
  assert (Htab : forall cardinal,
    table_tidy (cardinal_table cardinal) = true ->
    (forall k, (1000 <= k)%N -> cardinal k = str k) ->
    tidy (cardinal n) = true).
  { intros cardinal Ht Habove. destruct (N.ltb_spec n 1000) as [Hn|Hn].
    - unfold table_tidy in Ht. rewrite forallb_forall in Ht.
      apply (Ht (n, cardinal n)). by apply cardinal_table_elem.
    - rewrite (Habove n Hn).
      apply all_digits_tidy; [apply str_all_digits | apply str_nonempty]. }
  unfold cardinal_of. destruct (String.eqb language "ru").
  - exact (Htab russian_cardinal russian_table_tidy russian_cardinal_above).
  - exact (Htab english_cardinal english_table_tidy english_cardinal_above).
Qed.

Lemma tidy_spec (s : string) :
  tidy s = true -> lower s = s /\ lstrip s = s /\ rstrip s = s /\ s <> "".
Proof.
  unfold tidy. rewrite !andb_true_iff, negb_true_iff.
  intros [[[[_ Hl] Hf] Hr] Hn].
  apply String.eqb_eq in Hl, Hf, Hr. by apply String.eqb_neq in Hn.
Qed.

Lemma has_upper_app (a b : string) :
  has_upper (a +:+ b) = has_upper a || has_upper b.
Proof.
  induction a as [|x a IH]; [done|].
  rewrite append_cons. cbn [has_upper]. by rewrite IH, orb_assoc.
Qed.

(** A phrase made of a clean lower-case trigger over the repertoire, a
    space and a tidy word is the text that [parse_phrase] reads from
    it. *)
Lemma text_of_phrase (trigger w : string) :
  repertoire trigger = true ->
  starts_clean trigger = true -> lower trigger = trigger -> tidy w = true ->
  lower (strip (trigger +:+ " " +:+ w)) = trigger +:+ " " +:+ w.
Proof.
  intros Hp Hc Hl (Hlw & _ & Hrw & Hnw)%tidy_spec. unfold strip.
  rewrite (lstrip_starts_clean _ (starts_clean_app _ _ Hc)).
  assert (Hr : rstrip (" " +:+ w) = " " +:+ w).
  { rewrite rstrip_app; [by rewrite Hrw | by rewrite Hrw]. }
  rewrite rstrip_app; [|by rewrite Hr].
  rewrite Hr, (lower_app _ _ Hp), Hl.
  change (" " +:+ w) with (String " " w).
  by rewrite lower_cons_ascii, Hlw.
Qed.

(** ** The parser, further *)

Lemma fold_max_end_ge (ws : list word) (q : Q) :
  q <= fold_left (fun best w' => py_max best (default 0 (w_end w'))) ws q /\
  forall w, w ∈ ws ->
    default 0 (w_end w)
    <= fold_left (fun best w' => py_max best (default 0 (w_end w'))) ws q.
Proof.
  revert q. induction ws as [|w0 ws IH]; intros q.
  { split; [apply Qle_refl | by intros w Hw%elem_of_nil]. }
  cbn [fold_left]. destruct (IH (py_max q (default 0 (w_end w0)))) as [Hq Hws].
  assert (Hmax : q <= py_max q (default 0 (w_end w0)) /\
                 default 0 (w_end w0) <= py_max q (default 0 (w_end w0))).
  { unfold py_max. case_Q; split; lra. }
  split; [lra|]. intros w [->|Hw]%elem_of_cons; [lra | by apply Hws].
Qed.

Lemma max_end_ge (ws : list word) (te : Q) :
  max_end ws = Some te ->
  forall w, w ∈ ws -> default 0 (w_end w) <= te.
Proof.
  destruct ws as [|w0 ws]; [done|]. cbn [max_end]. intros [= <-] w Hw.
  destruct (fold_max_end_ge ws (default 0 (w_end w0))) as [Hq Hws].
  apply elem_of_cons in Hw as [->|Hw]; [done | by apply Hws].
Qed.

Section ParserMore.
Variable a : args.
Variable trigger : string.
Variable back_trigger : option string.
Variable spoken_to_int : gmap string N.

Let parse := parse_phrase a trigger back_trigger spoken_to_int.

(** What a chapter candidate carries. *)
Lemma parse_phrase_chapter (r : res_obj) ts te n ok :
  parse r = Ok (Some chapter, ts, te, n, ok) ->
  ok = true /\
  conf_all (conf_min a) (words_of r) = true /\
  String.prefix (trigger +:+ " ") (text_of r) = true /\
  (exists w ws, words_of r = w :: ws /\ ts = w_start w /\ is_Some ts) /\
  (exists t, te = Some t /\ max_end (words_of r) = Some t) /\
  (exists k, n = Some k /\ k <> 0%N).
Proof using Type.
  unfold parse, parse_phrase, words_of, text_of, nothing.
  destruct (_ || _); [discriminate|].
  destruct (conf_all _ _); [|discriminate].
  destruct (default [] (r_result r)) as [|w ws] eqn:Ew; [discriminate|].
  destruct (w_start w) as [ts'|] eqn:Es; [|discriminate].
  destruct (max_end _) as [te'|] eqn:Ee; [|discriminate].
  destruct (match back_trigger with Some _ => _ | None => _ end); [discriminate|].
  destruct (String.eqb _ trigger); [discriminate|].
  destruct (String.prefix _ _); [|discriminate].
  assert (Hfin : forall o : option N,
    match o with
    | Some k =>
      if negb (k =? 0)%N
      then Ok (Some chapter, Some ts', Some te', Some k, true)
      else Ok (None, None, None, None, true)
    | None => Ok (None, None, None, None, true)
    end = Ok (Some chapter, ts, te, n, ok) ->
    ok = true /\ true = true /\ true = true /\
    (exists w0 ws0, w :: ws = w0 :: ws0 /\ ts = w_start w0 /\ is_Some ts) /\
    (exists t, te = Some t /\ Some te' = Some t) /\
    (exists k, n = Some k /\ k <> 0%N)).
  { intros [k|]; [|discriminate].
    destruct (N.eqb_spec k 0); [discriminate|]. intros [= <- <- <- <-].
    split_and!; try done.
    - exists w, ws. by rewrite Es.
    - by exists te'.
    - by exists k. }
  destruct (spoken_to_int !! _) as [k|].
  - rewrite py_bind_ok. apply (Hfin (Some k)).
  - destruct (isdigit _) eqn:Ed.
    + destruct (int_of_str_isdigit _ Ed) as [k ->].
      destruct (_ <? _)%nat; [discriminate|].
      rewrite !py_bind_ok. apply (Hfin (Some k)).
    + rewrite py_bind_ok. apply (Hfin None).
Qed.
End ParserMore.

(** X6: A chapter candidate is reported only for a text that starts with the
    trigger and a space, when every word passes the confidence floor; it
    carries a number that is not zero, the start of the first word, and an
    end time that no word ends after. *)
Theorem parse_phrase_chapter_candidate (a : args) (trigger : string)
    (back_trigger : option string) (spoken_to_int : gmap string N)
    (r : res_obj) (ts te : option Q) (n : option N) (ok : bool) :
  parse_phrase a trigger back_trigger spoken_to_int r
    = Ok (Some chapter, ts, te, n, ok) ->
  ok = true /\
  conf_all (conf_min a) (words_of r) = true /\
  String.prefix (trigger +:+ " ") (text_of r) = true /\
  (exists w ws, words_of r = w :: ws /\ ts = w_start w /\ is_Some ts) /\
  (exists t, te = Some t /\
             forall w, w ∈ words_of r -> default 0 (w_end w) <= t) /\
  (exists k, n = Some k /\ k <> 0%N).
Proof.
  intros Hp.
  destruct (parse_phrase_chapter a trigger back_trigger spoken_to_int r
              ts te n ok Hp) as (H1 & H2 & H3 & H4 & (t & -> & Ht) & H6).
  split_and!; try done. exists t. split; [done|]. by apply max_end_ge.
Qed.

Lemma parse_phrase_chapter_candidate_witness :
  exists t, Some 2 = Some t /\
    forall w,
      w ∈ [Word (Some 1) (Some 1.4) None; Word (Some 1.5) (Some 2) (Some 0.9)] ->
      default 0 (w_end w) <= t.
Proof.
  apply (parse_phrase_chapter_candidate default_args "chapter" None
           {["one" := 1%N]}
           (ResObj (Some "chapter one")
              (Some [Word (Some 1) (Some 1.4) None;
                     Word (Some 1.5) (Some 2) (Some 0.9)]))
           (Some 1) (Some 2) (Some 1%N) true).
  reflexivity.
Defined.

(** X7: A trigger with an ASCII capital in it never matches: the text is
    lower-cased, the trigger is not, and no chapter candidate is ever
    reported. *)
Theorem parse_phrase_capital_trigger (a : args) (trigger : string)
    (back_trigger : option string) (spoken_to_int : gmap string N)
    (r : res_obj) (p : parsed) :
  has_upper trigger = true ->
  parse_phrase a trigger back_trigger spoken_to_int r = Ok p ->
  kind_of p <> Some chapter.
Proof.
  intros Hup Hp Hk. destruct p as [[[[k ts] te] n] ok].
  cbn in Hk. subst k.
  apply parse_phrase_chapter in Hp as (_ & _ & Hpre & _).
  apply prefix_of_lower in Hpre. rewrite has_upper_app, Hup in Hpre.
  discriminate Hpre.
Qed.

Lemma parse_phrase_capital_trigger_witness :
  kind_of (nothing true) <> Some chapter.
Proof.
  apply (parse_phrase_capital_trigger default_args "Chapter" None
           {["one" := 1%N]}
           (ResObj (Some "Chapter one") (Some [Word (Some 1) (Some 2) (Some 1)])));
    reflexivity.
Defined.

(** X8: A phrase of the grammar comes back as its chapter: when the grammar
    is built for a trigger written in ASCII and Cyrillic letters, in
    lower case and starting with no white space, the text
    "trigger cardinal(n)" for [n] of the range, heard with enough
    confidence, with a start time on its first word and different from
    the back trigger, is parsed as chapter [n]. *)
Theorem parse_phrase_grammar_phrase (a : args) (fuel : nat)
    (language trigger : string) (max_chapters : Z) (include_ordinals : bool)
    (back_trigger : option string) (g : grammar) (n : N)
    (w : word) (ws : list word) (ts : Q) :
  build_phrase_map fuel language trigger max_chapters include_ordinals = Ok g ->
  (1 <= n)%N -> (Z.of_N n <= max_chapters)%Z ->
  repertoire trigger = true ->
  starts_clean trigger = true -> lower trigger = trigger ->
  w_start w = Some ts -> conf_all (conf_min a) (w :: ws) = true ->
  back_trigger <> Some (trigger +:+ " " +:+ cardinal_of language n) ->
  parse_phrase a trigger back_trigger g.2
    (ResObj (Some (trigger +:+ " " +:+ cardinal_of language n)) (Some (w :: ws)))
  = Ok (Some chapter, Some ts, max_end (w :: ws), Some n, true).
Proof.
  intros Hb H1 H2 Hrep Hclean Hlow Hts Hconf Hback.
  pose proof (build_phrase_map_roundtrip _ _ _ _ _ _ n Hb H1 H2) as Hlook.
  pose proof (cardinal_tidy language n) as Htidy.
  set (c := cardinal_of language n) in *.
  pose proof (text_of_phrase trigger c Hrep Hclean Hlow Htidy) as Htext.
  apply tidy_spec in Htidy as (_ & Hf & Hr & Hne).
  unfold parse_phrase. cbn [r_text r_result default from_option id].
  rewrite Htext, Hconf, Hts.
  assert (E1 : String.eqb (trigger +:+ " " +:+ c) "" = false).
  { apply String.eqb_neq. by destruct trigger. }
  assert (E2 : match back_trigger with
               | Some b => negb (String.eqb b "")
                           && String.eqb (trigger +:+ " " +:+ c) b
               | None => false
               end = false).
  { destruct back_trigger as [b|]; [|done].
    apply andb_false_iff. right. apply String.eqb_neq. congruence. }
  assert (E3 : String.eqb (trigger +:+ " " +:+ c) trigger = false).
  { apply String.eqb_neq. intros E.
    apply (f_equal String.length) in E.
    rewrite !length_app_string in E. cbn in E. lia. }
  assert (E4 : String.prefix (trigger +:+ " ") (trigger +:+ " " +:+ c) = true).
  { rewrite <- append_assoc. apply prefix_app. }
  assert (E5 : strip (drop_chars (String.length trigger + 1)
                        (trigger +:+ " " +:+ c)) = c).
  { change (" " +:+ c) with (String " " c). rewrite drop_chars_app.
    unfold strip. by rewrite Hf, Hr. }
  rewrite E1, E2, E3, E4, E5, Hlook. cbn [orb max_end].
  rewrite py_bind_ok. destruct (N.eqb_spec n 0) as [->|_]; [lia|]. done.
Qed.

Lemma parse_phrase_grammar_phrase_witness :
  exists g,
    build_phrase_map 3 "en" "chapter" 120 false = Ok g /\
    parse_phrase default_args "chapter" (Some "the end") g.2
      (ResObj (Some "chapter forty two")
         (Some [Word (Some 7) (Some 7.5) (Some 0.9);
                Word (Some 7.6) (Some 8.2) None]))
    = Ok (Some chapter, Some 7, Some 8.2, Some 42%N, true).
Proof.
  destruct (build_phrase_map_returns 3 "en" "chapter" 120 false) as [g Hg];
    [lia | right; by left |].
  exists g. split; [done|].
  apply (parse_phrase_grammar_phrase default_args 3 "en" "chapter" 120 false
           (Some "the end") g 42
           (Word (Some 7) (Some 7.5) (Some 0.9)) [Word (Some 7.6) (Some 8.2) None]
           7 Hg); try reflexivity; try lia; discriminate.
Defined.

(** X9: Without an entry in the reverse mapping a decimal numeral that
    [int] converts (at most 4300 digits) is read as it stands, after a
    trigger written in ASCII and Cyrillic letters, in lower case and
    starting with no white space: "trigger 12" is chapter 12, and
    "trigger 0" is nothing. *)
Theorem parse_phrase_numeral (a : args) (trigger : string)
    (back_trigger : option string) (spoken_to_int : gmap string N) (n : N)
    (w : word) (ws : list word) (ts : Q) :
  spoken_to_int !! str n = None ->
  (String.length (str n) <= int_max_str_digits)%nat ->
  repertoire trigger = true ->
  starts_clean trigger = true -> lower trigger = trigger ->
  w_start w = Some ts -> conf_all (conf_min a) (w :: ws) = true ->
  back_trigger <> Some (trigger +:+ " " +:+ str n) ->
  parse_phrase a trigger back_trigger spoken_to_int
    (ResObj (Some (trigger +:+ " " +:+ str n)) (Some (w :: ws)))
  = Ok (if (n =? 0)%N then nothing true
        else (Some chapter, Some ts, max_end (w :: ws), Some n, true)).
Proof.
  intros Hlook Hlen Hrep Hclean Hlow Hts Hconf Hback.
  assert (Htidy : tidy (str n) = true).
  { apply all_digits_tidy; [apply str_all_digits | apply str_nonempty]. }
  set (c := str n) in *.
  pose proof (text_of_phrase trigger c Hrep Hclean Hlow Htidy) as Htext.
  apply tidy_spec in Htidy as (_ & Hf & Hr & Hne).
  unfold parse_phrase. cbn [r_text r_result default from_option id].
  rewrite Htext, Hconf, Hts.
  assert (E1 : String.eqb (trigger +:+ " " +:+ c) "" = false).
  { apply String.eqb_neq. by destruct trigger. }
  assert (E2 : match back_trigger with
               | Some b => negb (String.eqb b "")
                           && String.eqb (trigger +:+ " " +:+ c) b
               | None => false
               end = false).
  { destruct back_trigger as [b|]; [|done].
    apply andb_false_iff. right. apply String.eqb_neq. congruence. }
  assert (E3 : String.eqb (trigger +:+ " " +:+ c) trigger = false).
  { apply String.eqb_neq. intros E.
    apply (f_equal String.length) in E.
    rewrite !length_app_string in E. cbn in E. lia. }
  assert (E4 : String.prefix (trigger +:+ " ") (trigger +:+ " " +:+ c) = true).
  { rewrite <- append_assoc. apply prefix_app. }
  assert (E5 : strip (drop_chars (String.length trigger + 1)
                        (trigger +:+ " " +:+ c)) = c).
  { change (" " +:+ c) with (String " " c). rewrite drop_chars_app.
    unfold strip. by rewrite Hf, Hr. }
  rewrite E1, E2, E3, E4, E5, Hlook. cbn [orb max_end].
  unfold c. rewrite str_isdigit, (int_of_str_str n Hlen), !py_bind_ok.
  by destruct (n =? 0)%N.
Qed.

Lemma parse_phrase_numeral_witness :
  parse_phrase default_args "chapter" None ∅
    (ResObj (Some "chapter 12") (Some [Word (Some 3) (Some 4) (Some 1)]))
  = Ok (Some chapter, Some 3, Some 4, Some 12%N, true).
Proof.
  apply (parse_phrase_numeral default_args "chapter" None ∅ 12
           (Word (Some 3) (Some 4) (Some 1)) [] 3); try reflexivity.
  - apply Nat.leb_le. reflexivity.
  - discriminate.
Defined.

(** ** The silence gate, further *)

Lemma sorted_map_ascending {A : Type} (key : A -> Q) (l : list A) :
  StronglySorted (key_le key) l -> ascending (map key l).
Proof.
  intros Hs i j Hij. rewrite length_map in Hij.
  destruct (lookup_lt_is_Some_2 l i ltac:(lia)) as [x Hx].
  destruct (lookup_lt_is_Some_2 l j ltac:(lia)) as [y Hy].
  rewrite !nth_lookup, !list_lookup_fmap, Hx, Hy. cbn.
  destruct (decide (i = j)) as [->|Hne].
  - replace y with x by congruence. apply Qle_refl.
  - apply (StronglySorted_lookup (key_le key) l i j x y Hs); [lia|done..].
Qed.

(** The search for the next start alone needs ascending starts only. *)
Lemma next_start_ascending (starts : list Q) (t_end : Q) :
  ascending starts ->
  least_ge starts t_end
    (item_or_none starts (Z.of_nat (bisect_left starts t_end))).
Proof.
  intros Hs.
  destruct (bisect_left_loop_spec starts t_end Hs (length starts) 0 (length starts))
    as (Hr & Hlow & Hhigh); [lia | lia | intros; lia | intros; lia |].
  fold (bisect_left starts t_end) in Hr, Hlow, Hhigh.
  destruct (Nat.eq_dec (bisect_left starts t_end) (length starts)) as [E|E].
  + rewrite item_or_none_out_of_range by lia.
    intros e [i [Hi <-]]%(In_nth _ _ 0). apply Hlow. lia.
  + rewrite item_or_none_in_range by lia.
    split; [apply nth_In; lia|]. split; [apply Hhigh; lia|].
    intros e [i [Hi <-]]%(In_nth _ _ 0) Hle.
    destruct (Nat.le_gt_cases (bisect_left starts t_end) i); [apply Hs; lia|].
    specialize (Hlow i ltac:(lia)). lra.
Qed.

(** X10: Whatever the detector's log held, the list that [detect_silences]
    returns has as many intervals as were read, no negative start and
    ascending starts, so that the binary search for the next silence
    start is exact on it: it finds the smallest start not before [t_end],
    or none when there is none. *)
Theorem normalize_silences_next_start (found : list interval)
    (t_start t_end : Q) :
  let silences := normalize_silences found in
  let index := build_silence_index silences in
  length silences = length found /\
  (forall i, i ∈ silences -> 0 <= i.1) /\
  least_ge index.1 t_end
    (nearest_silence_bounds t_start t_end silences index.1 index.2).2.
Proof.
  cbn zeta. unfold normalize_silences, build_silence_index,
    nearest_silence_bounds. cbn [fst snd]. split_and!.
  - assert (Hlen : forall l : list interval,
              length (sorted_by fst l) = length l).
    { induction l as [|x l IH]; [done|]. cbn [sorted_by].
      assert (Hins : forall k, length (insert_by fst x k) = S (length k)).
      { induction k as [|y k IHk]; [done|]. cbn [insert_by].
        destruct (Qleb _ _); cbn [length]; by rewrite ?IHk. }
      by rewrite Hins, IH. }
    by rewrite Hlen, length_map.
  - intros i [j [-> _]]%sorted_by_elem%list_elem_of_fmap. cbn [fst].
    unfold py_max. case_Q; lra.
  - apply next_start_ascending, sorted_map_ascending, sorted_by_sorted.
Qed.

(** X11: On a silence list whose starts and whose ends both ascend the gate
    is what its description says: it accepts exactly when some silence
    ends within [pre_win] before [t_start] and some silence starts within
    [post_win] after [t_end], the distances being the float differences
    that the code computes. *)
Theorem passes_silence_gate_sorted (t_start t_end : Q)
    (silences : list interval) (pre_win post_win : Q) :
  is_sorted_by (fun q => q) (build_silence_index silences).1 = true ->
  is_sorted_by (fun q => q) (build_silence_index silences).2 = true ->
  passes_silence_gate t_start t_end silences
    (build_silence_index silences).1 (build_silence_index silences).2
    pre_win post_win = true
  <-> (exists i, i ∈ silences /\ i.2 <= t_start
                 /\ fsub t_start i.2 <= pre_win)
      /\ (exists i, i ∈ silences /\ t_end <= i.1
                    /\ fsub i.1 t_end <= post_win).
Proof.
  intros Hs He.
  destruct (nearest_silence_bounds_ascending t_start t_end silences
              _ _ (is_sorted_ascending _ Hs) (is_sorted_ascending _ He))
    as [Hp Hn].
  unfold passes_silence_gate.
  destruct (nearest_silence_bounds _ _ _ _ _) as [pe ns].
  unfold build_silence_index in Hp, Hn. cbn [fst snd] in Hp, Hn. split.
  - intros [Hpre Hpost]%andb_true_iff.
    destruct pe as [pe|]; [|discriminate]. destruct ns as [ns|]; [|discriminate].
    apply Qleb_le in Hpre, Hpost.
    destruct Hp as ((i & <- & Hi)%in_map_iff & Hle & _).
    destruct Hn as ((j & <- & Hj)%in_map_iff & Hge & _).
    split; [exists i | exists j]; by rewrite list_elem_of_In.
  - intros [(i & Hi & Hle & Hwin) (j & Hj & Hge & Hwin')].
    apply list_elem_of_In in Hi, Hj.
    apply andb_true_iff. split.
    + destruct pe as [pe|].
      * destruct Hp as (_ & _ & Hmax).
        specialize (Hmax i.2 (in_map snd _ _ Hi) Hle).
        apply Qleb_le.
        pose proof (fsub_mono t_start t_start pe i.2 ltac:(lra) Hmax). lra.
      * specialize (Hp i.2 (in_map snd _ _ Hi)). lra.
    + destruct ns as [ns|].
      * destruct Hn as (_ & _ & Hmin).
        specialize (Hmin j.1 (in_map fst _ _ Hj) Hge).
        apply Qleb_le.
        pose proof (fsub_mono ns j.1 t_end t_end Hmin ltac:(lra)). lra.
      * specialize (Hn j.1 (in_map fst _ _ Hj)). lra.
Qed.

Lemma passes_silence_gate_sorted_witness :
  passes_silence_gate 1.5 4.5 [(0, 1); (5, 6)]
    (build_silence_index [(0, 1); (5, 6)]).1
    (build_silence_index [(0, 1); (5, 6)]).2 (fl 0.6) (fl 0.8) = true
  <-> (exists i : interval,
         i ∈ [(0, 1); (5, 6)] /\ i.2 <= 1.5 /\ fsub 1.5 i.2 <= fl 0.6)
      /\ (exists i : interval,
            i ∈ [(0, 1); (5, 6)] /\ 4.5 <= i.1 /\ fsub i.1 4.5 <= fl 0.8).
Proof.
  apply (passes_silence_gate_sorted 1.5 4.5 [(0, 1); (5, 6)] (fl 0.6) (fl 0.8));
    reflexivity.
Defined.

(** A phrase that starts at 1.6 s after a silence that ends at 1.0 s is
    outside the default window of 0.6 s: the difference of the two
    floats is above the float 0.6. *)
Lemma passes_silence_gate_rounded :
  passes_silence_gate (fl 1.6) 2 [(0, 1); (2, 3)] [0; 2] [1; 3]
    (silence_pre default_args) (silence_post default_args) = false.
Proof. vm_compute. reflexivity. Qed.

(** X12: Wider windows never reject what narrower ones accept, on any index. *)
Theorem passes_silence_gate_wider (t_start t_end : Q)
    (silences : list interval) (starts ends : list Q)
    (pre_win post_win pre_win' post_win' : Q) :
  pre_win <= pre_win' -> post_win <= post_win' ->
  passes_silence_gate t_start t_end silences starts ends pre_win post_win
    = true ->
  passes_silence_gate t_start t_end silences starts ends pre_win' post_win'
    = true.
Proof.
  intros Hpre Hpost. unfold passes_silence_gate.
  destruct (nearest_silence_bounds _ _ _ _ _) as [[pe|] [ns|]];
    try (by intros [? ?]%andb_true_iff).
  intros [H1%Qleb_le H2%Qleb_le]%andb_true_iff.
  apply andb_true_iff. split; apply Qleb_le; lra.
Qed.

Lemma passes_silence_gate_wider_witness :
  passes_silence_gate 1.5 4.5 [(0, 1); (5, 6)] [0; 5] [1; 6] 1 2 = true.
Proof.
  apply (passes_silence_gate_wider 1.5 4.5 [(0, 1); (5, 6)] [0; 5] [1; 6]
           0.6 0.8 1 2); [lra | lra | reflexivity].
Defined.

(** ** The candidate filter, further *)

Section FilterMore.
Variable a : args.
Variable silences : list interval.

(** What the deduplication keeps of a time-ordered list [l], given the
    numbers [seen] so far: marks with new, pairwise different numbers, one
    for each new number of [l] and not later than any mark of that
    number. *)
Lemma first_occurrences_fold (l : list mark) :
  StronglySorted (key_le m_ts) l ->
  forall (acc : list mark) (seen : gset (option N)),
  exists k,
    (fold_left
       (fun (st : list mark * gset (option N)) m =>
          if decide (m_n m ∈ st.2) then st
          else (st.1 ++ [m], st.2 ∪ {[m_n m]}))
       l (acc, seen)).1 = acc ++ k /\
    (forall m, m ∈ k -> m_n m ∉ seen) /\
    NoDup (map m_n k) /\
    (forall m, m ∈ l -> m_n m ∉ seen ->
       exists m', m' ∈ k /\ m_n m' = m_n m /\ m_ts m' <= m_ts m).
Proof using Type.
  induction l as [|m0 l IH]; intros Hs acc seen.
  { exists []. rewrite app_nil_r. split_and!; [done| |constructor|].
    - by intros m Hm%elem_of_nil.
    - by intros m Hm%elem_of_nil. }
  apply StronglySorted_cons in Hs as [Hm0 Hs]. rewrite Forall_forall in Hm0.
  cbn [fold_left fst snd]. destruct (decide _) as [Hin|Hnin].
  - destruct (IH Hs acc seen) as (k & -> & Hk & Hnd & Hrep).
    exists k. split_and!; try done.
    intros m [->|Hm]%elem_of_cons Hnew; [done | by apply Hrep].
  - destruct (IH Hs (acc ++ [m0]) (seen ∪ {[m_n m0]}))
      as (k & -> & Hk & Hnd & Hrep).
    exists (m0 :: k). split_and!.
    + by rewrite <- app_assoc.
    + intros m [->|Hm]%elem_of_cons; [done|].
      specialize (Hk m Hm). set_solver.
    + cbn [map]. apply NoDup_cons. split; [|done].
      intros (m & Hn & Hm)%list_elem_of_fmap.
      specialize (Hk m Hm). set_solver.
    + intros m Hm Hnew. destruct (decide (m_n m = m_n m0)) as [E|E].
      * exists m0. split; [by left|]. split; [done|].
        apply elem_of_cons in Hm as [Em|Hm]; [|by apply Hm0].
        rewrite Em. apply Qle_refl.
      * apply elem_of_cons in Hm as [->|Hm]; [done|].
        destruct (Hrep m Hm) as (m' & Hm' & Hn' & Ht').
        { rewrite elem_of_union, elem_of_singleton. tauto. }
        exists m'. split; [by right | done].
Qed.

(** The marks that the loop keeps come from the candidates it has read,
    each of which passed the gate when there is any silence. *)
Lemma keep_loop_provenance (l : list candidate) :
  forall m, m ∈ (keep_loop a silences l).1 ->
  exists c, c ∈ l /\ m = (c_ts c, c_te c, c_n c) /\
            (silences <> [] -> gate a silences (c_ts c) (c_te c) = true).
Proof using Type.
  induction l as [|c l IH] using rev_ind.
  { by intros m Hm%elem_of_nil. }
  intros m. rewrite keep_loop_snoc.
  destruct (keep_loop a silences l) as [chapters last_keep_t].
  cbn [fst] in IH. unfold keep_step.
  assert (Hold : m ∈ chapters ->
    exists c0, c0 ∈ l ++ [c] /\ m = (c_ts c0, c_te c0, c_n c0) /\
      (silences <> [] -> gate a silences (c_ts c0) (c_te c0) = true)).
  { intros (c0 & Hc0 & Hrest)%IH. exists c0. split; [|done].
    apply elem_of_app. by left. }
  destruct (_ && _) eqn:Eg; [exact Hold|].
  destruct (Qltb _ _); [exact Hold|]. cbn [fst].
  intros [Hm | ->%list_elem_of_singleton]%elem_of_app; [by apply Hold|].
  exists c. split; [apply elem_of_app; right; by left|]. split; [done|].
  intros Hne. apply andb_false_iff in Eg as [Eg|Eg].
  - destruct silences; [done | discriminate Eg].
  - by apply negb_false_iff in Eg.
Qed.

Lemma head_filter_sorted {A : Type} (key : A -> Q) (P : A -> Prop)
    `{!forall x, Decision (P x)} (l : list A) :
  StronglySorted (key_le key) l ->
  match head (filter P l) with
  | Some x => x ∈ l /\ P x /\ forall y, y ∈ l -> P y -> key x <= key y
  | None => forall y, y ∈ l -> ~ P y
  end.
Proof.
  induction 1 as [|z l Hs IH Hz].
  { by intros y Hy%elem_of_nil. }
  rewrite filter_cons. destruct (decide (P z)) as [Hp|Hp].
  - cbn [head]. split; [by left|]. split; [done|].
    intros y [->|Hy]%elem_of_cons _; [apply Qle_refl|].
    rewrite Forall_forall in Hz. by apply Hz.
  - destruct (head (filter P l)) as [x|].
    + destruct IH as (Hx & Hpx & Hmin). split; [by right|]. split; [done|].
      intros y [->|Hy]%elem_of_cons Hy'; [done | by apply Hmin].
    + intros y [->|Hy]%elem_of_cons; [done | by apply IH].
Qed.
End FilterMore.

(** X13: Without [--sequential-chapters] the final marks carry pairwise
    different numbers, and every number that survived the debounce is
    still there, on a mark that is not later than any kept mark of that
    number: the first occurrence wins. *)
Theorem final_marks_first_occurrence (a : args) (silences : list interval)
    (raw_candidates : list candidate) :
  sequential_chapters a = false ->
  NoDup (map m_n (final_marks a silences raw_candidates)) /\
  forall m, m ∈ chapters_of a silences raw_candidates ->
    exists m', m' ∈ final_marks a silences raw_candidates /\
               m_n m' = m_n m /\ m_ts m' <= m_ts m.
Proof.
  intros Hseq.
  pose proof (spaced_ascending a _ (chapters_of_spaced a silences raw_candidates))
    as Hs.
  unfold final_marks. rewrite Hseq.
  rewrite sorted_by_ascending;
    [|eapply StronglySorted_sublist; [apply first_occurrences_sublist | done]].
  unfold first_occurrences.
  destruct (first_occurrences_fold _ Hs [] ∅) as (k & -> & _ & Hnd & Hrep).
  cbn [app]. split; [done|]. intros m Hm. apply Hrep; [done | set_solver].
Qed.

Lemma final_marks_first_occurrence_witness :
  let raw := [Candidate chapter 10 11 (Some 1%N);
              Candidate chapter 200 201 (Some 1%N);
              Candidate chapter 400 401 (Some 2%N)] in
  NoDup (map m_n (final_marks default_args [] raw)).
Proof.
  apply (final_marks_first_occurrence default_args []). reflexivity.
Defined.

(** X14: Every final mark is a chapter candidate of the parser, unchanged; and
    when any silence was detected, one that passed the silence gate. *)
Theorem final_marks_provenance (a : args) (silences : list interval)
    (raw_candidates : list candidate) (m : mark) :
  m ∈ final_marks a silences raw_candidates ->
  exists c, c ∈ raw_candidates /\ c_kind c = chapter /\
            m = (c_ts c, c_te c, c_n c) /\
            (silences <> [] -> gate a silences (c_ts c) (c_te c) = true).
Proof.
  intros Hm.
  pose proof (final_marks_sublist a silences raw_candidates) as Hsub.
  pose proof (elem_of_sublist _ _ _ Hm Hsub) as Hc.
  apply keep_loop_provenance in Hc as (c & Hc & Heq & Hg).
  unfold chapter_candidates in Hc.
  apply sorted_by_elem, list_elem_of_filter in Hc as [Hk Hc].
  exists c. split_and!; try done. by destruct (c_kind c).
Qed.

Lemma final_marks_provenance_witness :
  exists c, c ∈ [Candidate back 5 6 None; Candidate chapter 10 11 (Some 1%N)] /\
    c_kind c = chapter /\ (10, 11, Some 1%N) = (c_ts c, c_te c, c_n c) /\
    (@nil interval <> [] -> gate default_args [] (c_ts c) (c_te c) = true).
Proof.
  apply (final_marks_provenance default_args []
           [Candidate back 5 6 None; Candidate chapter 10 11 (Some 1%N)]
           (10, 11, Some 1%N)).
  vm_compute. by left.
Defined.

(** X15: [back_start] is the start of the earliest back candidate that passes
    the silence gate; it is [None] exactly when no back candidate does. *)
Theorem find_back_start_earliest (a : args) (silences : list interval)
    (raw_candidates : list candidate) :
  match find_back_start a silences raw_candidates with
  | Some b =>
    exists c, c ∈ raw_candidates /\ c_kind c = back /\ c_ts c = b /\
      gate a silences (c_ts c) (c_te c) = true /\
      forall c', c' ∈ raw_candidates -> c_kind c' = back ->
        gate a silences (c_ts c') (c_te c') = true -> b <= c_ts c'
  | None =>
    forall c, c ∈ raw_candidates -> c_kind c = back ->
      gate a silences (c_ts c) (c_te c) = false
  end.
Proof.
  unfold find_back_start.
  pose proof (head_filter_sorted c_ts
    (fun c => gate a silences (c_ts c) (c_te c) = true) _
    (sorted_by_sorted c_ts
       (filter (fun c => kind_eqb (c_kind c) back = true) raw_candidates)))
    as H.
  destruct (head _) as [c|]; cbn [fmap option_fmap option_map].
  - destruct H as (Hc & Hg & Hmin).
    apply sorted_by_elem, list_elem_of_filter in Hc as [Hk Hc].
    exists c. split_and!; try done; [by destruct (c_kind c)|].
    intros c' Hc' Hk' Hg'. apply Hmin; [|done].
    apply sorted_by_elem, list_elem_of_filter. by rewrite Hk'.
  - intros c Hc Hk. apply not_true_is_false. apply H.
    apply sorted_by_elem, list_elem_of_filter. by rewrite Hk.
Qed.

(** No back start is found when no back candidate passes the gate. *)
Lemma find_back_start_none (a : args) (silences : list interval)
    (raw_candidates : list candidate) :
  (forall c, c ∈ raw_candidates -> c_kind c = back ->
     gate a silences (c_ts c) (c_te c) = false) ->
  find_back_start a silences raw_candidates = None.
Proof.
  intros Hraw. unfold find_back_start.
  destruct (head _) as [c|] eqn:E; [|done].
  apply head_Some_elem_of, list_elem_of_filter in E as [Hg Hc].
  apply sorted_by_elem, list_elem_of_filter in Hc as [Hk Hc].
  rewrite Hraw in Hg; [discriminate Hg | done | by destruct (c_kind c)].
Qed.

(** ** Segments, further *)

(** Along a contiguous list with no negative length before its last
    segment, every segment is over before any later one starts. *)
Lemma contiguous_before (l : list segment) :
  contiguous l -> Forall nonneg (removelast l) -> StronglySorted before l.
Proof.
  induction l as [|x l IH]; [constructor|]. intros Hc Hpos.
  destruct l as [|y l]; [repeat constructor|].
  destruct Hc as [Hxy Hc]. rewrite removelast_cons2 in Hpos.
  apply Forall_cons in Hpos as [_ Hpos]. specialize (IH Hc Hpos).
  constructor; [done|].
  apply StronglySorted_cons in IH as Hy. destruct Hy as [Hy _].
  constructor; [unfold before; lra|].
  destruct l as [|z l]; [constructor|].
  rewrite removelast_cons2 in Hpos. apply Forall_cons in Hpos as [Hny _].
  eapply Forall_impl; [exact Hy|]. intros s Hs.
  unfold before, nonneg, duration in *. lra.
Qed.

Section AbsorbMore.
Variable min_dur : Q.

(** The first loop of step 7 keeps the segments apart: merging a short
    chapter into the segment before it moves an end to an end. *)
Lemma absorb_step_before (cleaned rest : list segment) (seg : segment) :
  StronglySorted before (cleaned ++ seg :: rest) ->
  StronglySorted before (absorb_step min_dur cleaned seg ++ rest).
Proof using Type.
  intros Hs. destruct (snoc_cases cleaned) as [->|(init & p & ->)].
  - rewrite absorb_step_nil. destruct (too_short _ _); [|done].
    cbn [app] in *. by apply StronglySorted_cons in Hs as [_ ?].
  - rewrite absorb_step_snoc. destruct (too_short _ _).
    + rewrite <- app_assoc in Hs |- *. cbn [app] in *.
      apply StronglySorted_app in Hs as (Hcross & Hinit & Htail).
      apply StronglySorted_cons in Htail as [Hp Htail].
      apply Forall_cons in Hp as [Hps Hprest].
      apply StronglySorted_cons in Htail as [Hseg Htail].
      apply StronglySorted_app. split_and!.
      * intros x1 x2 Hx1 [->|Hx2]%elem_of_cons.
        -- apply (Hcross x1 p Hx1). by left.
        -- apply (Hcross x1 x2 Hx1). right. by right.
      * done.
      * apply StronglySorted_cons. split; [|done].
        eapply Forall_impl; [exact Hseg|]. intros s Hs. exact Hs.
    + rewrite <- app_assoc in Hs |- *. exact Hs.
Qed.

Lemma absorb_fold_before (rest : list segment) :
  forall cleaned,
    StronglySorted before (cleaned ++ rest) ->
    StronglySorted before (fold_left (absorb_step min_dur) rest cleaned).
Proof using Type.
  induction rest as [|seg rest IH]; intros cleaned Hs.
  - by rewrite app_nil_r in Hs.
  - cbn [fold_left]. by apply IH, absorb_step_before.
Qed.

(** The labels that the first loop keeps, in their order. *)
Lemma absorb_step_labels (cleaned : list segment) (seg : segment) :
  map seg_label (absorb_step min_dur cleaned seg)
    `sublist_of` map seg_label cleaned ++ [seg_label seg].
Proof using Type.
  destruct (snoc_cases cleaned) as [->|(init & p & ->)].
  - rewrite absorb_step_nil. destruct (too_short _ _); [|done].
    apply sublist_nil_l.
  - rewrite absorb_step_snoc. destruct (too_short _ _).
    + rewrite !map_app. cbn [map seg_label]. by apply sublist_inserts_r.
    + rewrite !map_app, <- app_assoc. done.
Qed.

Lemma absorb_fold_labels (rest : list segment) :
  forall cleaned,
    map seg_label (fold_left (absorb_step min_dur) rest cleaned)
      `sublist_of` map seg_label cleaned ++ map seg_label rest.
Proof using Type.
  induction rest as [|seg rest IH]; intros cleaned.
  - by rewrite app_nil_r.
  - cbn [fold_left map]. etrans; [apply IH|].
    change (seg_label seg :: map seg_label rest)
      with ([seg_label seg] ++ map seg_label rest).
    rewrite app_assoc. apply sublist_app; [apply absorb_step_labels | done].
Qed.
End AbsorbMore.

Lemma chapter_segments_labels (marks : list mark) (total : Q) :
  map seg_label (chapter_segments marks total) = map mark_label marks.
Proof.
  induction marks as [|m rest IH]; [done|].
  rewrite chapter_segments_cons. cbn [map seg_label]. by rewrite IH.
Qed.

Lemma truncate_at_labels (b : Q) (l : list segment) :
  map seg_label (truncate_at b l) `sublist_of` map seg_label l.
Proof.
  induction l as [|s l IH]; [done|]. cbn [truncate_at map].
  destruct (Qleb _ _); [by apply sublist_cons|].
  destruct (_ && _); cbn [map seg_label]; by apply sublist_skip.
Qed.

Lemma build_segments_labels (marks : list mark) (back_start : option Q)
    (total : Q) :
  map seg_label (build_segments marks back_start total)
    `sublist_of` all_labels marks.
Proof.
  unfold build_segments, all_labels. destruct marks as [|m rest].
  { destruct back_start as [b|]; [destruct (_ && _)|].
    - done.
    - by apply sublist_skip, sublist_nil_l.
    - by apply sublist_skip, sublist_nil_l. }
  assert (Hfront :
    map seg_label
      ((if Qltb (fl 0.2) (m_ts m) then [Segment 0 (m_ts m) "preface"] else [])
         ++ chapter_segments (m :: rest) total)
    `sublist_of` "preface" :: map mark_label (m :: rest)).
  { rewrite map_app, chapter_segments_labels.
    destruct (Qltb _ _); [done | by apply sublist_cons]. }
  destruct back_start as [b|].
  - rewrite map_app.
    change ("preface" :: map mark_label (m :: rest) ++ ["back_matter"])
      with (("preface" :: map mark_label (m :: rest)) ++ ["back_matter"]).
    apply sublist_app.
    + etrans; [apply truncate_at_labels | exact Hfront].
    + destruct (Qleb _ _); [done | apply sublist_nil_l].
  - change ("preface" :: map mark_label (m :: rest) ++ ["back_matter"])
      with (("preface" :: map mark_label (m :: rest)) ++ ["back_matter"]).
    by apply sublist_inserts_r.
Qed.

(** X16: The labels of the final segments are taken, in this order, from
    [preface], the labels [chapter_<n>] of the marks in the order of the
    marks, and [back_matter]: each at most once, a preface only in front
    and a back matter only at the end. *)
Theorem make_segments_labels (a : args) (marks : list mark)
    (back_start : option Q) (total_duration : Q) :
  map seg_label (make_segments a marks back_start total_duration)
    `sublist_of` all_labels marks.
Proof.
  unfold make_segments, drop_microscopic, drop_short, absorb_short.
  etrans; [apply fmap_sublist, sublist_filter|].
  etrans; [apply fmap_sublist, sublist_filter|].
  etrans; [apply absorb_fold_labels|]. cbn [map app].
  apply build_segments_labels.
Qed.

(** X17: Whatever the arguments, the final segments are in time order and
    never overlap: each one is over before any later one starts. *)
Theorem segments_never_overlap (a : args) (silences : list interval)
    (raw_candidates : list candidate) (total_duration : Q)
    (i j : nat) (s1 s2 : segment) :
  (i < j)%nat ->
  segments_of_run a silences raw_candidates total_duration !! i = Some s1 ->
  segments_of_run a silences raw_candidates total_duration !! j = Some s2 ->
  seg_end s1 <= seg_start s2.
Proof.
  intros Hij. apply (StronglySorted_lookup before); [|done].
  unfold segments_of_run, make_segments, drop_microscopic, drop_short,
    absorb_short.
  eapply StronglySorted_sublist; [apply sublist_filter|].
  eapply StronglySorted_sublist; [apply sublist_filter|].
  apply absorb_fold_before. cbn [app].
  destruct (build_segments_shape
              (final_marks a silences raw_candidates)
              (find_back_start a silences raw_candidates) total_duration)
    as (Hc & Hpos & _).
  { apply (spaced_ascending a), final_marks_spaced. }
  by apply contiguous_before.
Qed.

Lemma segments_never_overlap_witness :
  seg_end (Segment 10 50 "chapter_1") <= seg_start (Segment 400 1000 "chapter_3").
Proof.
  apply (segments_never_overlap (Args 0.35 false 30 (1 # 2) 0.6 0.8) []
           [Candidate chapter 10 11 (Some 1%N);
            Candidate chapter 50 51 (Some 2%N);
            Candidate chapter 400 401 (Some 3%N)] 1000 1 3);
    [lia | reflexivity | reflexivity].
Defined.

(** X18: When the parser reported no chapter and no back candidate passes the
    gate, a recording of a second or more comes out as one segment, the
    preface, that covers all of it. *)
Theorem segments_without_marks (a : args) (silences : list interval)
    (raw_candidates : list candidate) (total_duration : Q) :
  (forall c, c ∈ raw_candidates ->
     c_kind c = back /\ gate a silences (c_ts c) (c_te c) = false) ->
  1 <= total_duration ->
  segments_of_run a silences raw_candidates total_duration
  = [Segment 0 total_duration "preface"].
Proof.
  intros Hraw Htotal. unfold segments_of_run.
  assert (Hmarks : final_marks a silences raw_candidates = []).
  { destruct (final_marks a silences raw_candidates) as [|m l] eqn:E; [done|].
    exfalso.
    assert (Hm : m ∈ final_marks a silences raw_candidates)
      by (rewrite E; by left).
    pose proof (elem_of_sublist _ _ _ Hm
                  (final_marks_sublist a silences raw_candidates)) as Hc.
    apply keep_loop_provenance in Hc as (c & Hc & _).
    apply sorted_by_elem, list_elem_of_filter in Hc as [Hk Hc].
    destruct (Hraw c Hc) as [Hb _]. rewrite Hb in Hk. discriminate Hk. }
  assert (Hback : find_back_start a silences raw_candidates = None).
  { pose proof (find_back_start_none a silences raw_candidates) as H.
    apply H. intros c Hc _. by apply Hraw. }
  rewrite Hmarks, Hback.
  unfold make_segments, build_segments, absorb_short. cbn [fold_left].
  rewrite absorb_step_nil.
  change (too_short _ (Segment 0 total_duration "preface")) with false.
  unfold drop_short, drop_microscopic.
  rewrite filter_cons, filter_nil, decide_True by done.
  rewrite filter_cons, filter_nil, decide_True; [done|].
  apply Qleb_le. unfold duration. cbn [seg_start seg_end].
  apply fsub_ge_1. lra.
Qed.

Lemma segments_without_marks_witness :
  segments_of_run default_args [] [Candidate back 900 901 None] 1000
  = [Segment 0 1000 "preface"].
Proof.
  apply (segments_without_marks default_args []
           [Candidate back 900 901 None] 1000).
  - intros c ->%list_elem_of_singleton. split; reflexivity.
  - vm_compute. discriminate.
Defined.

(** ** Export *)

Lemma rfind_dot_app (x y : string) :
  rfind_dot y = None ->
  rfind_dot (x +:+ String "." y) = Some (String.length x).
Proof.
  intros Hy. induction x as [|c x IH].
  - change ("" +:+ String "." y) with (String "." y).
    cbn [rfind_dot]. by rewrite Hy.
  - rewrite append_cons. cbn [rfind_dot String.length]. by rewrite IH.
Qed.

Lemma substring_app (x y : string) :
  substring 0 (String.length x) (x +:+ y) = x.
Proof.
  induction x as [|c x IH].
  - by destruct y.
  - rewrite append_cons. cbn [String.length substring]. by rewrite IH.
Qed.

(** The stem of a name that ends in [.mp3] is what stands before. *)
Lemma stem_mp3 (x : string) : x <> "" -> stem (x +:+ ".mp3") = x.
Proof.
  intros Hx. unfold stem.
  change ".mp3" with (String "." "mp3"). rewrite rfind_dot_app by done.
  rewrite length_app_string. cbn [String.length].
  assert (Hpos : (0 < String.length x)%nat) by (destruct x; [done | cbn; lia]).
  apply Nat.ltb_lt in Hpos as ->.
  replace (String.length x <? String.length x + 4 - 1)%nat with true
    by (symmetry; apply Nat.ltb_lt; lia).
  apply substring_app.
Qed.

Lemma pad2_digits (n : N) : all_digits (pad2 n) = true /\ pad2 n <> "".
Proof.
  unfold pad2. destruct (n <? 10)%N.
  - change ("0" +:+ str n) with (String "0" (str n)). split; [|done].
    cbn [all_digits]. by rewrite str_all_digits.
  - split; [apply str_all_digits | apply str_nonempty].
Qed.

Lemma stem_out_name (idx : N) (label : string) :
  stem (out_name idx label) = pad2 (idx - 1) +:+ "_" +:+ label.
Proof.
  unfold out_name. rewrite <- !append_assoc. rewrite stem_mp3.
  - by rewrite !append_assoc.
  - destruct (pad2_digits (idx - 1)) as [_ Hne].
    by destruct (pad2 (idx - 1)).
Qed.

Lemma skip_digits_app (d rest : string) :
  all_digits d = true ->
  skip_digits (d +:+ String "_" rest) = String "_" rest.
Proof.
  induction d as [|c d IH]; [done|].
  cbn [all_digits]. intros [Hc Hd]%andb_true_iff.
  rewrite append_cons. cbn [skip_digits]. rewrite Hc. by apply IH.
Qed.

Lemma strip_number_app (d rest : string) :
  all_digits d = true -> d <> "" ->
  strip_number (d +:+ String "_" rest) = rest.
Proof.
  intros Hd Hne. unfold strip_number.
  rewrite (skip_digits_app d rest Hd).
  destruct d as [|c d]; [done|]. rewrite append_cons.
  cbn [all_digits] in Hd. by apply andb_true_iff in Hd as [-> _].
Qed.

(** X19: The name that step 8 gives a track is read back by [--m4b-only] as
    the chapter title that step 9 writes for the same segment, whatever
    the label and the track number. *)
Theorem m4b_title_of_out_name (idx : N) (label : string) :
  m4b_title (stem (out_name idx label)) = human label.
Proof.
  rewrite stem_out_name. unfold m4b_title, human.
  change ("_" +:+ label) with (String "_" label).
  destruct (pad2_digits (idx - 1)) as [Hd Hne].
  by rewrite strip_number_app.
Qed.

Lemma below_elem (k : nat) (n : N) : (n < N.of_nat k)%N -> In n (below k).
Proof.
  intros H. unfold below. apply in_map_iff. exists (N.to_nat n).
  split; [lia|]. apply in_seq. lia.
Qed.

Lemma key_table_elem (key : N -> string) (k : nat) (n : N) :
  (n < N.of_nat k)%N -> In (n, key n) (key_table key k).
Proof.
  intros H. unfold key_table. apply in_map_iff. exists n.
  split; [done | by apply below_elem].
Qed.

Lemma keys_ascend_spec (width : nat) (t : list (N * string))
    (x y : N * string) :
  keys_ascend width t = true -> In x t -> In y t -> (x.1 < y.1)%N ->
  String.length x.2 = width /\ String.length y.2 = width /\
  String.ltb x.2 y.2 = true.
Proof.
  unfold keys_ascend. rewrite forallb_forall. intros H Hx Hy Hlt.
  pose proof (H x Hx) as [Hwx Hrow]%andb_true_iff.
  pose proof (H y Hy) as [Hwy _]%andb_true_iff.
  rewrite forallb_forall in Hrow. specialize (Hrow y Hy).
  apply N.ltb_lt in Hlt. rewrite Hlt in Hrow.
  apply Nat.eqb_eq in Hwx, Hwy. done.
Qed.

(** Strings of one length that differ are told apart before their end,
    so what follows them does not matter. *)
Lemma ltb_app (a b x y : string) :
  String.length a = String.length b -> String.ltb a b = true ->
  String.ltb (a +:+ x) (b +:+ y) = true.
Proof.
  unfold String.ltb. revert b.
  induction a as [|c a IH]; intros [|c' b]; try discriminate.
  rewrite !append_cons. cbn [String.length String.compare].
  intros [= Hlen]. destruct (Ascii.compare c c'); [by apply IH | done..].
Qed.

Lemma pad2_ascend : keys_ascend 2 (key_table pad2 100) = true.
Proof. vm_compute. reflexivity. Qed.

Lemma pad2_after_100 :
  forallb (fun x => implb (11 <=? x.1)%N (String.ltb "10" x.2))
    (key_table pad2 100) = true.
Proof. vm_compute. reflexivity. Qed.

(** X20: [--m4b-only] sorts the files by their stem.  Up to a hundred tracks
    the names of step 8 sort in track order, whatever the labels; the
    hundred-and-first track, numbered 100, sorts before the tracks
    numbered 11 to 99. *)
Theorem out_name_order (i j : N) (l1 l2 : string) :
  (1 <= i)%N ->
  ((i < j)%N -> (j <= 100)%N ->
   String.ltb (stem (out_name i l1)) (stem (out_name j l2)) = true) /\
  ((12 <= i)%N -> (i <= 100)%N ->
   String.ltb (stem (out_name 101 l1)) (stem (out_name i l2)) = true).
Proof.
  intros Hi. rewrite !stem_out_name. split.
  - intros Hij Hj.
    destruct (keys_ascend_spec 2 _ (i - 1, pad2 (i - 1))%N
                (j - 1, pad2 (j - 1))%N pad2_ascend)
      as (Hwi & Hwj & Hlt);
      [apply key_table_elem; lia | apply key_table_elem; lia | cbn; lia |].
    cbn [fst snd] in *. apply ltb_app; [congruence | done].
  - intros Hlo Hhi.
    pose proof pad2_after_100 as H. rewrite forallb_forall in H.
    specialize (H (i - 1, pad2 (i - 1))%N
                  (key_table_elem pad2 100 (i - 1)%N ltac:(lia))).
    cbn [fst snd] in H.
    replace (11 <=? i - 1)%N with true in H by (symmetry; apply N.leb_le; lia).
    cbn [implb] in H.
    destruct (keys_ascend_spec 2 _ (0, pad2 0)%N (i - 1, pad2 (i - 1))%N
                pad2_ascend)
      as (_ & Hwi & _);
      [apply key_table_elem; lia | apply key_table_elem; lia | cbn; lia |].
    cbn [fst snd] in Hwi.
    change (pad2 (101 - 1) +:+ "_" +:+ l1) with ("10" +:+ ("0_" +:+ l1)).
    apply ltb_app; [by rewrite Hwi | done].
Qed.

Lemma out_name_order_witness :
  String.ltb (stem (out_name 3 "chapter_2")) (stem (out_name 11 "chapter_10"))
  = true.
Proof.
  apply (out_name_order 3 11 "chapter_2" "chapter_10"); lia.
Defined.

Lemma concat_key_ascend :
  keys_ascend 3 (key_table (fun n => concat_key (str n)) 1000) = true.
Proof. vm_compute. reflexivity. Qed.

(** X21: [build_concat_list] orders the input by [stem.zfill(3)]: files named
    by the numbers below a thousand are taken in the order of the
    numbers. *)
Theorem concat_key_numeric (n m : N) :
  (n < m)%N -> (m < 1000)%N ->
  String.ltb (concat_key (str n)) (concat_key (str m)) = true.
Proof.
  intros Hnm Hm.
  destruct (keys_ascend_spec 3 _ (n, concat_key (str n)) (m, concat_key (str m))
              concat_key_ascend)
    as (_ & _ & Hlt);
    [exact (key_table_elem (fun n => concat_key (str n)) 1000 n ltac:(lia))
    |exact (key_table_elem (fun n => concat_key (str n)) 1000 m ltac:(lia))
    |done|done].
Qed.

Lemma concat_key_numeric_witness :
  String.ltb (concat_key (str 9)) (concat_key (str 10)) = true.
Proof. apply (concat_key_numeric 9 10); lia. Defined.

Lemma tiles_snoc (from to : Z) (chapters : list chapter_entry)
    (c : chapter_entry) :
  tiles from chapters to -> start_ms c = to -> (to <= end_ms c)%Z ->
  tiles from (chapters ++ [c]) (end_ms c).
Proof.
  revert from. induction chapters as [|c0 l IH]; intros from; cbn [tiles app].
  - intros <- Hs Hle. done.
  - intros (Hs0 & Hle0 & Hrest) Hs Hle. split_and!; [done..|]. by apply IH.
Qed.

(** The loop of [m4b_only_mode] from any state on. *)
Lemma m4b_fold (mp3_files : list mp3_file) :
  forall (chapters : list chapter_entry) (t : Z),
    tiles 0 chapters t ->
    tiles 0 (fold_left m4b_step mp3_files (chapters, t)).1
      (t + probed_ms mp3_files) /\
    length (fold_left m4b_step mp3_files (chapters, t)).1
      = (length chapters
         + length (filter (fun f => probed f = true) mp3_files))%nat.
Proof.
  induction mp3_files as [|f fs IH]; intros chapters t Ht.
  { cbn [fold_left fst]. unfold probed_ms. rewrite filter_nil.
    cbn [length map fold_right]. by rewrite Nat.add_0_r, Z.add_0_r. }
  cbn [fold_left]. destruct (Qleb (file_duration f) 0) eqn:Ed.
  - assert (Hstep : m4b_step (chapters, t) f = (chapters, t))
      by (unfold m4b_step; by rewrite Ed).
    assert (Hp : probed f <> true) by (unfold probed; by rewrite Ed).
    rewrite Hstep. unfold probed_ms.
    rewrite filter_cons_False by exact Hp. by apply IH.
  - set (d := Qfloor (fmul (file_duration f) 1000)).
    set (c := ChapterEntry t (t + d) (m4b_title (file_stem f))).
    assert (Hstep : m4b_step (chapters, t) f = (chapters ++ [c], (t + d)%Z))
      by (unfold m4b_step; by rewrite Ed).
    assert (Hp : probed f = true) by (unfold probed; by rewrite Ed).
    rewrite Hstep. apply Qleb_gt in Ed.
    assert (Hd : (0 <= d)%Z).
    { change 0%Z with (Qfloor 0). apply Qfloor_resp_le.
      apply fl_nonneg. apply Qmult_le_0_compat; lra. }
    destruct (IH (chapters ++ [c]) (t + d)%Z) as [Htiles Hlen].
    { apply (tiles_snoc 0 t chapters c); [done..|]. cbn [end_ms c]. lia. }
    unfold probed_ms in *.
    rewrite filter_cons_True by exact Hp. split.
    + cbn [map fold_right]. fold d.
      by rewrite Z.add_assoc.
    + rewrite Hlen, length_app. cbn [length]. lia.
Qed.

(** X22: The chapters that [--m4b-only] writes tile the time from zero on:
    each starts where the one before ended and none ends before it
    starts; there is one for each file whose duration could be probed;
    and the last one ends at the sum of the whole milliseconds
    [int(duration * 1000)] of these files. *)
Theorem m4b_chapters_tile (mp3_files : list mp3_file) :
  tiles 0 (m4b_chapters mp3_files) (probed_ms mp3_files) /\
  length (m4b_chapters mp3_files)
    = length (filter (fun f => probed f = true) mp3_files).
Proof.
  unfold m4b_chapters.
  destruct (m4b_fold mp3_files [] 0%Z eq_refl) as [Ht Hlen].
  by rewrite Z.add_0_l in Ht.
Qed.

(** A file of 0.3 s is a chapter of 300 ms: the float product is 300,
    above the product of the numbers. *)
Lemma m4b_chapters_rounded :
  m4b_chapters [Mp3File "01_intro" (fl 0.3)]
  = [ChapterEntry 0 300 "Intro"] /\ fl 0.3 * 1000 < 300.
Proof. split; vm_compute; reflexivity. Qed.

(** ** The pipeline, further *)

Section ParserBack.
Variable a : args.
Variable trigger : string.
Variable back_trigger : option string.
Variable spoken_to_int : gmap string N.

(** What follows the test for the back trigger reports a chapter or
    nothing. *)
Lemma chapter_branch_kind (text : string) (ts te : Q) (p : parsed) :
  (if String.eqb text trigger then Ok (nothing true)
   else if String.prefix (trigger +:+ " ") text then
     n ← match spoken_to_int !! strip (drop_chars (String.length trigger + 1) text) with
         | Some n => Ok (Some n)
         | None =>
           if isdigit (strip (drop_chars (String.length trigger + 1) text))
           then k ← int_of_str (strip (drop_chars (String.length trigger + 1) text));
                Ok (Some k)
           else Ok None
         end;
     match n with
     | Some k =>
       if negb (k =? 0)%N
       then Ok (Some chapter, Some ts, Some te, Some k, true)
       else Ok (nothing true)
     | None => Ok (nothing true)
     end
   else Ok (nothing true)) = Ok p ->
  kind_of p <> Some back.
Proof using Type.
  assert (Hfin : forall o : option N,
    match o with
    | Some k =>
      if negb (k =? 0)%N
      then Ok (Some chapter, Some ts, Some te, Some k, true)
      else Ok (nothing true)
    | None => Ok (nothing true)
    end = Ok p -> kind_of p <> Some back).
  { intros [k|]; [destruct (negb _)|]; by intros [= <-]. }
  destruct (String.eqb text trigger); [by intros [= <-]|].
  destruct (String.prefix _ _); [|by intros [= <-]].
  destruct (spoken_to_int !! _) as [k|].
  - rewrite py_bind_ok. apply (Hfin (Some k)).
  - destruct (isdigit _) eqn:Ed.
    + destruct (int_of_str_isdigit _ Ed) as [k ->].
      destruct (_ <? _)%nat; [discriminate|].
      rewrite !py_bind_ok. apply (Hfin (Some k)).
    + rewrite py_bind_ok. apply (Hfin None).
Qed.
End ParserBack.

(** X23: For a text written in ASCII and Cyrillic letters, a back candidate
    is reported exactly when the text, stripped and in lower case, is
    the back trigger, which is not empty, every word passes the
    confidence floor and the first word has a start; the test comes
    before the chapter phrases, so a back trigger that starts with the
    trigger word is still a back trigger. *)
Theorem parse_phrase_back (a : args) (trigger : string)
    (back_trigger : option string) (spoken_to_int : gmap string N)
    (r : res_obj) (p : parsed) :
  repertoire (default "" (r_text r)) = true ->
  parse_phrase a trigger back_trigger spoken_to_int r = Ok p ->
  kind_of p = Some back <->
  (exists b, back_trigger = Some b /\ b <> "" /\ text_of r = b) /\
  conf_all (conf_min a) (words_of r) = true /\
  (exists w ws, words_of r = w :: ws /\ is_Some (w_start w)).
Proof.
  intros _. unfold parse_phrase, words_of, text_of.
  set (text := lower (strip (default "" (r_text r)))).
  destruct (String.eqb text "") eqn:Et.
  { cbn [orb]. intros [= <-]. split; [done|].
    intros ((b & _ & Hb & E) & _). apply String.eqb_eq in Et. congruence. }
  destruct (default [] (r_result r)) as [|w ws] eqn:Ew.
  { cbn [orb]. intros [= <-]. split; [done|].
    by intros (_ & _ & (w & ws & [=] & _)). }
  cbn [orb]. destruct (conf_all _ _) eqn:Ec.
  2:{ intros [= <-]. split; [done|]. by intros (_ & [=] & _). }
  destruct (w_start w) as [ts|] eqn:Es.
  2:{ intros [= <-]. split; [done|].
      intros (_ & _ & (w' & ws' & [= <- <-] & Hs)).
      rewrite Es in Hs. by destruct Hs. }
  cbn [max_end].
  set (te := fold_left _ ws _).
  destruct back_trigger as [b|].
  - destruct (negb (String.eqb b "") && String.eqb text b) eqn:Eb.
    + intros [= <-]. split; [intros _|done].
      apply andb_true_iff in Eb as [Hb%negb_true_iff%String.eqb_neq
                                      Eq%String.eqb_eq].
      split_and!; [by exists b | done | exists w, ws; by rewrite Es].
    + intros Hp. apply chapter_branch_kind in Hp. split; [done|].
      intros ((b' & [= <-] & Hb & Eq) & _). exfalso.
      apply andb_false_iff in Eb as [Eb|Eb].
      * apply negb_false_iff, String.eqb_eq in Eb. done.
      * apply String.eqb_neq in Eb. done.
  - intros Hp. apply chapter_branch_kind in Hp. split; [done|].
    by intros ((b' & [=] & _) & _).
Qed.

Lemma parse_phrase_back_witness :
  kind_of (Some back, Some 5, Some 6, None, true) = Some back <->
  (exists b, Some "конец" = Some b /\ b <> "" /\
     text_of (ResObj (Some " КОНЕЦ") (Some [Word (Some 5) (Some 6) None]))
     = b) /\
  conf_all (conf_min default_args)
    (words_of (ResObj (Some " КОНЕЦ")
                 (Some [Word (Some 5) (Some 6) None]))) = true /\
  (exists w ws,
     words_of (ResObj (Some " КОНЕЦ")
                 (Some [Word (Some 5) (Some 6) None])) = w :: ws /\
     is_Some (w_start w)).
Proof.
  apply (parse_phrase_back default_args "глава" (Some "конец") ∅
           (ResObj (Some " КОНЕЦ") (Some [Word (Some 5) (Some 6) None])));
    reflexivity.
Defined.

Section Pipeline.
Variable a : args.
Variable silences : list interval.
Variable trigger : string.
Variable back_trigger : option string.
Variable spoken_to_int : gmap string N.

Lemma append_parsed_numbered (raw : list candidate) (res : res_obj)
    (p : parsed) :
  parse_phrase a trigger back_trigger spoken_to_int res = Ok p ->
  Forall numbered raw -> Forall numbered (append_parsed raw p).
Proof using Type.
  intros Hp Hraw. destruct p as [[[[k ts] te] n] ok]. unfold append_parsed.
  destruct k as [k|]; [|done]. destruct ts as [ts|]; [|done].
  destruct te as [te|]; [|done]. destruct ok; [|done].
  apply Forall_app. split; [done|]. constructor; [|constructor].
  intros Hk. cbn [c_kind] in Hk. subst k. cbn [c_n].
  by apply parse_phrase_chapter in Hp as (_ & _ & _ & _ & _ & Hn).
Qed.

Lemma collect_candidates_numbered (results : list res_obj) :
  forall raw0 raw, Forall numbered raw0 ->
    for_each
      (fun raw_candidates res =>
         p ← parse_phrase a trigger back_trigger spoken_to_int res;
         Ok (append_parsed raw_candidates p))
      results raw0 = Ok raw ->
    Forall numbered raw.
Proof using Type.
  induction results as [|res results IH]; intros raw0 raw H0.
  { by intros [= <-]. }
  cbn [for_each].
  destruct (parse_phrase a trigger back_trigger spoken_to_int res)
    as [p|e] eqn:Hp; [|discriminate].
  rewrite !py_bind_ok. apply IH. by eapply append_parsed_numbered.
Qed.
End Pipeline.

(** X24: From the recognizer's results to the segments, for texts written in
    ASCII and Cyrillic letters: when the loop over the results returns
    its candidates, every label of a final segment is [preface],
    [back_matter] or [chapter_<k>] for a [k] from one on, in decimal; a
    label [chapter_None] or [chapter_0] is never written. *)
Theorem pipeline_labels (a : args) (silences : list interval)
    (trigger : string) (back_trigger : option string)
    (spoken_to_int : gmap string N) (results : list res_obj)
    (total_duration : Q) (raw : list candidate) :
  Forall (fun r => repertoire (default "" (r_text r)) = true) results ->
  collect_candidates a trigger back_trigger spoken_to_int results = Ok raw ->
  forall s, s ∈ segments_of_run a silences raw total_duration ->
            proper_label (seg_label s).
Proof.
  unfold collect_candidates. intros _ Hrun.
  pose proof (collect_candidates_numbered a trigger back_trigger spoken_to_int
                results [] raw (Forall_nil_2 _) Hrun) as Hraw.
  intros s Hs.
  assert (Hl : seg_label s ∈ all_labels (final_marks a silences raw)).
  { eapply elem_of_sublist; [apply list_elem_of_fmap_2, Hs|].
    unfold segments_of_run, make_segments, drop_microscopic, drop_short,
      absorb_short.
    etrans; [apply fmap_sublist, sublist_filter|].
    etrans; [apply fmap_sublist, sublist_filter|].
    etrans; [apply absorb_fold_labels|]. cbn [map app].
    apply build_segments_labels. }
  unfold all_labels in Hl.
  apply elem_of_cons in Hl as [->|Hl]; [by left|].
  apply elem_of_app in Hl as [Hl | ->%list_elem_of_singleton];
    [|right; by left].
  apply list_elem_of_fmap in Hl as (m & -> & Hm).
  pose proof (elem_of_sublist _ _ _ Hm (final_marks_sublist a silences raw))
    as Hc.
  apply keep_loop_provenance in Hc as (c & Hc & -> & _).
  apply sorted_by_elem, list_elem_of_filter in Hc as [Hk Hc].
  rewrite Forall_forall in Hraw.
  destruct (Hraw c Hc) as (k & Hn & Hk0); [by destruct (c_kind c)|].
  right. right. exists k. split; [lia|].
  unfold mark_label, m_n. cbn [snd]. by rewrite Hn.
Qed.

Lemma pipeline_labels_witness :
  collect_candidates default_args "chapter" (Some "the end")
    {["one" := 1%N; "two" := 2%N]}
    [ResObj (Some "chapter one") (Some [Word (Some 10) (Some 11) (Some 1)]);
     ResObj (Some "chapter 0") (Some [Word (Some 200) (Some 201) (Some 1)]);
     ResObj (Some "chapter two") (Some [Word (Some 400) (Some 401) None]);
     ResObj (Some "the end") (Some [Word (Some 900) (Some 901) (Some 1)])]
  = Ok [Candidate chapter 10 11 (Some 1%N);
        Candidate chapter 400 401 (Some 2%N);
        Candidate back 900 901 None] /\
  forall s,
    s ∈ segments_of_run default_args []
          [Candidate chapter 10 11 (Some 1%N);
           Candidate chapter 400 401 (Some 2%N);
           Candidate back 900 901 None] 1000 ->
    proper_label (seg_label s).
Proof.
  assert (Hrun :
    collect_candidates default_args "chapter" (Some "the end")
      {["one" := 1%N; "two" := 2%N]}
      [ResObj (Some "chapter one") (Some [Word (Some 10) (Some 11) (Some 1)]);
       ResObj (Some "chapter 0") (Some [Word (Some 200) (Some 201) (Some 1)]);
       ResObj (Some "chapter two") (Some [Word (Some 400) (Some 401) None]);
       ResObj (Some "the end") (Some [Word (Some 900) (Some 901) (Some 1)])]
    = Ok [Candidate chapter 10 11 (Some 1%N);
          Candidate chapter 400 401 (Some 2%N);
          Candidate back 900 901 None]) by reflexivity.
  split; [exact Hrun|].
  apply (pipeline_labels default_args [] "chapter" (Some "the end")
           {["one" := 1%N; "two" := 2%N]}
           [ResObj (Some "chapter one")
              (Some [Word (Some 10) (Some 11) (Some 1)]);
            ResObj (Some "chapter 0")
              (Some [Word (Some 200) (Some 201) (Some 1)]);
            ResObj (Some "chapter two")
              (Some [Word (Some 400) (Some 401) None]);
            ResObj (Some "the end")
              (Some [Word (Some 900) (Some 901) (Some 1)])]
           1000); [|exact Hrun].
  repeat constructor.
Defined.

Section SequentialMore.
Variable a : args.

(** The sequential filter on a time-ordered list: a mark with the number
    that is expected when the list ends is not later than the last mark
    taken. *)
Lemma sequential_fold_greedy (l : list mark) :
  StronglySorted (key_le m_ts) l ->
  forall (acc : list mark) (e : N),
  exists k, k `sublist_of` l /\
    fold_left
      (fun (st : list mark * N) m =>
         if decide (m_n m = Some st.2) then (st.1 ++ [m], (st.2 + 1)%N)
         else st)
      l (acc, e) = (acc ++ k, (e + N.of_nat (length k))%N) /\
    forall m, m ∈ l -> m_n m = Some (e + N.of_nat (length k))%N ->
      exists m', last k = Some m' /\ m_ts m <= m_ts m'.
Proof using Type.
  induction l as [|m0 l IH]; intros Hs acc e.
  { exists []. split; [done|]. cbn [fold_left length].
    rewrite app_nil_r, N.add_0_r. split; [done|]. by intros m Hm%elem_of_nil. }
  apply StronglySorted_cons in Hs as [Hm0 Hs]. rewrite Forall_forall in Hm0.
  cbn [fold_left fst snd]. destruct (decide _) as [En|En].
  - destruct (IH Hs (acc ++ [m0]) (e + 1)%N) as (k & Hk & -> & Hlast).
    exists (m0 :: k). split; [by apply sublist_skip|]. split.
    { rewrite <- app_assoc. cbn [length]. f_equal. lia. }
    intros m Hm Hn. cbn [length] in Hn.
    apply elem_of_cons in Hm as [->|Hm].
    { rewrite En in Hn. injection Hn as Hn. lia. }
    destruct (Hlast m Hm) as (m' & Hm' & Hle).
    { rewrite Hn. f_equal. lia. }
    exists m'. split; [|done]. destruct k; [done|]. by rewrite last_cons_cons.
  - destruct (IH Hs acc e) as (k & Hk & -> & Hlast).
    exists k. split; [by apply sublist_cons|]. split; [done|].
    intros m Hm Hn. apply elem_of_cons in Hm as [->|Hm]; [|by apply Hlast].
    destruct (snoc_cases k) as [->|(k0 & m' & ->)].
    { cbn [length] in Hn. rewrite N.add_0_r in Hn. done. }
    exists m'. split; [apply last_snoc|]. apply Hm0.
    eapply elem_of_sublist; [|exact Hk]. apply elem_of_app. right. by left.
Qed.
End SequentialMore.

(** X25: With [--sequential-chapters] the numbering stops at [k] only when no
    chapter [k + 1] was kept after the mark of [k]: a kept chapter with
    the number after the last one is not later than the last mark; and
    when there is no mark at all, no chapter 1 was kept. *)
Theorem sequential_run_is_maximal (a : args) (silences : list interval)
    (raw_candidates : list candidate) (m : mark) :
  sequential_chapters a = true ->
  m ∈ chapters_of a silences raw_candidates ->
  m_n m = Some (N.of_nat (length (final_marks a silences raw_candidates)) + 1)%N ->
  exists m', last (final_marks a silences raw_candidates) = Some m' /\
             m_ts m <= m_ts m'.
Proof.
  intros Hseq Hm.
  pose proof (spaced_ascending a _ (chapters_of_spaced a silences raw_candidates))
    as Hs.
  unfold final_marks, sequential_filter. rewrite Hseq.
  rewrite !(sorted_by_ascending m_ts _ Hs).
  destruct (sequential_fold_greedy _ Hs [] 1%N) as (k & _ & -> & Hlast).
  cbn [fst app]. intros Hn. apply Hlast; [done|]. rewrite Hn. f_equal. lia.
Qed.

Lemma sequential_run_is_maximal_witness :
  exists m',
    last (final_marks (Args 0.35 true 90 120 0.6 0.8) []
            [Candidate chapter 10 11 (Some 2%N);
             Candidate chapter 200 201 (Some 1%N)]) = Some m' /\
    m_ts (10, 11, Some 2%N) <= m_ts m'.
Proof.
  apply (sequential_run_is_maximal (Args 0.35 true 90 120 0.6 0.8) []
           [Candidate chapter 10 11 (Some 2%N);
            Candidate chapter 200 201 (Some 1%N)]
           (10, 11, Some 2%N)); [reflexivity | | reflexivity].
  vm_compute. by left.
Defined.

(** X26: The chapters that step 9 writes into the .m4b are in time order and
    never overlap, in milliseconds, and none ends before it starts, for
    any arguments. *)
Theorem chaps_never_overlap (a : args) (silences : list interval)
    (raw_candidates : list candidate) (total_duration : Q) :
  let chapters :=
    chaps (segments_of_run a silences raw_candidates total_duration) in
  StronglySorted entry_before chapters /\
  (forall c, c ∈ chapters -> (start_ms c <= end_ms c)%Z).
Proof.
  cbn zeta.
  assert (Hs : StronglySorted before
                 (segments_of_run a silences raw_candidates total_duration)).
  { unfold segments_of_run, make_segments, drop_microscopic, drop_short,
      absorb_short.
    eapply StronglySorted_sublist; [apply sublist_filter|].
    eapply StronglySorted_sublist; [apply sublist_filter|].
    apply absorb_fold_before. cbn [app].
    destruct (build_segments_shape
                (final_marks a silences raw_candidates)
                (find_back_start a silences raw_candidates) total_duration)
      as (Hc & Hpos & _).
    { apply (spaced_ascending a), final_marks_spaced. }
    by apply contiguous_before. }
  assert (Hlong : forall s,
            s ∈ segments_of_run a silences raw_candidates total_duration ->
            1 <= duration s).
  { unfold segments_of_run, make_segments, drop_microscopic.
    intros s [Hd _]%list_elem_of_filter. by apply Qleb_le. }
  unfold chaps. split_and!.
  - induction Hs as [|s l Hl IH Hsl]; [constructor|].
    cbn [map]. constructor.
    + apply IH. intros s' Hs'. apply Hlong. by right.
    + rewrite Forall_forall in Hsl. apply Forall_forall.
      intros c (s' & -> & Hs')%list_elem_of_fmap.
      unfold entry_before. cbn [start_ms end_ms].
      specialize (Hsl s' Hs'). unfold before in Hsl.
      apply py_round_mono, fmul_mono; [lra | exact Hsl].
  - intros c (s & -> & Hs')%list_elem_of_fmap. cbn [start_ms end_ms].
    specialize (Hlong s Hs'). unfold duration in Hlong.
    assert (Hpos : 0 < fsub (seg_end s) (seg_start s)) by lra.
    apply fsub_pos in Hpos.
    apply py_round_mono, fmul_mono; lra.
Qed.
